(** * bicimad: the EMT link catalogue ([UrlEMT]) and the trip table ([BiciMad])

    A shallow embedding of [bicimad/bicimad.py].  Python objects become
    inductive values, exceptions a [result] type, the two classes records
    with their methods as functions.  What the module imports and does not
    define (the HTTP client, [zipfile], the UTF-8 codec, [pandas.read_csv],
    [pandas.to_datetime], the reduction behind [Series.sum]), and the order
    in which the interpreter iterates a set, are gathered in one record,
    [World], that every method using it takes as an argument, the way the
    tests replace [requests.get] by a mock. *)

From Stdlib Require Import String Ascii List ZArith Lia Bool Permutation.
From Stdlib.Strings Require Import Byte.
From Stdlib Require Import SpecFloat Decimal DecimalString DecimalPos.
Import ListNotations.
Open Scope string_scope.

(** ** Python values, exceptions and formatting *)

Module Py.

(** The exceptions that the module raises itself or that the operations it
    calls raise.  [re_error] is [re.error]; [LibraryError] is whatever an
    imported library raises on its own account (a bad archive, an undecodable
    byte).  [Unmodelled] is no Python exception: it marks a pattern outside
    the fragment of the [re] syntax embedded below (see [Re.compile]). *)
Inductive exn : Type :=
| ConnectionError (msg : string)
| ValueError (msg : string)
| KeyError (key : string)
| IndexError
| TypeError
| OverflowError
| AttributeError
| re_error
| LibraryError (name : string)
| Unmodelled.

Inductive result (A : Type) : Type :=
| Ok (a : A)
| Raise (e : exn).

Arguments Ok {A} a.
Arguments Raise {A} e.

Definition bind {A B : Type} (r : result A) (k : A -> result B) : result B :=
  match r with
  | Ok a => k a
  | Raise e => Raise e
  end.

(** A month or year as a caller may pass it: the annotated [int], and the
    [str] and [None] that nothing in the module rules out. *)
Inductive pyarg : Type :=
| AInt (z : Z)
| AStr (s : string)
| ANone.

(** [str(z)] for an [int]. *)
Definition str_of_Z (z : Z) : string := NilZero.string_of_int (Z.to_int z).

(** [str(x)], which is also what a replacement field without a format
    specification ([{year}], [{month}]) inserts. *)
Definition str (x : pyarg) : string :=
  match x with
  | AInt z => str_of_Z z
  | AStr s => s
  | ANone => "None"
  end.

(** A text is held as the bytes of its UTF-8 encoding.  A byte from 128
    to 191 continues a character; every other byte starts one. *)
Definition continuation (c : ascii) : bool :=
  let n := nat_of_ascii c in Nat.leb 128 n && Nat.ltb n 192.

(** [len(s)]: the number of characters. *)
Fixpoint char_length (s : string) : nat :=
  match s with
  | EmptyString => 0
  | String c s' =>
      if continuation c then char_length s' else S (char_length s')
  end.

(** [format(x, '02')], the replacement field [{month:02}]: sign-aware zero
    padding to width 2 for an [int]; a [str] of fewer than two characters
    is padded on the right with the fill character (Python 3.10 and
    later); [None] takes no format specification and raises
    [TypeError]. *)
Definition format_02 (x : pyarg) : result string :=
  match x with
  | AInt z =>
      let digits := str_of_Z (Z.abs z) in
      if (z <? 0)%Z then Ok ("-" ++ digits)
      else if Nat.ltb (String.length digits) 2 then Ok ("0" ++ digits)
      else Ok digits
  | AStr s =>
      match char_length s with
      | O => Ok (s ++ "00")
      | S O => Ok (s ++ "0")
      | _ => Ok s
      end
  | ANone => Raise TypeError
  end.

(** A Python [float] is an IEEE 754 binary64 number. *)
Definition float : Type := spec_float.

Definition float_of_Z (z : Z) : float := binary_normalize 53 1024 z 0 false.
Definition float_add (x y : float) : float := SFadd 53 1024 x y.
Definition float_div (x y : float) : float := SFdiv 53 1024 x y.

Definition is_nan (x : float) : bool :=
  match x with
  | S754_nan => true
  | _ => false
  end.

(** What a reduction of numpy returns: an [int64] or a [float64].
    Dividing either by an [int] is a division of floats. *)
Inductive number : Type :=
| NInt (z : Z)
| NFloat (x : float).

Definition float_of_number (n : number) : float :=
  match n with
  | NInt z => float_of_Z z
  | NFloat x => x
  end.

(** [int(x)] for a float: truncation towards zero; it raises on the
    infinities ([OverflowError]) and on NaN ([ValueError]). *)
Definition int_of_float (x : float) : result Z :=
  match x with
  | S754_zero _ => Ok 0%Z
  | S754_finite s m e =>
      let magnitude :=
        if (0 <=? e)%Z then Z.shiftl (Zpos m) e else Z.shiftr (Zpos m) (- e) in
      Ok (if s then (- magnitude)%Z else magnitude)
  | S754_infinity _ => Raise OverflowError
  | S754_nan => Raise (ValueError "cannot convert float NaN to integer")
  end.

(** What a cell of the table, or an entry of the summary, holds. *)
Inductive value : Type :=
| VNone
| VInt (z : Z)
| VFloat (x : float)
| VStr (s : string).

Definition NaN : value := VFloat S754_nan.

Definition value_of_arg (x : pyarg) : value :=
  match x with
  | AInt z => VInt z
  | AStr s => VStr s
  | ANone => VNone
  end.

End Py.

Import Py.

Declare Scope py_scope.
Notation "x <- e ;; k" := (bind e (fun x => k))
  (at level 61, e at next level, right associativity) : py_scope.
Open Scope py_scope.

(** ** The fragment of Python's [re] that the module's patterns use *)

Module Re.

Definition newline : ascii := "010"%char.
Definition dquote : ascii := "034"%char.

(** One position of a pattern: a literal character, or [.], which matches
    every character but the newline. *)
Inductive atom : Type :=
| Chr (c : ascii)
| Dot.

(** An atom taken once, or under the greedy [*]. *)
Inductive item : Type :=
| One (a : atom)
| Star (a : atom).

Definition regex : Type := list item.

Definition atom_match (a : atom) (c : ascii) : bool :=
  match a with
  | Chr d => Ascii.eqb d c
  | Dot => negb (Ascii.eqb c newline)
  end.

(** The pattern of a literal text. *)
Fixpoint lits (s : string) : regex :=
  match s with
  | EmptyString => []
  | String c s' => One (Chr c) :: lits s'
  end.

(** [match_here r s]: the length of the match of [r] at the start of [s]
    that the backtracking matcher finds first; a starred atom takes as many
    characters as it can and gives them back one at a time. *)
Fixpoint match_here (r : regex) : string -> option nat :=
  match r with
  | [] => fun _ => Some 0
  | One a :: r' =>
      fun s =>
        match s with
        | String c s' =>
            if atom_match a c then option_map S (match_here r' s') else None
        | EmptyString => None
        end
  | Star a :: r' =>
      fix star (s : string) : option nat :=
        match s with
        | String c s' =>
            if atom_match a c then
              match star s' with
              | Some n => Some (S n)
              | None => match_here r' s
              end
            else match_here r' s
        | EmptyString => match_here r' s
        end
  end.

(** [pattern.search(s)]: the leftmost position where the pattern matches,
    with the length of the match there. *)
Fixpoint search (r : regex) (s : string) : option (nat * nat) :=
  match match_here r s with
  | Some n => Some (0, n)
  | None =>
      match s with
      | String _ s' =>
          match search r s' with
          | Some (i, n) => Some (S i, n)
          | None => None
          end
      | EmptyString => None
      end
  end.

(** [pattern.finditer(s)], as the texts matched: the matches from left to
    right, each search resuming where the previous match ended ([skip]
    counts the characters of a match still to pass over; after an empty
    match the scan moves on by one character). *)
Fixpoint finditer_from (r : regex) (skip : nat) (s : string) : list string :=
  match skip, s with
  | S k, String _ s' => finditer_from r k s'
  | S _, EmptyString => []
  | O, String _ s' =>
      match match_here r s with
      | Some n => substring 0 n s :: finditer_from r (Nat.pred n) s'
      | None => finditer_from r 0 s'
      end
  | O, EmptyString =>
      match match_here r s with
      | Some n => [substring 0 n s]
      | None => []
      end
  end.

Definition finditer (r : regex) (s : string) : list string :=
  finditer_from r 0 s.

(** The special characters of the [re] syntax other than [.] and [*]; a
    pattern text holding one is outside the embedded fragment. *)
Definition beyond_fragment (c : ascii) : bool :=
  existsb (Ascii.eqb c)
    (list_ascii_of_string "\^$|?+()[]{}").

(** The characters that stand for themselves in a pattern. *)
Definition literal_char (c : ascii) : bool :=
  negb (Ascii.eqb c "."%char || Ascii.eqb c "*"%char || beyond_fragment c).

Fixpoint literal (s : string) : bool :=
  match s with
  | EmptyString => true
  | String c s' => literal_char c && literal s'
  end.

(** [re.compile(p)] on the fragment: literal characters, [.], and [*]
    after either.  A [*] with nothing to repeat, or after another [*], is
    [re.error]; any other special character gives [Unmodelled]. *)
Fixpoint compile (p : string) : result regex :=
  match p with
  | EmptyString => Ok []
  | String c p' =>
      if Ascii.eqb c "*"%char then Raise re_error
      else if beyond_fragment c then Raise Unmodelled
      else
        let a := if Ascii.eqb c "."%char then Dot else Chr c in
        match p' with
        | String d p'' =>
            if Ascii.eqb d "*"%char
            then r <- compile p'' ;; Ok (Star a :: r)
            else r <- compile p' ;; Ok (One a :: r)
        | EmptyString => Ok [One a]
        end
  end.

(** [p in s]: the text [p] occurs in [s]. *)
Definition contains (p s : string) : Prop :=
  exists a b, s = a ++ p ++ b.

Fixpoint no_newline (s : string) : bool :=
  match s with
  | EmptyString => true
  | String c s' => negb (Ascii.eqb c newline) && no_newline s'
  end.

(** The items that can match a newline: a literal newline, starred or
    not. *)
Definition crosses_newline (it : item) : bool :=
  match it with
  | One (Chr c) | Star (Chr c) => Ascii.eqb c newline
  | _ => false
  end.

End Re.

(** ** The part of pandas that the module relies on *)

Module Pandas.

(** A label of the index: what [read_csv] put there, and, after
    [to_datetime], a timestamp (nanoseconds since the epoch) or [NaT]. *)
Inductive index_value : Type :=
| Label (v : value)
| Timestamp (ns : Z)
| NaT.

(** A table: its column labels in order and its rows, each with its index
    label and one cell per column.  [read_csv] makes the column labels
    distinct. *)
Record DataFrame : Type := mkDataFrame {
  columns : list string;
  rows : list (index_value * list value)
}.

(** [pd.isna(x)] on a cell. *)
Definition isna (v : value) : bool :=
  match v with
  | VNone => true
  | VFloat x => is_nan x
  | _ => false
  end.

(** [df.index]. *)
Definition index (df : DataFrame) : list index_value := map fst (rows df).

(** [df.size]: the number of cells. *)
Definition size (df : DataFrame) : nat :=
  (List.length (rows df) * List.length (columns df))%nat.

Fixpoint position (c : string) (cols : list string) : option nat :=
  match cols with
  | [] => None
  | c' :: cols' =>
      if String.eqb c c' then Some 0%nat else option_map S (position c cols')
  end.

(** [df[c]]: the cells of column [c]; [KeyError] when there is none. *)
Definition getitem (df : DataFrame) (c : string) : result (list value) :=
  match position c (columns df) with
  | Some p => Ok (map (fun r => nth p (snd r) NaN) (rows df))
  | None => Raise (KeyError c)
  end.

Fixpoint set_nth (p : nat) (v : value) (cells : list value) : list value :=
  match p, cells with
  | O, _ :: cells' => v :: cells'
  | S p', x :: cells' => x :: set_nth p' v cells'
  | _, [] => []
  end.

Fixpoint set_column (p : nat) (rs : list (index_value * list value))
    (vals : list value) : list (index_value * list value) :=
  match rs, vals with
  | r :: rs', v :: vals' => (fst r, set_nth p v (snd r)) :: set_column p rs' vals'
  | _, _ => rs
  end.

(** [df[c] = vals] for a column that exists and a series on the table's
    own index: the cells of [c] are replaced row by row. *)
Definition setitem (df : DataFrame) (c : string) (vals : list value) : DataFrame :=
  match position c (columns df) with
  | Some p => mkDataFrame (columns df) (set_column p (rows df) vals)
  | None => df
  end.

(** [series.map(f)]: [f] on every cell in turn; an exception of [f] ends
    the call. *)
Fixpoint series_map (f : value -> result value) (col : list value)
    : result (list value) :=
  match col with
  | [] => Ok []
  | v :: col' => w <- f v ;; ws <- series_map f col' ;; Ok (w :: ws)
  end.

(** [df.dropna(axis=0, how='all')]: the rows all of whose cells are null
    go; the index label plays no part. *)
Definition dropna_all (df : DataFrame) : DataFrame :=
  mkDataFrame (columns df)
    (filter (fun r => negb (forallb isna (snd r))) (rows df)).

Definition mem (c : string) (l : list string) : bool :=
  existsb (String.eqb c) l.

(** The cells under the labels that [keep] accepts. *)
Fixpoint select (keep : string -> bool) (cols : list string)
    (cells : list value) : list value :=
  match cols, cells with
  | c :: cols', x :: cells' =>
      if keep c then x :: select keep cols' cells' else select keep cols' cells'
  | _, _ => []
  end.

(** [df.drop(columns=delete)]. *)
Definition drop (df : DataFrame) (delete : list string) : DataFrame :=
  let keep := fun c => negb (mem c delete) in
  mkDataFrame (filter keep (columns df))
    (map (fun r => (fst r, select keep (columns df) (snd r))) (rows df)).

(** [df.index = labels]. *)
Fixpoint set_index (rs : list (index_value * list value))
    (labels : list index_value) : list (index_value * list value) :=
  match rs, labels with
  | r :: rs', l :: labels' => (l, snd r) :: set_index rs' labels'
  | _, _ => rs
  end.

(** [pd.to_datetime(idx, errors='coerce')] on one label, given the
    library's parser: what does not parse becomes [NaT]. *)
Definition coerce (parse : value -> option Z) (l : index_value) : index_value :=
  match l with
  | Label v =>
      match parse v with
      | Some ns => Timestamp ns
      | None => NaT
      end
  | Timestamp ns => Timestamp ns
  | NaT => NaT
  end.

(** A cell that holds text. *)
Definition is_text (v : value) : bool :=
  match v with
  | VStr _ => true
  | _ => false
  end.

(** [x / 60] for the number that a sum returns. *)
Definition div60 (x : number) : float :=
  float_div (float_of_number x) (float_of_Z 60).

Definition float_eq_dec (x y : float) : {x = y} + {x <> y}.
Proof.
  decide equality; try apply Z.eq_dec; try apply Pos.eq_dec; apply bool_dec.
Defined.

Definition value_eq_dec (x y : value) : {x = y} + {x <> y}.
Proof.
  decide equality;
    [apply Z.eq_dec | apply float_eq_dec | apply string_dec].
Defined.

Definition value_eqb (x y : value) : bool :=
  if value_eq_dec x y then true else false.

(** How many cells of the column hold [v]. *)
Definition occurrences (v : value) (col : list value) : nat :=
  List.length (filter (value_eqb v) col).

(** The distinct values of a column, in order of first appearance. *)
Fixpoint distinct (col : list value) : list value :=
  match col with
  | [] => []
  | v :: col' => v :: filter (fun w => negb (value_eqb v w)) (distinct col')
  end.

(** Insertion in a list kept in descending order of count, before the
    entries of the same count. *)
Fixpoint insert_desc (e : value * nat) (l : list (value * nat))
    : list (value * nat) :=
  match l with
  | [] => [e]
  | e' :: l' =>
      if Nat.leb (snd e') (snd e) then e :: l else e' :: insert_desc e l'
  end.

Definition sort_desc (l : list (value * nat)) : list (value * nat) :=
  fold_right insert_desc [] l.

(** [series.value_counts()]: each non-null value with its number of
    occurrences, the most frequent first.  Which of several values with
    the same count comes first is the library's choice; here it is the one
    that appears first. *)
Definition value_counts (col : list value) : list (value * nat) :=
  let present := filter (fun v => negb (isna v)) col in
  sort_desc (map (fun v => (v, occurrences v present)) (distinct present)).

End Pandas.

Import Pandas.

(** ** What the module imports *)

(** What [requests.get] returns, as far as the module reads it. *)
Record Response : Type := mkResponse {
  status_code : Z;
  text : string;
  content : list byte
}.

(** An opened archive: the entries of its directory, each with its
    decompressed bytes. *)
Definition archive : Type := list (string * list byte).

(** The imported operations that the module calls and does not define,
    and the interpreter's own choices.  [read_csv] takes the text, the
    delimiter and the index column; [to_datetime] is the parser behind
    [pd.to_datetime]; [nansum] is the reduction behind [series.sum()] on a
    column of numbers and nulls: in which order and in which precision
    numpy adds is its own affair; [to_string] is [str] on a table.
    [set_iter] is the order in which a [set] of texts is iterated, given
    its members in the order in which they were added: it depends on the
    hashes of the texts, which change from one run to the next, and all
    that the language promises is that each member comes once. *)
Record World : Type := mkWorld {
  requests_get : string -> Response;
  ZipFile : list byte -> result archive;
  decode_utf8 : list byte -> result string;
  read_csv : string -> string -> string -> result DataFrame;
  to_datetime : value -> option Z;
  nansum : list value -> number;
  to_string : DataFrame -> string;
  set_iter : list string -> list string;
  set_iter_members : forall s, Permutation s (set_iter s)
}.

(** [zfile.open(name)] followed by [read()]: when several entries carry the
    name the last one is read; [KeyError] when none does. *)
Definition zopen (z : archive) (name : string) : result (list byte) :=
  match List.find (fun e => String.eqb (fst e) name) (List.rev z) with
  | Some e => Ok (snd e)
  | None => Raise (KeyError name)
  end.

(** ** class UrlEMT *)

Definition EMT : string := "https://opendata.emtmadrid.es/".
Definition GENERAL : string := "/Datos-estaticos/Datos-generales-(1)".

(** [_valid_urls], a set of strings: its members in the order in which the
    set is iterated, each once. *)
Record UrlEMT : Type := mkUrlEMT {
  _valid_urls : list string
}.

(** [valid_urls.add(x)], on a set given by its members in the order in
    which they were added.  That order is not the one in which the set is
    iterated, see [set_iter]. *)
Definition set_add (x : string) (s : list string) : list string :=
  if mem x s then s else (s ++ [x])%list.

(** The pattern of [get_links]: a first group, [href=] and a double
    quote, then the group [link]: [.*], [trips], [.*], [aspx]. *)
Definition urls_re : Re.regex :=
  (Re.lits ("href=" ++ String Re.dquote EmptyString)
   ++ [Re.Star Re.Dot] ++ Re.lits "trips" ++ [Re.Star Re.Dot]
   ++ Re.lits "aspx")%list.

(** [i.group('link')]: the match without the six characters of the first
    group. *)
Definition group_link (m : string) : string :=
  substring 6 (String.length m - 6) m.

Definition get_links (html_txt : string) : list string :=
  fold_left (fun valid_urls i => set_add (group_link i) valid_urls)
    (Re.finditer urls_re html_txt) [].

Definition connection_msg : string :=
  "No se pudo conectar con la página de la EMT.".

Definition select_valid_urls (w : World) : result (list string) :=
  let r := requests_get w (EMT ++ GENERAL) in
  if negb (status_code r =? 200)%Z then Raise (ConnectionError connection_msg)
  else Ok (get_links (text r)).

(** [UrlEMT()]. *)
Definition UrlEMT_init (w : World) : result UrlEMT :=
  urls <- select_valid_urls w ;; Ok (mkUrlEMT (set_iter w urls)).

(** The text searched for: [trips_{year}_{month:02}]. *)
Definition trips_key (month year : pyarg) : result string :=
  m <- format_02 month ;; Ok ("trips_" ++ str year ++ "_" ++ m).

(** The sentence of the message that names the period covered. *)
Definition periodo : string :=
  "Los datos se encuentran disponibles para el periodo comprendido entre junio de 2021 y febrero de 2023.".

Definition no_link_msg (month year : pyarg) : string :=
  " No existe un enlace para el mes " ++ str month ++ " del año 20"
  ++ str year ++ ". " ++ String Re.newline EmptyString ++ periodo.

(** What [.*key.*] compiles to when the characters of [key] stand for
    themselves. *)
Definition key_re (key : string) : Re.regex :=
  (Re.Star Re.Dot :: Re.lits key ++ [Re.Star Re.Dot])%list.

(** The loop of [get_url]: the first link, in iteration order, where the
    pattern is found, as [s.group()] gives it. *)
Fixpoint first_match (filename_re : Re.regex) (urls : list string)
    : option string :=
  match urls with
  | [] => None
  | i :: urls' =>
      match Re.search filename_re i with
      | Some (start, n) => Some (substring start n i)
      | None => first_match filename_re urls'
      end
  end.

Definition get_url (self : UrlEMT) (month year : pyarg) : result string :=
  key <- trips_key month year ;;
  filename_re <- Re.compile (".*" ++ key ++ ".*") ;;
  match first_match filename_re (_valid_urls self) with
  | Some link => Ok link
  | None => Raise (ValueError (no_link_msg month year))
  end.

(** The pattern of [get_csv]: group 1, [trips] and [.*], then a hyphen. *)
Definition stem_re : Re.regex :=
  (Re.lits "trips" ++ [Re.Star Re.Dot; Re.One (Re.Chr "-"%char)])%list.

(** [filename_re.search(url).group(1) + ".csv"]; when nothing is found
    [search] returns [None], which has no [group]. *)
Definition csv_name (url : string) : result string :=
  match Re.search stem_re url with
  | Some (start, n) => Ok (substring start (n - 1) url ++ ".csv")
  | None => Raise AttributeError
  end.

(** [get_csv] returns an [io.StringIO]; it is given by its text. *)
Definition get_csv (w : World) (self : UrlEMT) (month year : pyarg)
    : result string :=
  url <- get_url self month year ;;
  let r := requests_get w (EMT ++ url) in
  if negb (status_code r =? 200)%Z then Raise (ConnectionError connection_msg)
  else
    zfile <- ZipFile w (content r) ;;
    filename <- csv_name url ;;
    f <- zopen zfile filename ;;
    contents <- decode_utf8 w f ;;
    Ok contents.

(** ** The links as the specification describes them *)

(** The specification's reading of [select_valid_urls], to compare with
    [get_links]: the values of the [href] attributes that contain [trips]
    and end in [aspx], as a set. *)
Module Spec.

(** The text up to the next double quote. *)
Fixpoint until_quote (s : string) : string :=
  match s with
  | EmptyString => EmptyString
  | String c s' =>
      if Ascii.eqb c Re.dquote then EmptyString else String c (until_quote s')
  end.

(** The values of the [href] attributes of a page, in order. *)
Fixpoint href_values (html : string) : list string :=
  match html with
  | EmptyString => []
  | String _ html' =>
      if prefix ("href=" ++ String Re.dquote EmptyString) html
      then until_quote (substring 6 (String.length html - 6) html)
           :: href_values html'
      else href_values html'
  end.

Fixpoint occurs (p s : string) : bool :=
  match s with
  | EmptyString => prefix p s
  | String _ s' => prefix p s || occurs p s'
  end.

Definition ends_with (suffix s : string) : bool :=
  String.eqb
    (substring (String.length s - String.length suffix) (String.length suffix) s)
    suffix.

Definition valid_links (html : string) : list string :=
  fold_left (fun urls h => set_add h urls)
    (filter (fun h => occurs "trips" h && ends_with "aspx" h) (href_values html))
    [].

End Spec.

(** ** class BiciMad *)

Record BiciMad : Type := mkBiciMad {
  _month : pyarg;
  _year : pyarg;
  _data : DataFrame
}.

(** The columns that [get_data] keeps. *)
Definition allowed_columns : list string :=
  ["idBike"; "fleet"; "trip_minutes"; "geolocation_unlock"; "address_unlock";
   "unlock_date"; "locktype"; "unlocktype"; "geolocation_lock"; "address_lock";
   "lock_date"; "station_unlock"; "unlock_station_name"; "station_lock";
   "lock_station_name"].

(** What [get_data] does to the table that [read_csv] returns: the labels
    outside the list are gathered in [delete] and dropped, and the index is
    converted. *)
Definition keep_allowed (w : World) (df : DataFrame) : DataFrame :=
  let delete :=
    filter (fun column => negb (mem column allowed_columns)) (columns df) in
  let df := drop df delete in
  mkDataFrame (columns df)
    (set_index (rows df) (map (coerce (to_datetime w)) (index df))).

Definition get_data (w : World) (month year : pyarg) : result DataFrame :=
  url_emt <- UrlEMT_init w ;;
  csv <- get_csv w url_emt month year ;;
  df <- read_csv w csv ";" "fecha" ;;
  Ok (keep_allowed w df).

(** [BiciMad(month, year)]. *)
Definition BiciMad_init (w : World) (month year : pyarg) : result BiciMad :=
  data <- get_data w month year ;; Ok (mkBiciMad month year data).

(** A method that may change the object: it gives its result, or the
    exception it raises, together with the object as it leaves it. *)
Definition method (A : Type) : Type := BiciMad -> result A * BiciMad.

(** The function mapped over the identifier columns:
    [str(int(x)) if isinstance(x, float) and not pd.isna(x) else x]. *)
Definition to_id (x : value) : result value :=
  match x with
  | VFloat f =>
      if negb (isna x) then z <- int_of_float f ;; Ok (VStr (str_of_Z z))
      else Ok x
  | _ => Ok x
  end.

Definition id_columns : list string :=
  ["fleet"; "idBike"; "station_lock"; "station_unlock"].

(** One turn of the loop of [clean]:
    [df[col_name] = df[col_name].map(to_id)]. *)
Definition clean_column (col_name : string) (df : DataFrame) : result DataFrame :=
  col <- getitem df col_name ;;
  mapped <- series_map to_id col ;;
  Ok (setitem df col_name mapped).

(** The loop of [clean]; an exception leaves the table as the turns before
    it made it. *)
Fixpoint clean_columns (names : list string) (df : DataFrame)
    : result unit * DataFrame :=
  match names with
  | [] => (Ok tt, df)
  | col_name :: names' =>
      match clean_column col_name df with
      | Ok df' => clean_columns names' df'
      | Raise e => (Raise e, df)
      end
  end.

Definition clean : method unit :=
  fun self =>
    let (r, df) := clean_columns id_columns (dropna_all (_data self)) in
    (r, mkBiciMad (_month self) (_year self) df).

(** The property [data]. *)
Definition data : method DataFrame :=
  fun self =>
    let (r, self') := clean self in
    match r with
    | Ok _ => (Ok (_data self'), self')
    | Raise e => (Raise e, self')
    end.

Definition __str__ (w : World) : method string :=
  fun self =>
    let (r, self') := data self in
    match r with
    | Ok df => (Ok (to_string w df), self')
    | Raise e => (Raise e, self')
    end.

(** The cells at position [p] are as [to_id] leaves them. *)
Definition settled (p : nat) (df : DataFrame) : Prop :=
  Forall (fun r => to_id (nth p (snd r) NaN) = Ok (nth p (snd r) NaN))
    (rows df).

(** No row is null throughout. *)
Definition no_null_row (df : DataFrame) : Prop :=
  Forall (fun r => forallb isna (snd r) = false) (rows df).

(** A float that is one of the infinities. *)
Definition infinite (v : value) : bool :=
  match v with
  | VFloat (S754_infinity _) => true
  | _ => false
  end.

(** No identifier column of the table holds an infinite float. *)
Definition finite_ids (df : DataFrame) : Prop :=
  forall k p, In k id_columns -> position k (columns df) = Some p ->
    Forall (fun r => infinite (nth p (snd r) NaN) = false) (rows df).

(** The summary, a [pd.Series]: its labels with their values, in order. *)
Definition Series : Type := list (string * value).

(** [series.sum() / 60].  On a column of numbers and nulls the sum is the
    number that the library's reduction gives.  On a column that holds
    text the addition of a number to a text fails, or, all cells being
    text, the sum is a text that cannot be divided: [TypeError] in both
    cases. *)
Definition sum_div_60 (w : World) (col : list value) : result value :=
  if existsb is_text col then Raise TypeError
  else Ok (VFloat (div60 (nansum w col))).

Definition summary_of (w : World) (month year : pyarg) (data : DataFrame)
    : result Series :=
  trip_minutes <- getitem data "trip_minutes" ;;
  total_time <- sum_div_60 w trip_minutes ;;
  address_unlock <- getitem data "address_unlock" ;;
  match value_counts address_unlock with
  | (station, uses) :: _ =>
      Ok [("year", VStr ("20" ++ str year));
          ("month", value_of_arg month);
          ("total_uses", VInt (Z.of_nat (size data)));
          ("total_time", total_time);
          ("most_popular_station", station);
          ("uses_from_most_popular", VInt (Z.of_nat uses))]
  | [] => Raise IndexError
  end.

Definition resume (w : World) : method Series :=
  fun self =>
    let (r, self') := data self in
    match r with
    | Ok data => (summary_of w (_month self') (_year self') data, self')
    | Raise e => (Raise e, self')
    end.

(** ** A test double, after the fixtures of [tests/test_bicimad.py] *)

Module Fixture.

Definition q : string := String Re.dquote EmptyString.
Definition nl : string := String Re.newline EmptyString.

Definition anchor (href label : string) : string :=
  "<a href=" ++ q ++ href ++ q ++ ">" ++ label ++ "</a>".

Definition january : string :=
  "/getattachment/20b8509b-97a8-4831-b9d2-4900322e1714/trips_23_01_January-csv.aspx".
Definition march : string :=
  "/getattachment/e1ea5e02-4ba9-471a-bb95-8cb327220b05/trips_22_03_March-csv.aspx".
Definition june : string :=
  "/getattachment/ab3776ab-ba7f-4da3-bea6-e70c21c7d8be/trips_21_06_June-csv.aspx".

(** An index page with one anchor on each line. *)
Definition emt_datos : string :=
  "<ul>" ++ nl
  ++ "<li>" ++ anchor january "Enero 2023" ++ "</li>" ++ nl
  ++ "<li>" ++ anchor "/Datos-estaticos/Ayuda.aspx" "Ayuda" ++ "</li>" ++ nl
  ++ "<li>" ++ anchor march "Marzo 2022" ++ "</li>" ++ nl
  ++ "<li>" ++ anchor june "Junio 2021" ++ "</li>" ++ nl
  ++ "<li>" ++ anchor january "Enero 2023 (copia)" ++ "</li>" ++ nl
  ++ "</ul>".

(** Two anchors on one line. *)
Definition one_line : string :=
  anchor january "Enero 2023" ++ " " ++ anchor march "Marzo 2022".

Definition catalogue : UrlEMT := mkUrlEMT [january; march; june].

(** 1.5, 2.25 and 90 as floats; the two infinities are [S754_infinity]. *)
Definition f1_5 : float := float_div (float_of_Z 3) (float_of_Z 2).
Definition f2_25 : float := float_div (float_of_Z 9) (float_of_Z 4).
Definition f90 : float := float_of_Z 90.

(** The table that the test double of [read_csv] returns: the fifteen
    columns in the order of the feed, and one column that [get_data]
    drops.  The last row is empty. *)
Definition raw_columns : list string :=
  ["idBike"; "fleet"; "trip_minutes"; "geolocation_unlock"; "address_unlock";
   "unlock_date"; "locktype"; "unlocktype"; "geolocation_lock"; "address_lock";
   "lock_date"; "station_unlock"; "dock_unlock"; "unlock_station_name";
   "station_lock"; "lock_station_name"].

Definition trip (bike : Z) (minutes : float) (address : string)
    : list value :=
  [VFloat (float_of_Z bike); VFloat (float_of_Z 1); VFloat minutes;
   VStr "{'type': 'Point'}"; VStr address; VStr "2023-01-01T00:05:19";
   VStr "STATION"; VStr "STATION"; VStr "{'type': 'Point'}";
   VStr "Calle de Atocha 54"; VStr "2023-01-01T00:11:27";
   VFloat (float_of_Z 43); VFloat (float_of_Z 7); VStr "39 - Plaza de la Cebada";
   NaN; VStr "52 - Atocha"].

Definition raw_table : DataFrame :=
  mkDataFrame raw_columns
    [(Label (VStr "2023-01-01"), trip 7337 f1_5 "Plaza de la Cebada 16");
     (Label (VStr "2023-01-01"), trip 5098 f2_25 "Calle de Atocha 54");
     (Label (VStr "ayer"), trip 6519 f90 "Plaza de la Cebada 16");
     (Label NaN, repeat NaN 16)].

Definition csv_bytes : list byte := list_byte_of_string "fecha;idBike;fleet".

Definition mock_get (status : Z) (url : string) : Response :=
  if String.eqb url (EMT ++ GENERAL) then mkResponse 200 emt_datos []
  else mkResponse status "" csv_bytes.

(** The reduction of the test double: the numbers of the column added in
    its order, the integers exactly. *)
Fixpoint add_in_order (acc : number) (col : list value) : number :=
  match col with
  | [] => acc
  | VInt b :: col' =>
      match acc with
      | NInt a => add_in_order (NInt (a + b)) col'
      | NFloat x => add_in_order (NFloat (float_add x (float_of_Z b))) col'
      end
  | VFloat y :: col' =>
      if is_nan y then add_in_order acc col'
      else add_in_order (NFloat (float_add (float_of_number acc) y)) col'
  | _ :: col' => add_in_order acc col'
  end.

(** The test double iterates a set from the member added last to the
    member added first. *)
Definition mock_world (status : Z) : World :=
  mkWorld (mock_get status)
    (fun b => Ok [("README.txt", []); ("trips_23_01_January.csv", b)])
    (fun b => Ok (string_of_list_byte b))
    (fun _ _ _ => Ok raw_table)
    (fun v => match v with VStr "2023-01-01" => Some 1672531200000000000%Z | _ => None end)
    (add_in_order (NInt 0))
    (fun _ => "")
    (@List.rev string)
    (@Permutation_rev string).

(** The index page itself answers 404, as [mock_response_error] does. *)
Definition world_404 : World :=
  mkWorld (fun _ => mkResponse 404 "Not Found" [])
    (fun _ => Raise (LibraryError "BadZipFile"))
    (fun b => Ok (string_of_list_byte b))
    (fun _ _ _ => Ok raw_table)
    (fun _ => None)
    (add_in_order (NInt 0))
    (fun _ => "")
    (fun s => s)
    (@Permutation_refl string).

(** A table with the fifteen columns and no row. *)
Definition no_trips : BiciMad :=
  mkBiciMad (AInt 2) (AInt 23) (mkDataFrame allowed_columns []).

(** A table whose first identifier column holds an infinite float and that
    has no [idBike] column. *)
Definition inf_fleet : BiciMad :=
  mkBiciMad (AInt 2) (AInt 23)
    (mkDataFrame ["fleet"; "trip_minutes"]
       [(NaT, [VFloat (S754_infinity false); VFloat f1_5])]).

(** A table without the [station_lock] column. *)
Definition no_station_lock : BiciMad :=
  mkBiciMad (AInt 2) (AInt 23)
    (mkDataFrame ["idBike"; "fleet"; "station_unlock"]
       [(NaT, [VFloat (float_of_Z 7337); VFloat (float_of_Z 1); VInt 43])]).

(** The object that [BiciMad(1, 23)] builds from [raw_table]. *)
Definition loaded : BiciMad :=
  mkBiciMad (AInt 1) (AInt 23) (keep_allowed (mock_world 200) raw_table).

Definition column (df : DataFrame) (c : string) : list value :=
  match getitem df c with
  | Ok col => col
  | Raise _ => []
  end.

End Fixture.

(** ** Notions that the properties are stated with *)

(** A float that is a number: not NaN.  These are the cells that the
    function mapped by [clean] does not leave as they are. *)
Definition float_number (v : value) : bool :=
  match v with
  | VFloat x => negb (is_nan x)
  | _ => false
  end.

(** A table as [clean] leaves it: no row is null throughout, and each
    identifier column is there and holds no float number. *)
Definition cleaned (df : DataFrame) : Prop :=
  no_null_row df
  /\ forall c, In c id_columns ->
       exists col, getitem df c = Ok col
                   /\ forallb (fun v => negb (float_number v)) col = true.

(** The text that opens an attribute [href]. *)
Definition href_open : string := "href=" ++ String Re.dquote EmptyString.

(** A line of an index page, as the property on the links of a page reads
    it: a line in which [trips] does not occur, or a line with one
    attribute [href], whose value [link] the double quote after it
    closes. *)
Inductive line : Type :=
| Plain (txt : string)
| Anchor (pre link post : string).

Definition line_text (l : line) : string :=
  match l with
  | Plain txt => txt
  | Anchor pre link post =>
      pre ++ href_open ++ link ++ String Re.dquote post
  end.

Definition line_links (l : line) : list string :=
  match l with
  | Plain _ => []
  | Anchor _ link _ => [link]
  end.

(** The lines joined by newlines. *)
Fixpoint page (ls : list line) : string :=
  match ls with
  | [] => EmptyString
  | l :: ls' =>
      match ls' with
      | [] => line_text l
      | _ :: _ => line_text l ++ String Re.newline (page ls')
      end
  end.

(** Every attribute [href] that opens in the text is closed in it. *)
Definition closed (txt : string) : Prop :=
  forall a b, txt = a ++ href_open ++ b ->
              Re.contains (String Re.dquote EmptyString) b.

(** The same, as a test that can be run on a given text. *)
Fixpoint closedb (txt : string) : bool :=
  match txt with
  | EmptyString => true
  | String _ txt' =>
      (if prefix href_open txt
       then Spec.occurs (String Re.dquote EmptyString)
              (substring 6 (String.length txt - 6) txt)
       else true)
      && closedb txt'
  end.

(** A line holds no newline.  A plain line may hold attributes [href],
    each closed on the line, and [trips] occurs nowhere in it.  In an
    anchor line the attribute described is the only one: none opens
    before it or after it; its value holds no double quote, contains
    [trips] and ends in [aspx]; and what follows the value on the line
    completes no further [aspx]. *)
Definition line_ok (l : line) : Prop :=
  Re.no_newline (line_text l) = true
  /\ match l with
     | Plain txt => ~ Re.contains "trips" txt /\ closed txt
     | Anchor pre link post =>
         ~ Re.contains href_open (pre ++ "href=")
         /\ ~ Re.contains (String Re.dquote EmptyString) link
         /\ (exists x y, link = x ++ "trips" ++ y ++ "aspx")
         /\ ~ Re.contains "aspx" ("spx" ++ String Re.dquote post)
         /\ ~ Re.contains href_open (link ++ String Re.dquote post)
     end.

(** The lines of [Fixture.emt_datos]. *)
Definition emt_lines : list line :=
  [Plain "<ul>";
   Anchor "<li><a " Fixture.january ">Enero 2023</a></li>";
   Plain ("<li>" ++ Fixture.anchor "/Datos-estaticos/Ayuda.aspx" "Ayuda"
          ++ "</li>");
   Anchor "<li><a " Fixture.march ">Marzo 2022</a></li>";
   Anchor "<li><a " Fixture.june ">Junio 2021</a></li>";
   Anchor "<li><a " Fixture.january ">Enero 2023 (copia)</a></li>";
   Plain "</ul>"].

(** * Properties *)

(** ** Strings *)

Lemma append_assoc (a b c : string) : (a ++ b) ++ c = a ++ (b ++ c).
Proof.
  induction a as [|x a IH]; simpl; [reflexivity | now rewrite IH].
Qed.

Lemma append_empty_r (a : string) : a ++ "" = a.
Proof.
  induction a as [|x a IH]; simpl; [reflexivity | now rewrite IH].
Qed.

Lemma length_append (a b : string) :
  String.length (a ++ b) = (String.length a + String.length b)%nat.
Proof.
  induction a as [|x a IH]; simpl; [reflexivity | now rewrite IH].
Qed.

Lemma substring_all (s : string) : substring 0 (String.length s) s = s.
Proof.
  induction s as [|x s IH]; simpl; [reflexivity | now rewrite IH].
Qed.

Lemma no_newline_append (a b : string) :
  Re.no_newline (a ++ b) = Re.no_newline a && Re.no_newline b.
Proof.
  induction a as [|x a IH]; simpl; [reflexivity|].
  rewrite IH. now rewrite andb_assoc.
Qed.

Lemma literal_append (a b : string) :
  Re.literal (a ++ b) = Re.literal a && Re.literal b.
Proof.
  induction a as [|x a IH]; simpl; [reflexivity|].
  rewrite IH. now rewrite andb_assoc.
Qed.

Lemma contains_cons (p s : string) (c : ascii) :
  Re.contains p s -> Re.contains p (String c s).
Proof.
  intros (a & b & ->). now exists (String c a), b.
Qed.

Lemma substring_prefix (a b : string) :
  substring 0 (String.length a) (a ++ b) = a.
Proof.
  induction a as [|x a IH]; simpl; [now destruct b | now rewrite IH].
Qed.

Lemma substring_suffix (a b : string) :
  substring (String.length a) (String.length b) (a ++ b) = b.
Proof.
  induction a as [|x a IH]; simpl; [apply substring_all | exact IH].
Qed.

Lemma contains_occurs (p s : string) :
  Re.contains p s -> Spec.occurs p s = true.
Proof.
  intros (a & b & ->). induction a as [|c a IH].
  - assert (P : prefix p (p ++ b) = true)
      by (apply prefix_correct, substring_prefix).
    change ("" ++ p ++ b) with (p ++ b).
    remember (p ++ b) as s eqn:E. destruct s; cbn [Spec.occurs];
      rewrite P; reflexivity.
  - change (String c a ++ p ++ b) with (String c (a ++ p ++ b)).
    cbn [Spec.occurs]. rewrite IH. apply orb_true_r.
Qed.

Lemma prefix_append (p s : string) :
  prefix p s = true -> exists b, s = p ++ b.
Proof.
  revert s. induction p as [|c p IH]; intros s H; [now exists s|].
  destruct s as [|d s]; simpl in H; [discriminate|].
  destruct (ascii_dec c d) as [->|]; [|discriminate].
  destruct (IH s H) as [b ->]. now exists b.
Qed.

Lemma occurs_contains (p s : string) :
  Spec.occurs p s = true -> Re.contains p s.
Proof.
  induction s as [|c s IH]; cbn [Spec.occurs]; intros H.
  - destruct (prefix_append _ _ H) as [b E]. now exists "", b.
  - apply orb_prop in H as [H|H].
    + destruct (prefix_append _ _ H) as [b E]. now exists "", b.
    + now apply contains_cons, IH.
Qed.

(** ** The matcher *)

Lemma match_here_star_cons (a : Re.atom) (r : Re.regex) (c : ascii) (s : string) :
  Re.match_here (Re.Star a :: r) (String c s) =
  if Re.atom_match a c then
    match Re.match_here (Re.Star a :: r) s with
    | Some n => Some (S n)
    | None => Re.match_here r (String c s)
    end
  else Re.match_here r (String c s).
Proof. reflexivity. Qed.

Lemma match_here_star_empty (a : Re.atom) (r : Re.regex) :
  Re.match_here (Re.Star a :: r) "" = Re.match_here r "".
Proof. reflexivity. Qed.

(** A literal prefix of a pattern matches that text and nothing else. *)
Lemma match_here_lits (p : string) (r : Re.regex) (s : string) (n : nat) :
  Re.match_here (Re.lits p ++ r)%list s = Some n ->
  exists t m, s = p ++ t /\ Re.match_here r t = Some m
              /\ n = (String.length p + m)%nat.
Proof.
  revert s n. induction p as [|c p IH]; intros s n H; simpl in *.
  - exists s, n. auto.
  - destruct s as [|d s]; [discriminate|].
    destruct (Ascii.eqb c d) eqn:E; [|discriminate].
    apply Ascii.eqb_eq in E. subst d.
    destruct (Re.match_here (Re.lits p ++ r)%list s) as [k|] eqn:K; [|discriminate].
    simpl in H. injection H as <-.
    destruct (IH _ _ K) as (t & m & -> & Hm & ->).
    exists t, m. auto.
Qed.

Lemma match_here_lits_append (p : string) (r : Re.regex) (t : string) :
  Re.match_here (Re.lits p ++ r)%list (p ++ t) =
  option_map (Nat.add (String.length p)) (Re.match_here r t).
Proof.
  induction p as [|c p IH]; simpl.
  - now destruct (Re.match_here r t).
  - rewrite Ascii.eqb_refl, IH. now destruct (Re.match_here r t).
Qed.

(** A closing [.*] takes a whole line. *)
Lemma match_here_dot_star (t : string) :
  Re.no_newline t = true ->
  Re.match_here [Re.Star Re.Dot] t = Some (String.length t).
Proof.
  induction t as [|c t IH]; intros H; [reflexivity|].
  simpl in H. apply andb_prop in H as [Hc Ht].
  rewrite match_here_star_cons. simpl Re.atom_match. rewrite Hc.
  now rewrite (IH Ht).
Qed.

(** What a starred atom leaves to the rest of the pattern. *)
Lemma match_here_star_split (a : Re.atom) (r : Re.regex) (s : string) (n : nat) :
  Re.match_here (Re.Star a :: r) s = Some n ->
  exists pre t m, s = pre ++ t /\ Re.match_here r t = Some m
                  /\ n = (String.length pre + m)%nat.
Proof.
  revert n. induction s as [|c s IH]; intros n H.
  - rewrite match_here_star_empty in H. exists "", "", n. auto.
  - rewrite match_here_star_cons in H.
    destruct (Re.atom_match a c).
    + destruct (Re.match_here (Re.Star a :: r) s) as [k|] eqn:K.
      * injection H as <-.
        destruct (IH _ eq_refl) as (pre & t & m & -> & Hm & ->).
        exists (String c pre), t, m. auto.
      * exists "", (String c s), n. auto.
    + exists "", (String c s), n. auto.
Qed.

(** When [.*] and the rest fail on a line, the rest fails at every
    position of the line. *)
Lemma match_here_star_none (r : Re.regex) (pre t : string) :
  Re.no_newline pre = true ->
  Re.match_here (Re.Star Re.Dot :: r) (pre ++ t) = None ->
  Re.match_here r t = None.
Proof.
  induction pre as [|c pre IH]; intros Hp H.
  - change ("" ++ t) with t in H. destruct t as [|d t].
    + now rewrite match_here_star_empty in H.
    + rewrite match_here_star_cons in H.
      destruct (Re.atom_match Re.Dot d); [|exact H].
      now destruct (Re.match_here (Re.Star Re.Dot :: r) t).
  - change (String c pre ++ t) with (String c (pre ++ t)) in H.
    simpl in Hp. apply andb_prop in Hp as [Hc Hp].
    rewrite match_here_star_cons in H. simpl Re.atom_match in H.
    rewrite Hc in H.
    destruct (Re.match_here (Re.Star Re.Dot :: r) (pre ++ t)) eqn:K;
      [discriminate|].
    now apply IH.
Qed.

Lemma search_empty (r : Re.regex) :
  Re.search r "" =
  match Re.match_here r "" with
  | Some n => Some (0%nat, n)
  | None => None
  end.
Proof. reflexivity. Qed.

Lemma search_cons (r : Re.regex) (c : ascii) (s : string) :
  Re.search r (String c s) =
  match Re.match_here r (String c s) with
  | Some n => Some (0%nat, n)
  | None =>
      match Re.search r s with
      | Some (i, n) => Some (S i, n)
      | None => None
      end
  end.
Proof. reflexivity. Qed.

Lemma search_key_sound (key u : string) (x : nat * nat) :
  Re.search (key_re key) u = Some x -> Re.contains key u.
Proof.
  revert x. induction u as [|c u IH]; intros x H;
    [rewrite search_empty in H | rewrite search_cons in H].
  - destruct (Re.match_here (key_re key) "") as [n|] eqn:M; [|discriminate].
    apply match_here_star_split in M as (pre & t & m & E & M & _).
    apply match_here_lits in M as (t' & _ & -> & _).
    now exists pre, t'.
  - destruct (Re.match_here (key_re key) (String c u)) as [n|] eqn:M.
    + apply match_here_star_split in M as (pre & t & m & E & M & _).
      apply match_here_lits in M as (t' & _ & -> & _).
      now exists pre, t'.
    + destruct (Re.search (key_re key) u) as [[i n]|] eqn:K; [|discriminate].
      apply contains_cons. eapply IH. reflexivity.
Qed.

Lemma match_here_key (key u : string) :
  Re.no_newline u = true -> Re.contains key u ->
  Re.match_here (key_re key) u = Some (String.length u).
Proof.
  intros Hu (a & b & E).
  assert (Ha : Re.no_newline a = true /\ Re.no_newline b = true).
  { subst u. rewrite !no_newline_append in Hu.
    apply andb_prop in Hu as [Ha Hu]. apply andb_prop in Hu as [_ Hb]. auto. }
  destruct Ha as [Ha Hb].
  destruct (Re.match_here (key_re key) u) as [n|] eqn:M.
  - f_equal.
    apply match_here_star_split in M as (pre & t & m & E' & M & ->).
    apply match_here_lits in M as (t' & m' & -> & M & ->).
    assert (Ht : Re.no_newline t' = true).
    { rewrite E' in Hu. rewrite !no_newline_append in Hu.
      apply andb_prop in Hu as [_ Hu]. now apply andb_prop in Hu as [_ Hu]. }
    rewrite (match_here_dot_star _ Ht) in M. injection M as <-.
    rewrite E'. now rewrite !length_append.
  - exfalso. subst u.
    apply (match_here_star_none _ _ _ Ha) in M.
    rewrite match_here_lits_append, (match_here_dot_star _ Hb) in M.
    discriminate.
Qed.

Lemma search_key_complete (key u : string) :
  Re.no_newline u = true -> Re.contains key u ->
  Re.search (key_re key) u = Some (0%nat, String.length u).
Proof.
  intros Hu Hc.
  destruct u; [rewrite search_empty | rewrite search_cons];
    now rewrite (match_here_key _ _ Hu Hc).
Qed.

(** ** Compiling the pattern of [get_url] *)

Lemma literal_char_inv (c : ascii) :
  Re.literal_char c = true ->
  Ascii.eqb c "."%char = false /\ Ascii.eqb c "*"%char = false
  /\ Re.beyond_fragment c = false.
Proof.
  unfold Re.literal_char. intros H. apply negb_true_iff in H.
  apply orb_false_elim in H as [H H3]. apply orb_false_elim in H as [H1 H2].
  auto.
Qed.

Lemma compile_cons (c d : ascii) (p : string) :
  Re.compile (String c (String d p)) =
  if Ascii.eqb c "*"%char then Raise re_error
  else if Re.beyond_fragment c then Raise Unmodelled
  else
    let a := if Ascii.eqb c "."%char then Re.Dot else Re.Chr c in
    if Ascii.eqb d "*"%char
    then r <- Re.compile p ;; Ok (Re.Star a :: r)
    else r <- Re.compile (String d p) ;; Ok (Re.One a :: r).
Proof. reflexivity. Qed.

Lemma compile_literal_then_dot_star (key : string) :
  Re.literal key = true ->
  Re.compile (key ++ ".*") = Ok (Re.lits key ++ [Re.Star Re.Dot])%list.
Proof.
  induction key as [|c key IH]; intros H; [reflexivity|].
  simpl in H. apply andb_prop in H as [Hc Hk].
  destruct (literal_char_inv _ Hc) as (H1 & H2 & H3).
  specialize (IH Hk).
  destruct key as [|d key].
  - change (Re.compile (String c (String "." "*")) =
            Ok [Re.One (Re.Chr c); Re.Star Re.Dot]).
    rewrite compile_cons, H1, H2, H3. reflexivity.
  - change (String c (String d key) ++ ".*")
      with (String c (String d (key ++ ".*"))).
    change (String d key ++ ".*") with (String d (key ++ ".*")) in IH.
    simpl in Hk. apply andb_prop in Hk as [Hd _].
    destruct (literal_char_inv _ Hd) as (_ & Hd2 & _).
    rewrite compile_cons, H1, H2, H3, Hd2. cbv zeta. rewrite IH. reflexivity.
Qed.

Lemma compile_key (key : string) :
  Re.literal key = true ->
  Re.compile (".*" ++ key ++ ".*") = Ok (key_re key).
Proof.
  intros H.
  change (".*" ++ key ++ ".*") with (String "." (String "*" (key ++ ".*"))).
  rewrite compile_cons. change (Ascii.eqb "." "*") with false.
  change (Re.beyond_fragment ".") with false.
  change (Ascii.eqb "." ".") with true. change (Ascii.eqb "*" "*") with true.
  cbv iota zeta. rewrite (compile_literal_then_dot_star _ H). reflexivity.
Qed.

Lemma literal_uint (d : uint) : Re.literal (NilEmpty.string_of_uint d) = true.
Proof.
  induction d; simpl; try rewrite IHd; reflexivity.
Qed.

Lemma literal_str_of_Z (z : Z) : Re.literal (str_of_Z z) = true.
Proof.
  unfold str_of_Z, NilZero.string_of_int, NilZero.string_of_uint.
  destruct (Z.to_int z) as [d|d].
  - destruct d; try reflexivity; apply (literal_uint (_ _)).
  - change (Re.literal (String "-" ?s)) with (Re.literal s).
    destruct d; try reflexivity; apply (literal_uint (_ _)).
Qed.

(** ** [get_url] *)

Lemma format_02_int (z : Z) :
  exists mm, format_02 (AInt z) = Ok mm /\ Re.literal mm = true.
Proof.
  unfold format_02.
  destruct (z <? 0)%Z; [|destruct (Nat.ltb _ 2)]; eexists; split;
    try reflexivity;
    try change (Re.literal (String ?c ?s)) with (Re.literal s);
    apply literal_str_of_Z.
Qed.

Lemma literal_trips_key (y mm : string) :
  Re.literal y = true -> Re.literal mm = true ->
  Re.literal ("trips_" ++ y ++ "_" ++ mm) = true.
Proof.
  intros Hy Hm. rewrite !literal_append, Hy, Hm. reflexivity.
Qed.

(** With a key whose characters stand for themselves, [get_url] is its
    loop over the links. *)
Lemma get_url_literal (self : UrlEMT) (month year : pyarg) (mm : string) :
  format_02 month = Ok mm ->
  Re.literal (str year) = true -> Re.literal mm = true ->
  get_url self month year =
  match first_match (key_re ("trips_" ++ str year ++ "_" ++ mm))
          (_valid_urls self) with
  | Some link => Ok link
  | None => Raise (ValueError (no_link_msg month year))
  end.
Proof.
  intros Hf Hy Hm. unfold get_url, trips_key. rewrite Hf.
  cbn [bind]. rewrite (compile_key _ (literal_trips_key _ _ Hy Hm)).
  reflexivity.
Qed.

Lemma first_match_some (key : string) (urls : list string) (link : string) :
  Forall (fun u => Re.no_newline u = true) urls ->
  first_match (key_re key) urls = Some link ->
  In link urls /\ Re.contains key link.
Proof.
  induction 1 as [|u urls Hu _ IH]; simpl; [discriminate|].
  destruct (Re.search (key_re key) u) as [[i n]|] eqn:S.
  - pose proof (search_key_sound _ _ _ S) as Hc.
    rewrite (search_key_complete _ _ Hu Hc) in S. injection S as <- <-.
    rewrite substring_all. intros [= <-]. auto.
  - intros H. destruct (IH H). auto.
Qed.

Lemma first_match_none (key : string) (urls : list string) :
  Forall (fun u => Re.no_newline u = true) urls ->
  first_match (key_re key) urls = None ->
  forall u, In u urls -> ~ Re.contains key u.
Proof.
  induction 1 as [|u urls Hu _ IH]; simpl; [tauto|].
  destruct (Re.search (key_re key) u) as [[i n]|] eqn:S; [discriminate|].
  intros H v [<-|Hv] Hc.
  - rewrite (search_key_complete _ _ Hu Hc) in S. discriminate.
  - exact (IH H v Hv Hc).
Qed.

Lemma no_link_msg_periodo (month year : pyarg) :
  exists pre, no_link_msg month year = pre ++ periodo.
Proof.
  unfold no_link_msg. eexists. rewrite <- !append_assoc. reflexivity.
Qed.

(** What [get_url] does for any month and year whose key is literal. *)
Lemma get_url_spec (self : UrlEMT) (month year : pyarg) (mm : string) :
  format_02 month = Ok mm ->
  Re.literal (str year) = true -> Re.literal mm = true ->
  Forall (fun u => Re.no_newline u = true) (_valid_urls self) ->
  let key := "trips_" ++ str year ++ "_" ++ mm in
  ((exists u, In u (_valid_urls self) /\ Re.contains key u) ->
   exists u, get_url self month year = Ok u
             /\ In u (_valid_urls self) /\ Re.contains key u)
  /\ (get_url self month year = Raise (ValueError (no_link_msg month year))
      <-> ~ exists u, In u (_valid_urls self) /\ Re.contains key u).
Proof.
  intros Hf Hy Hm Hn key. rewrite (get_url_literal _ _ _ _ Hf Hy Hm).
  fold key.
  destruct (first_match (key_re key) (_valid_urls self)) as [link|] eqn:F.
  - destruct (first_match_some _ _ _ Hn F) as [Hi Hc]. split.
    + intros _. exists link. auto.
    + split; [discriminate|]. intros H. exfalso. apply H. now exists link.
  - pose proof (first_match_none _ _ Hn F) as Hnone. split.
    + intros (u & Hi & Hc). exfalso. exact (Hnone u Hi Hc).
    + split; [|reflexivity]. intros _ (u & Hi & Hc). exact (Hnone u Hi Hc).
Qed.

Lemma str_of_Z_neg (p : positive) :
  str_of_Z (Zneg p) = "-" ++ str_of_Z (Zpos p).
Proof. reflexivity. Qed.

Lemma length_str_of_Z (z : Z) :
  (10 <= z)%Z -> (2 <= String.length (str_of_Z z))%nat.
Proof.
  destruct z as [|p|p]; try lia. intros H.
  unfold str_of_Z. cbn [Z.to_int NilZero.string_of_int].
  pose proof (DecimalPos.Unsigned.of_to p) as E.
  destruct (Pos.to_uint p) as [|d|d|d|d|d|d|d|d|d|d];
    [vm_compute in E; discriminate|..];
    (destruct d;
     [vm_compute in E; first [discriminate | injection E as <-; lia]
     |simpl; lia..]).
Qed.

(** The month as [{month:02}] writes it: a zero before the months from 0
    to 9, nothing before the others. *)
Lemma format_02_padding (z : Z) :
  format_02 (AInt z)
  = Ok (if (0 <=? z)%Z && (z <=? 9)%Z then "0" ++ str_of_Z z
        else str_of_Z z).
Proof.
  unfold format_02. destruct (z <? 0)%Z eqn:Neg.
  - apply Z.ltb_lt in Neg. destruct z as [|p|p]; try lia.
    cbn [Z.abs]. now rewrite str_of_Z_neg.
  - apply Z.ltb_ge in Neg.
    replace (0 <=? z)%Z with true by (symmetry; now apply Z.leb_le).
    rewrite Z.abs_eq by exact Neg. cbn [andb].
    destruct (z <=? 9)%Z eqn:Small.
    + apply Z.leb_le in Small.
      assert (C : (z = 0 \/ z = 1 \/ z = 2 \/ z = 3 \/ z = 4 \/ z = 5
                   \/ z = 6 \/ z = 7 \/ z = 8 \/ z = 9)%Z) by lia.
      repeat destruct C as [->|C]; try subst z; reflexivity.
    + apply Z.leb_gt in Small.
      pose proof (length_str_of_Z z ltac:(lia)) as L.
      replace (Nat.ltb (String.length (str_of_Z z)) 2) with false
        by (symmetry; apply Nat.ltb_ge; exact L).
      reflexivity.
Qed.

(** The link that the loop returns is the first, in the order of the
    list, that contains the key. *)
Lemma first_match_split (key : string) (urls : list string) (link : string) :
  Forall (fun u => Re.no_newline u = true) urls ->
  first_match (key_re key) urls = Some link ->
  exists before after,
    urls = (before ++ link :: after)%list
    /\ Re.contains key link
    /\ forall v, In v before -> ~ Re.contains key v.
Proof.
  induction 1 as [|u urls Hu _ IH]; simpl; [discriminate|].
  destruct (Re.search (key_re key) u) as [[i n]|] eqn:S.
  - pose proof (search_key_sound _ _ _ S) as Hc.
    rewrite (search_key_complete _ _ Hu Hc) in S. injection S as <- <-.
    rewrite substring_all. intros [= <-].
    exists [], urls. split; [reflexivity|]. split; [exact Hc|].
    intros v [].
  - intros F. destruct (IH F) as (before & after & -> & Hc & Hb).
    exists (u :: before), after. split; [reflexivity|].
    split; [exact Hc|]. intros v [<-|Hv] Hv'.
    + rewrite (search_key_complete _ _ Hu Hv') in S. discriminate.
    + exact (Hb v Hv Hv').
Qed.

(** C2. For an integer month and year, and a link set as [get_links]
    builds it (no link holds a newline), the key is [trips_], the year,
    an underscore and the month, a month from 0 to 9 with a zero before
    it.  When some link contains the key, [get_url] returns a link of the
    set that contains it, the first in the order in which the set is
    iterated; it raises the [ValueError] exactly when no link contains
    the key, and the message of that error names the month and the year
    asked for and ends with the sentence naming June 2021 to February
    2023. *)
Theorem get_url_returns_matching_link (self : UrlEMT) (month year : Z) :
  Forall (fun u => Re.no_newline u = true) (_valid_urls self) ->
  let key := "trips_" ++ str_of_Z year ++ "_"
             ++ (if (0 <=? month)%Z && (month <=? 9)%Z
                 then "0" ++ str_of_Z month else str_of_Z month) in
  ((exists u, In u (_valid_urls self) /\ Re.contains key u) ->
   exists u before after,
     get_url self (AInt month) (AInt year) = Ok u
     /\ In u (_valid_urls self) /\ Re.contains key u
     /\ _valid_urls self = (before ++ u :: after)%list
     /\ forall v, In v before -> ~ Re.contains key v)
  /\ (get_url self (AInt month) (AInt year)
        = Raise (ValueError (no_link_msg (AInt month) (AInt year)))
      <-> ~ exists u, In u (_valid_urls self) /\ Re.contains key u)
  /\ no_link_msg (AInt month) (AInt year)
     = " No existe un enlace para el mes " ++ str_of_Z month
       ++ " del año 20" ++ str_of_Z year ++ ". "
       ++ String Re.newline
            "Los datos se encuentran disponibles para el periodo comprendido entre junio de 2021 y febrero de 2023.".
Proof.
  intros Hn key.
  destruct (format_02_int month) as (mm & Hf & Hm).
  pose proof (format_02_padding month) as Hp. rewrite Hf in Hp.
  injection Hp as ->.
  assert (G : get_url self (AInt month) (AInt year)
              = match first_match (key_re key) (_valid_urls self) with
                | Some link => Ok link
                | None =>
                    Raise (ValueError (no_link_msg (AInt month) (AInt year)))
                end)
    by exact (get_url_literal self (AInt month) (AInt year) _ Hf
                (literal_str_of_Z year) Hm).
  rewrite G. clear G.
  split; [|split; [|reflexivity]].
  - intros (u0 & Hi0 & Hc0).
    destruct (first_match (key_re key) (_valid_urls self)) as [link|] eqn:F.
    + destruct (first_match_split _ _ _ Hn F) as (before & after & E & Hc & Hb).
      exists link, before, after. split; [reflexivity|].
      split; [rewrite E; apply in_elt|]. auto.
    + exfalso. exact (first_match_none _ _ Hn F u0 Hi0 Hc0).
  - destruct (first_match (key_re key) (_valid_urls self)) as [link|] eqn:F.
    + destruct (first_match_some _ _ _ Hn F) as [Hi Hc].
      split; [discriminate|]. intros H. exfalso. apply H. now exists link.
    + split; [|reflexivity].
      intros _ (u & Hi & Hc). exact (first_match_none _ _ Hn F u Hi Hc).
Qed.

Lemma get_url_returns_matching_link_witness :
  (exists u before after,
     get_url Fixture.catalogue (AInt 3) (AInt 22) = Ok u
     /\ In u (_valid_urls Fixture.catalogue)
     /\ Re.contains "trips_22_03" u
     /\ _valid_urls Fixture.catalogue = (before ++ u :: after)%list
     /\ forall v, In v before -> ~ Re.contains "trips_22_03" v)
  /\ no_link_msg (AInt 3) (AInt 22)
     = " No existe un enlace para el mes 3 del año 2022. "
       ++ String Re.newline
            "Los datos se encuentran disponibles para el periodo comprendido entre junio de 2021 y febrero de 2023.".
Proof.
  assert (N : Forall (fun u => Re.no_newline u = true)
                (_valid_urls Fixture.catalogue))
    by (repeat constructor).
  destruct (get_url_returns_matching_link Fixture.catalogue 3 22 N)
    as (Found & _ & Msg).
  split; [|exact Msg]. apply Found.
  exists Fixture.march. split; [simpl; tauto|].
  now exists "/getattachment/e1ea5e02-4ba9-471a-bb95-8cb327220b05/",
    "_March-csv.aspx".
Defined.

(** ** The links that [get_links] collects hold no newline *)

Lemma atom_match_no_newline (a : Re.atom) (c : ascii) :
  Re.crosses_newline (Re.One a) = false -> Re.atom_match a c = true ->
  Ascii.eqb c Re.newline = false.
Proof.
  destruct a as [d|]; simpl; intros Hd Hm.
  - apply Ascii.eqb_eq in Hm. now subst d.
  - now apply negb_true_iff in Hm.
Qed.

Lemma match_here_no_newline (r : Re.regex) :
  forallb (fun it => negb (Re.crosses_newline it)) r = true ->
  forall s n, Re.match_here r s = Some n ->
              Re.no_newline (substring 0 n s) = true.
Proof.
  induction r as [|[a|a] r IH]; intros Hr.
  - intros s n [= <-]. now destruct s.
  - simpl in Hr. apply andb_prop in Hr as [Ha Hr]. apply negb_true_iff in Ha.
    intros [|c s] n H; simpl in H; [discriminate|].
    destruct (Re.atom_match a c) eqn:M; [|discriminate].
    destruct (Re.match_here r s) as [k|] eqn:K; [|discriminate].
    injection H as <-. simpl.
    now rewrite (atom_match_no_newline _ _ Ha M), (IH Hr _ _ K).
  - simpl in Hr. apply andb_prop in Hr as [Ha Hr]. apply negb_true_iff in Ha.
    induction s as [|c s IHs]; intros n H.
    + rewrite match_here_star_empty in H. exact (IH Hr _ _ H).
    + rewrite match_here_star_cons in H.
      destruct (Re.atom_match a c) eqn:M; [|exact (IH Hr _ _ H)].
      destruct (Re.match_here (Re.Star a :: r) s) as [k|] eqn:K;
        [|exact (IH Hr _ _ H)].
      injection H as <-. simpl.
      now rewrite (atom_match_no_newline a c Ha M), (IHs _ eq_refl).
Qed.

Lemma no_newline_substring (s : string) (i n : nat) :
  Re.no_newline s = true -> Re.no_newline (substring i n s) = true.
Proof.
  revert i n. induction s as [|c s IH]; intros i n H.
  - now destruct i, n.
  - simpl in H. apply andb_prop in H as [Hc Hs].
    destruct i, n; simpl; try reflexivity; try now apply IH.
    now rewrite Hc, IH.
Qed.

Lemma finditer_from_no_newline (r : Re.regex) :
  forallb (fun it => negb (Re.crosses_newline it)) r = true ->
  forall s skip,
    Forall (fun m => Re.no_newline m = true) (Re.finditer_from r skip s).
Proof.
  intros Hr. induction s as [|c s IH]; intros [|k]; simpl; auto.
  - destruct (Re.match_here r "") as [n|] eqn:M; auto.
    constructor; auto. exact (match_here_no_newline r Hr _ _ M).
  - destruct (Re.match_here r (String c s)) as [n|] eqn:M; auto.
    constructor; auto. exact (match_here_no_newline r Hr _ _ M).
Qed.

Lemma set_add_Forall (P : string -> Prop) (x : string) (s : list string) :
  P x -> Forall P s -> Forall P (set_add x s).
Proof.
  intros Hx Hs. unfold set_add. destruct (mem x s); [exact Hs|].
  apply Forall_app. auto.
Qed.

Lemma get_links_no_newline (html_txt : string) :
  Forall (fun u => Re.no_newline u = true) (get_links html_txt).
Proof.
  unfold get_links, Re.finditer.
  pose proof (finditer_from_no_newline urls_re eq_refl html_txt 0) as H.
  revert H. generalize (Re.finditer_from urls_re 0 html_txt).
  assert (G : Forall (fun u => Re.no_newline u = true) []) by constructor.
  revert G. generalize (@nil string).
  intros acc Hacc l. revert acc Hacc.
  induction l as [|m l IH]; intros acc Hacc Hl; simpl; [exact Hacc|].
  inversion Hl; subst. apply IH; [|assumption].
  apply set_add_Forall; [|exact Hacc].
  now apply no_newline_substring.
Qed.

(** No link of a catalogue that the constructor builds holds a newline. *)
Lemma UrlEMT_init_no_newline (w : World) (self : UrlEMT) :
  UrlEMT_init w = Ok self ->
  Forall (fun u => Re.no_newline u = true) (_valid_urls self).
Proof.
  unfold UrlEMT_init, select_valid_urls.
  destruct (negb _); [discriminate|].
  intros [= <-]. cbn [_valid_urls].
  apply (Permutation_Forall (set_iter_members w _)).
  apply get_links_no_newline.
Qed.

(** ** [clean] *)

Lemma to_id_idempotent (x v : value) : to_id x = Ok v -> to_id v = Ok v.
Proof.
  destruct x as [|z|f|s]; simpl; try (intros [= <-]; reflexivity).
  destruct (is_nan f) eqn:N; simpl.
  - intros [= <-]. simpl. now rewrite N.
  - destruct (int_of_float f); simpl; [|discriminate].
    intros [= <-]. reflexivity.
Qed.

Lemma to_id_isna (x v : value) : to_id x = Ok v -> isna v = isna x.
Proof.
  destruct x as [|z|f|s]; simpl; try (intros [= <-]; reflexivity).
  destruct (is_nan f) eqn:N; simpl.
  - intros [= <-]. simpl. now rewrite N.
  - destruct (int_of_float f); simpl; [|discriminate].
    intros [= <-]. reflexivity.
Qed.

Lemma to_id_NaN : to_id NaN = Ok NaN.
Proof. reflexivity. Qed.

Lemma set_nth_same (p : nat) (cells : list value) :
  set_nth p (nth p cells NaN) cells = cells.
Proof.
  revert p. induction cells as [|x cells IH]; intros [|p]; simpl; auto.
  now rewrite IH.
Qed.

Lemma nth_set_nth_other (p p' : nat) (v : value) (cells : list value) :
  p' <> p -> nth p' (set_nth p v cells) NaN = nth p' cells NaN.
Proof.
  revert p p'. induction cells as [|x cells IH]; intros [|p] [|p'] H; simpl;
    auto; try congruence.
Qed.

Lemma nth_set_nth_same (p : nat) (v : value) (cells : list value) :
  nth p (set_nth p v cells) NaN = v \/
  (set_nth p v cells = cells /\ nth p cells NaN = NaN).
Proof.
  revert p. induction cells as [|x cells IH]; intros [|p]; simpl; auto.
  destruct (IH p) as [H|[H1 H2]]; [now left|right].
  now rewrite H1.
Qed.

Lemma forallb_isna_set_nth (p : nat) (v : value) (cells : list value) :
  isna v = isna (nth p cells NaN) ->
  forallb isna (set_nth p v cells) = forallb isna cells.
Proof.
  revert p. induction cells as [|x cells IH]; intros [|p] H; simpl in *; auto.
  - now rewrite H.
  - now rewrite IH.
Qed.

(** What one turn of the loop does to a row. *)
Lemma to_id_row (p : nat) (cells : list value) (v : value) :
  to_id (nth p cells NaN) = Ok v ->
  let cells' := set_nth p v cells in
  forallb isna cells' = forallb isna cells
  /\ to_id (nth p cells' NaN) = Ok (nth p cells' NaN)
  /\ forall p', to_id (nth p' cells NaN) = Ok (nth p' cells NaN) ->
                to_id (nth p' cells' NaN) = Ok (nth p' cells' NaN).
Proof.
  intros H. cbv zeta. split; [|split].
  - apply forallb_isna_set_nth. exact (to_id_isna _ _ H).
  - destruct (nth_set_nth_same p v cells) as [E|[E1 E2]].
    + rewrite E. exact (to_id_idempotent _ _ H).
    + rewrite E1, E2. reflexivity.
  - intros p' Hp'. destruct (Nat.eq_dec p' p) as [->|Hne].
    + destruct (nth_set_nth_same p v cells) as [E|[E1 E2]].
      * rewrite E. exact (to_id_idempotent _ _ H).
      * rewrite E1, E2. reflexivity.
    + now rewrite (nth_set_nth_other _ _ _ _ Hne).
Qed.

Lemma set_column_settled (p : nat) (rs : list (index_value * list value))
    (vals : list value) :
  series_map to_id (map (fun r => nth p (snd r) NaN) rs) = Ok vals ->
  let rs' := set_column p rs vals in
  Forall (fun r => to_id (nth p (snd r) NaN) = Ok (nth p (snd r) NaN)) rs'
  /\ (forall p',
        Forall (fun r => to_id (nth p' (snd r) NaN) = Ok (nth p' (snd r) NaN)) rs ->
        Forall (fun r => to_id (nth p' (snd r) NaN) = Ok (nth p' (snd r) NaN)) rs')
  /\ (Forall (fun r => forallb isna (snd r) = false) rs ->
      Forall (fun r => forallb isna (snd r) = false) rs').
Proof.
  revert vals. induction rs as [|r rs IH]; intros vals H; simpl in H.
  - injection H as <-. simpl. auto.
  - destruct (to_id (nth p (snd r) NaN)) as [v|] eqn:V; [|discriminate].
    cbn [bind] in H.
    destruct (series_map to_id (map (fun r => nth p (snd r) NaN) rs))
      as [vs|] eqn:VS; [|discriminate].
    cbn [bind] in H. injection H as <-.
    destruct (IH vs eq_refl) as (I1 & I2 & I3).
    destruct (to_id_row p (snd r) v V) as (R1 & R2 & R3).
    cbn [set_column]. split; [|split].
    + constructor; [exact R2 | exact I1].
    + intros p' Hp'. inversion Hp'; subst.
      constructor; [now apply R3 | now apply I2].
    + intros Hn. inversion Hn; subst.
      constructor; [cbn [snd]; now rewrite R1 | now apply I3].
Qed.

Lemma set_column_settled_same (p : nat) (rs : list (index_value * list value)) :
  Forall (fun r => to_id (nth p (snd r) NaN) = Ok (nth p (snd r) NaN)) rs ->
  series_map to_id (map (fun r => nth p (snd r) NaN) rs)
    = Ok (map (fun r => nth p (snd r) NaN) rs)
  /\ set_column p rs (map (fun r => nth p (snd r) NaN) rs) = rs.
Proof.
  induction 1 as [|r rs Hr _ [IH1 IH2]]; simpl; [auto|].
  rewrite Hr. cbn [bind]. rewrite IH1. cbn [bind]. split; [reflexivity|].
  rewrite set_nth_same, IH2. now destruct r.
Qed.

Lemma clean_column_ok (c : string) (df df' : DataFrame) :
  clean_column c df = Ok df' ->
  columns df' = columns df
  /\ (exists p, position c (columns df) = Some p /\ settled p df')
  /\ (forall p, settled p df -> settled p df')
  /\ (no_null_row df -> no_null_row df').
Proof.
  unfold clean_column, getitem, setitem.
  destruct (position c (columns df)) as [p|] eqn:P; [|discriminate].
  cbn [bind].
  destruct (series_map to_id (map (fun r => nth p (snd r) NaN) (rows df)))
    as [vals|] eqn:V; [|discriminate].
  cbn [bind]. intros [= <-].
  destruct (set_column_settled p (rows df) vals V) as (S1 & S2 & S3).
  split; [reflexivity|]. split; [exists p; split; [reflexivity | exact S1]|].
  split; [exact S2 | exact S3].
Qed.

Lemma clean_column_settled (c : string) (df : DataFrame) (p : nat) :
  position c (columns df) = Some p -> settled p df ->
  clean_column c df = Ok df.
Proof.
  intros P S. unfold clean_column, getitem, setitem. rewrite P. cbn [bind].
  destruct (set_column_settled_same p (rows df) S) as [E1 E2].
  rewrite E1. cbn [bind]. rewrite E2. now destruct df.
Qed.

Lemma clean_columns_keeps (names : list string) (df df1 : DataFrame)
    (r : result unit) :
  clean_columns names df = (r, df1) ->
  columns df1 = columns df
  /\ (forall p, settled p df -> settled p df1)
  /\ (no_null_row df -> no_null_row df1).
Proof.
  revert df. induction names as [|c names IH]; intros df H; simpl in H.
  - injection H as <- <-. auto.
  - destruct (clean_column c df) as [df'|e] eqn:C.
    + destruct (clean_column_ok _ _ _ C) as (K1 & _ & K3 & K4).
      destruct (IH _ H) as (J1 & J2 & J3).
      split; [congruence|]. split; auto.
    + injection H as <- <-. auto.
Qed.

(** Running the loop again on the table it left gives the same outcome
    and the same table. *)
Lemma clean_columns_again (names : list string) (df df1 : DataFrame)
    (r : result unit) :
  clean_columns names df = (r, df1) -> clean_columns names df1 = (r, df1).
Proof.
  revert df. induction names as [|c names IH]; intros df H; simpl in H.
  - injection H as <- <-. reflexivity.
  - destruct (clean_column c df) as [df'|e] eqn:C.
    + destruct (clean_column_ok _ _ _ C) as (K1 & (p & P & S) & _).
      destruct (clean_columns_keeps _ _ _ _ H) as (J1 & J2 & _).
      simpl. rewrite (clean_column_settled c df1 p); [exact (IH _ H)| |auto].
      now rewrite J1, K1.
    + injection H as <- <-. simpl. now rewrite C.
Qed.

Lemma dropna_all_no_null_row (df : DataFrame) : no_null_row (dropna_all df).
Proof.
  unfold no_null_row, dropna_all. simpl. apply Forall_forall.
  intros r Hr. apply filter_In in Hr as [_ Hr]. now apply negb_true_iff in Hr.
Qed.

Lemma dropna_all_same (df : DataFrame) : no_null_row df -> dropna_all df = df.
Proof.
  unfold no_null_row, dropna_all. destruct df as [cols rs]. simpl.
  intros H. f_equal. induction H as [|r rs Hr _ IH]; simpl; [reflexivity|].
  now rewrite Hr, IH.
Qed.

Lemma clean_again (self : BiciMad) : clean (snd (clean self)) = clean self.
Proof.
  unfold clean.
  destruct (clean_columns id_columns (dropna_all (_data self)))
    as [r df1] eqn:C.
  cbn [snd _data _month _year].
  destruct (clean_columns_keeps _ _ _ _ C) as (_ & _ & N).
  rewrite (dropna_all_same df1 (N (dropna_all_no_null_row _))).
  now rewrite (clean_columns_again _ _ _ _ C).
Qed.

(** C4. [clean] is idempotent: on the object that one call leaves, a second
    call has the same outcome and leaves the table as it is. *)
Theorem clean_idempotent (self : BiciMad) :
  snd (clean (snd (clean self))) = snd (clean self)
  /\ fst (clean (snd (clean self))) = fst (clean self).
Proof.
  unfold clean.
  destruct (clean_columns id_columns (dropna_all (_data self)))
    as [r df1] eqn:First.
  cbn [snd fst _data _month _year].
  destruct (clean_columns_keeps _ _ _ _ First) as (_ & _ & Kept).
  pose proof (Kept (dropna_all_no_null_row (_data self))) as NoNull.
  rewrite (dropna_all_same df1 NoNull).
  rewrite (clean_columns_again _ _ _ _ First).
  split; reflexivity.
Qed.

(** ** The property [data] *)

(** C9. Every access of [data] applies [clean] to the held table and
    returns the table the object then holds; this happens on each access,
    and a second access returns the same table and leaves the object as the
    first left it. *)
Theorem data_cleans_on_every_access (self : BiciMad) :
  snd (data self) = snd (clean self)
  /\ fst (data self) =
     match fst (clean self) with
     | Ok _ => Ok (_data (snd (clean self)))
     | Raise e => Raise e
     end
  /\ data (snd (data self)) = data self.
Proof.
  assert (E : forall s, data s =
            (match fst (clean s) with
             | Ok _ => Ok (_data (snd (clean s)))
             | Raise e => Raise e
             end, snd (clean s))).
  { intros s. unfold data. destruct (clean s) as [[u|e] s']; reflexivity. }
  split; [|split].
  - now rewrite E.
  - now rewrite E.
  - rewrite (E (snd (data self))), (E self). cbn [snd].
    now rewrite clean_again.
Qed.

(** ** The identifier columns that [clean] needs *)

Lemma position_none (c : string) (cols : list string) :
  position c cols = None <-> ~ In c cols.
Proof.
  induction cols as [|c' cols IH]; simpl; [tauto|].
  destruct (String.eqb c c') eqn:E.
  - apply String.eqb_eq in E. subst. split; [discriminate|].
    intros H. exfalso. apply H. now left.
  - apply String.eqb_neq in E.
    destruct (position c cols) as [n|]; simpl.
    + split; [discriminate|]. intros H. exfalso. apply H. right.
      destruct (in_dec string_dec c cols) as [i|ni]; [exact i|].
      apply IH in ni. discriminate.
    + split; [|reflexivity]. intros _ [->|Hin]; [congruence|].
      exact (proj1 IH eq_refl Hin).
Qed.

Lemma clean_column_missing (c : string) (df : DataFrame) :
  ~ In c (columns df) -> clean_column c df = Raise (KeyError c).
Proof.
  intros H. apply position_none in H. unfold clean_column, getitem.
  now rewrite H.
Qed.

(** With a column missing the loop does not come to its end. *)
Lemma clean_columns_missing (names : list string) (c : string) (df : DataFrame) :
  In c names -> ~ In c (columns df) ->
  exists e, fst (clean_columns names df) = Raise e.
Proof.
  revert df. induction names as [|h names IH]; intros df Hc Hm; [easy|].
  simpl. destruct (clean_column h df) as [df'|e] eqn:C.
  - destruct Hc as [->|Hc].
    + rewrite (clean_column_missing _ _ Hm) in C. discriminate.
    + apply IH; [exact Hc|].
      destruct (clean_column_ok _ _ _ C) as (K & _). now rewrite K.
  - now exists e.
Qed.

Lemma to_id_raises (x : value) (e : exn) :
  to_id x = Raise e -> infinite x = true.
Proof.
  destruct x as [|z|f|s]; simpl; try discriminate.
  destruct f; simpl; try discriminate. reflexivity.
Qed.

Lemma to_id_finite (x v : value) : to_id x = Ok v -> infinite v = false.
Proof.
  destruct x as [|z|f|s]; simpl; try (intros [= <-]; reflexivity).
  destruct f; simpl; intros [= <-]; reflexivity.
Qed.

Lemma series_map_finite (p : nat) (rs : list (index_value * list value)) :
  Forall (fun r => infinite (nth p (snd r) NaN) = false) rs ->
  exists vals,
    series_map to_id (map (fun r => nth p (snd r) NaN) rs) = Ok vals.
Proof.
  induction 1 as [|r rs Hr _ [vals IH]]; simpl; [now exists []|].
  destruct (to_id (nth p (snd r) NaN)) as [v|e] eqn:V.
  - cbn [bind]. rewrite IH. cbn [bind]. now eexists.
  - apply to_id_raises in V. congruence.
Qed.

Lemma set_column_finite (p p' : nat) (rs : list (index_value * list value))
    (vals : list value) :
  series_map to_id (map (fun r => nth p (snd r) NaN) rs) = Ok vals ->
  Forall (fun r => infinite (nth p' (snd r) NaN) = false) rs ->
  Forall (fun r => infinite (nth p' (snd r) NaN) = false)
    (set_column p rs vals).
Proof.
  revert vals. induction rs as [|r rs IH]; intros vals H F; simpl in H.
  - injection H as <-. constructor.
  - destruct (to_id (nth p (snd r) NaN)) as [v|] eqn:V; [|discriminate].
    cbn [bind] in H.
    destruct (series_map to_id (map (fun r => nth p (snd r) NaN) rs))
      as [vs|] eqn:VS; [|discriminate].
    cbn [bind] in H. injection H as <-. inversion F; subst.
    cbn [set_column]. constructor; [|now apply IH]. cbn [snd].
    destruct (Nat.eq_dec p' p) as [->|Hne].
    + destruct (nth_set_nth_same p v (snd r)) as [E|[E1 E2]].
      * rewrite E. exact (to_id_finite _ _ V).
      * now rewrite E1.
    + now rewrite (nth_set_nth_other _ _ _ _ Hne).
Qed.

Lemma clean_column_finite (c : string) (df df' : DataFrame) :
  clean_column c df = Ok df' -> finite_ids df -> finite_ids df'.
Proof.
  intros C F. pose proof C as C'. revert C'.
  unfold clean_column, getitem, setitem.
  destruct (position c (columns df)) as [p|] eqn:P; [|discriminate].
  cbn [bind].
  destruct (series_map to_id (map (fun r => nth p (snd r) NaN) (rows df)))
    as [vals|] eqn:V; [|discriminate].
  cbn [bind]. intros [= <-]. intros k p' Hk Hp'. cbn [columns rows] in *.
  apply (set_column_finite _ _ _ _ V). exact (F k p' Hk Hp').
Qed.

Lemma dropna_all_finite (df : DataFrame) :
  finite_ids df -> finite_ids (dropna_all df).
Proof.
  intros F k p Hk Hp. cbn [dropna_all columns rows] in *.
  specialize (F k p Hk Hp). rewrite Forall_forall in *.
  intros r Hr. apply filter_In in Hr as [Hr _]. auto.
Qed.

Lemma clean_raises_all (w : World) (self : BiciMad) (e : exn) :
  fst (clean self) = Raise e ->
  fst (data self) = Raise e /\ fst (__str__ w self) = Raise e
  /\ fst (resume w self) = Raise e.
Proof.
  intros H. unfold resume, __str__, data.
  destruct (clean self) as [r s]. simpl in H. subst r. auto.
Qed.

Lemma isna_not_infinite (v : value) : isna v = true -> infinite v = false.
Proof.
  destruct v as [|z|f|s]; simpl; try reflexivity. now destruct f.
Qed.

Lemma null_row_finite (p : nat) (cells : list value) :
  forallb isna cells = true -> infinite (nth p cells NaN) = false.
Proof.
  revert p. induction cells as [|x cells IH]; intros [|p]; simpl;
    try reflexivity; intros H; apply andb_prop in H as [Hx Hc].
  - now apply isna_not_infinite.
  - now apply IH.
Qed.

(** The rows that [dropna] removes hold no infinite float. *)
Lemma finite_ids_dropna_all (df : DataFrame) :
  finite_ids (dropna_all df) -> finite_ids df.
Proof.
  intros F k p Hk Hp. specialize (F k p Hk Hp).
  cbn [dropna_all columns rows] in F. rewrite Forall_forall in *.
  intros r Hr. destruct (forallb isna (snd r)) eqn:N.
  - now apply null_row_finite.
  - apply F, filter_In. split; [exact Hr | now rewrite N].
Qed.

Lemma to_id_raises_OverflowError (x : value) (e : exn) :
  to_id x = Raise e -> e = OverflowError.
Proof.
  destruct x as [|z|f|s]; simpl; try discriminate.
  destruct f; simpl; try discriminate. now intros [= <-].
Qed.

Lemma series_map_raises (col : list value) (e : exn) :
  series_map to_id col = Raise e -> e = OverflowError.
Proof.
  induction col as [|v col IH]; simpl; [discriminate|].
  destruct (to_id v) as [w|e'] eqn:V; cbn [bind].
  - destruct (series_map to_id col) as [ws|e'']; cbn [bind];
      [discriminate|]. intros [= <-]. now apply IH.
  - intros [= <-]. exact (to_id_raises_OverflowError _ _ V).
Qed.

Lemma series_map_Ok_finite (p : nat) (rs : list (index_value * list value))
    (vals : list value) :
  series_map to_id (map (fun r => nth p (snd r) NaN) rs) = Ok vals ->
  Forall (fun r => infinite (nth p (snd r) NaN) = false) rs.
Proof.
  revert vals. induction rs as [|r rs IH]; intros vals H; [constructor|].
  simpl in H.
  destruct (to_id (nth p (snd r) NaN)) as [v|] eqn:V; [|discriminate].
  cbn [bind] in H.
  destruct (series_map to_id (map (fun r => nth p (snd r) NaN) rs))
    as [vs|] eqn:VS; [|discriminate].
  constructor; [|exact (IH vs eq_refl)].
  destruct (infinite (nth p (snd r) NaN)) eqn:I; [|reflexivity].
  destruct (nth p (snd r) NaN) as [|z|f|s]; try discriminate.
  destruct f; discriminate.
Qed.

(** A turn of the loop does not remove an infinite float from another
    column. *)
Lemma set_column_finite_before (p p' : nat)
    (rs : list (index_value * list value)) (vals : list value) :
  p' <> p ->
  Forall (fun r => infinite (nth p' (snd r) NaN) = false)
    (set_column p rs vals) ->
  Forall (fun r => infinite (nth p' (snd r) NaN) = false) rs.
Proof.
  intros Hne. revert vals.
  induction rs as [|r rs IH]; intros [|v vals] F; auto.
  cbn [set_column] in F. inversion F as [|r' rs' Hr Hrs]; subst.
  cbn [snd] in Hr. rewrite (nth_set_nth_other _ _ _ _ Hne) in Hr.
  constructor; [exact Hr | exact (IH vals Hrs)].
Qed.

Lemma clean_column_finite_before (c : string) (df df' : DataFrame) (p' : nat) :
  clean_column c df = Ok df' ->
  Forall (fun r => infinite (nth p' (snd r) NaN) = false) (rows df') ->
  Forall (fun r => infinite (nth p' (snd r) NaN) = false) (rows df).
Proof.
  unfold clean_column, getitem, setitem.
  destruct (position c (columns df)) as [p|] eqn:P; [|discriminate].
  cbn [bind].
  destruct (series_map to_id (map (fun r => nth p (snd r) NaN) (rows df)))
    as [vals|] eqn:V; [|discriminate].
  cbn [bind]. intros [= <-]. cbn [rows]. intros F.
  destruct (Nat.eq_dec p' p) as [->|Hne].
  - exact (series_map_Ok_finite p (rows df) vals V).
  - exact (set_column_finite_before p p' (rows df) vals Hne F).
Qed.

(** The loop comes to its end only on a table that has the columns and
    holds no infinite float in them. *)
Lemma clean_columns_Ok (names : list string) (df df1 : DataFrame) :
  clean_columns names df = (Ok tt, df1) ->
  forall k, In k names ->
    exists p, position k (columns df) = Some p
              /\ Forall (fun r => infinite (nth p (snd r) NaN) = false)
                   (rows df).
Proof.
  revert df. induction names as [|h names IH]; intros df H k Hk;
    [destruct Hk|].
  simpl in H. destruct (clean_column h df) as [df'|e] eqn:C;
    [|discriminate].
  destruct (clean_column_ok _ _ _ C) as (K & _).
  destruct Hk as [->|Hk].
  - revert C. unfold clean_column, getitem.
    destruct (position k (columns df)) as [p|] eqn:P; [|discriminate].
    cbn [bind].
    destruct (series_map to_id (map (fun r => nth p (snd r) NaN) (rows df)))
      as [vals|] eqn:V; [|discriminate].
    intros _. exists p. split; [reflexivity|].
    exact (series_map_Ok_finite p (rows df) vals V).
  - destruct (IH df' H k Hk) as (p & P & F). rewrite K in P.
    exists p. split; [exact P|].
    exact (clean_column_finite_before h df df' p C F).
Qed.

(** On such a table the loop comes to its end. *)
Lemma clean_columns_total (names : list string) (df : DataFrame) :
  incl names id_columns -> finite_ids df ->
  (forall c, In c names -> In c (columns df)) ->
  fst (clean_columns names df) = Ok tt.
Proof.
  revert df. induction names as [|h names IH]; intros df Hi F Hc;
    [reflexivity|].
  simpl. destruct (position h (columns df)) as [p|] eqn:P.
  - destruct (series_map_finite p (rows df)
                (F h p (Hi h (or_introl eq_refl)) P)) as [vals V].
    assert (C : clean_column h df = Ok (setitem df h vals)).
    { unfold clean_column, getitem. rewrite P. cbn [bind]. now rewrite V. }
    rewrite C. destruct (clean_column_ok _ _ _ C) as (K & _).
    apply IH.
    + intros x Hx. apply Hi. now right.
    + exact (clean_column_finite _ _ _ C F).
    + intros c Hin. rewrite K. apply Hc. now right.
  - apply position_none in P. destruct P. apply Hc. now left.
Qed.

(** What the loop can raise. *)
Lemma clean_columns_Raise (names : list string) (df df1 : DataFrame)
    (e : exn) :
  clean_columns names df = (Raise e, df1) ->
  e = OverflowError
  \/ exists k, In k names /\ ~ In k (columns df) /\ e = KeyError k.
Proof.
  revert df. induction names as [|h names IH]; intros df H; simpl in H;
    [discriminate|].
  destruct (clean_column h df) as [df'|e'] eqn:C.
  - destruct (clean_column_ok _ _ _ C) as (K & _).
    destruct (IH df' H) as [->|(k & Hk & Hm & ->)]; [now left|right].
    exists k. rewrite K in Hm. split; [now right | now split].
  - injection H as <- <-. revert C. unfold clean_column, getitem.
    destruct (position h (columns df)) as [p|] eqn:P; cbn [bind].
    + destruct (series_map to_id
                  (map (fun r => nth p (snd r) NaN) (rows df)))
        as [vals|e''] eqn:V; cbn [bind]; [discriminate|].
      intros [= <-]. left. exact (series_map_raises _ _ V).
    + intros [= <-]. right. exists h. apply position_none in P.
      split; [now left | now split].
Qed.

(** The first of the names that the table lacks. *)
Lemma first_absent (names cols : list string) (c : string) :
  In c names -> ~ In c cols ->
  exists first before after,
    names = (before ++ first :: after)%list
    /\ (forall k, In k before -> In k cols) /\ ~ In first cols.
Proof.
  induction names as [|h names IH]; intros Hc Hm; [destruct Hc|].
  destruct (in_dec string_dec h cols) as [Hh|Hh].
  - destruct Hc as [->|Hc]; [contradiction|].
    destruct (IH Hc Hm) as (first & before & after & -> & Hb & Hf).
    exists first, (h :: before), after. split; [reflexivity|].
    split; [|exact Hf]. intros k [<-|Hk]; auto.
  - exists h, [], names. split; [reflexivity|]. split; [|exact Hh].
    intros k [].
Qed.

Lemma clean_column_finite_at (c : string) (df df' : DataFrame) (p' : nat) :
  clean_column c df = Ok df' ->
  Forall (fun r => infinite (nth p' (snd r) NaN) = false) (rows df) ->
  Forall (fun r => infinite (nth p' (snd r) NaN) = false) (rows df').
Proof.
  unfold clean_column, getitem, setitem.
  destruct (position c (columns df)) as [p|] eqn:P; [|discriminate].
  cbn [bind].
  destruct (series_map to_id (map (fun r => nth p (snd r) NaN) (rows df)))
    as [vals|] eqn:V; [|discriminate].
  cbn [bind]. intros [= <-]. cbn [rows].
  exact (set_column_finite p p' (rows df) vals V).
Qed.

(** The rows that [dropna] removes decide nothing about the infinite
    floats of a column. *)
Lemma dropna_all_finite_at (p : nat) (df : DataFrame) :
  Forall (fun r => infinite (nth p (snd r) NaN) = false) (rows (dropna_all df))
  <-> Forall (fun r => infinite (nth p (snd r) NaN) = false) (rows df).
Proof.
  cbn [dropna_all rows]. rewrite !Forall_forall. split; intros F r Hr.
  - destruct (forallb isna (snd r)) eqn:N.
    + now apply null_row_finite.
    + apply F, filter_In. split; [exact Hr | now rewrite N].
  - apply filter_In in Hr as [Hr _]. auto.
Qed.

(** A column holds no infinite float, said of the cells that [df[c]]
    gives. *)
Lemma getitem_finite (df : DataFrame) (c : string) (p : nat) :
  position c (columns df) = Some p ->
  exists col,
    getitem df c = Ok col
    /\ (existsb infinite col = false
        <-> Forall (fun r => infinite (nth p (snd r) NaN) = false) (rows df)).
Proof.
  intros P. unfold getitem. rewrite P. eexists. split; [reflexivity|].
  induction (rows df) as [|r rs IH]; simpl.
  - split; [constructor | reflexivity].
  - rewrite orb_false_iff, IH. split.
    + intros [H1 H2]. now constructor.
    + intros H. inversion H; subst. auto.
Qed.

(** When the columns before the first absent one hold no infinite float,
    the loop reaches the absent column and stops on its [KeyError]. *)
Lemma clean_columns_first_absent (before after : list string) (c : string)
    (df : DataFrame) :
  (forall k, In k before ->
     exists p, position k (columns df) = Some p
               /\ Forall (fun r => infinite (nth p (snd r) NaN) = false)
                    (rows df)) ->
  ~ In c (columns df) ->
  fst (clean_columns (before ++ c :: after) df) = Raise (KeyError c).
Proof.
  revert df. induction before as [|h before IH]; intros df Hb Hc.
  - simpl. now rewrite (clean_column_missing _ _ Hc).
  - destruct (Hb h (or_introl eq_refl)) as (p & P & F).
    destruct (series_map_finite p (rows df) F) as [vals V].
    assert (C : clean_column h df = Ok (setitem df h vals)).
    { unfold clean_column, getitem. rewrite P. cbn [bind]. now rewrite V. }
    rewrite <- app_comm_cons. simpl. rewrite C.
    destruct (clean_column_ok _ _ _ C) as (K & _).
    apply IH; [|now rewrite K].
    intros k Hk. destruct (Hb k (or_intror Hk)) as (q & Q & Fq).
    exists q. split; [now rewrite K|].
    exact (clean_column_finite_at _ _ _ q C Fq).
Qed.

(** When one of them holds an infinite float, the loop stops before, on
    [OverflowError]. *)
Lemma clean_columns_infinite_before (before after : list string) (c : string)
    (df : DataFrame) :
  (forall k, In k before -> In k (columns df)) ->
  (exists k p, In k before /\ position k (columns df) = Some p
               /\ ~ Forall (fun r => infinite (nth p (snd r) NaN) = false)
                      (rows df)) ->
  fst (clean_columns (before ++ c :: after) df) = Raise OverflowError.
Proof.
  revert df. induction before as [|h before IH]; intros df Hb (k & q & Hk & Q & I);
    [destruct Hk|].
  rewrite <- app_comm_cons. simpl.
  destruct (clean_column h df) as [df'|e] eqn:C.
  - destruct (clean_column_ok _ _ _ C) as (K & _).
    apply IH.
    + intros j Hj. rewrite K. apply Hb. now right.
    + destruct Hk as [<-|Hk].
      * exfalso. apply I. revert C. unfold clean_column, getitem.
        rewrite Q. cbn [bind].
        destruct (series_map to_id
                    (map (fun r => nth q (snd r) NaN) (rows df)))
          as [vals|] eqn:V; [|discriminate].
        intros _. exact (series_map_Ok_finite q (rows df) vals V).
      * exists k, q. split; [exact Hk|]. split; [now rewrite K|].
        intros F. apply I.
        exact (clean_column_finite_before h df df' q C F).
  - cbn [fst]. f_equal. revert C. unfold clean_column, getitem.
    destruct (position h (columns df)) as [p|] eqn:P; cbn [bind].
    + destruct (series_map to_id
                  (map (fun r => nth p (snd r) NaN) (rows df)))
        as [vals|e'] eqn:V; cbn [bind]; [discriminate|].
      intros [= <-]. exact (series_map_raises _ _ V).
    + apply position_none in P. destruct P. apply Hb. now left.
Qed.

(** C10, as amended. When one of the four identifier columns is absent
    from the held table, [clean] raises, and so do [data], [__str__] and
    [resume]: the column is never skipped and the call never returns.
    The loop takes the columns in the order [fleet], [idBike],
    [station_lock], [station_unlock]; with [first] the first of them that
    the table lacks, the exception is the [KeyError] of [first] when no
    column before it in that order holds an infinite float, and
    [OverflowError] when one does. *)
Theorem clean_needs_id_columns (w : World) (self : BiciMad) (c : string) :
  In c ["fleet"; "idBike"; "station_lock"; "station_unlock"] ->
  ~ In c (columns (_data self)) ->
  exists e first before after,
    ["fleet"; "idBike"; "station_lock"; "station_unlock"]
    = (before ++ first :: after)%list
    /\ (forall k, In k before -> In k (columns (_data self)))
    /\ ~ In first (columns (_data self))
    /\ fst (clean self) = Raise e /\ fst (data self) = Raise e
    /\ fst (__str__ w self) = Raise e /\ fst (resume w self) = Raise e
    /\ ((forall k col, In k before -> getitem (_data self) k = Ok col ->
                       existsb infinite col = false) ->
        e = KeyError first)
    /\ ((exists k col, In k before /\ getitem (_data self) k = Ok col
                       /\ existsb infinite col = true) ->
        e = OverflowError).
Proof.
  intros Hc Hm.
  destruct (first_absent _ _ c Hc Hm) as (first & before & after & E & Hb & Hf).
  set (df := dropna_all (_data self)).
  assert (L : fst (clean self) = fst (clean_columns id_columns df)).
  { unfold clean, df. now destruct (clean_columns _ _). }
  destruct (clean_columns_missing id_columns c df Hc Hm) as [e He].
  exists e, first, before, after.
  rewrite <- L in He.
  destruct (clean_raises_all w self e He) as (D & S & R).
  repeat (split; [assumption|]).
  change id_columns with ["fleet"; "idBike"; "station_lock"; "station_unlock"]
    in L.
  rewrite E, He in L. split.
  - intros Fin.
    rewrite (clean_columns_first_absent before after first df) in L;
      [now injection L| |exact Hf].
    intros k Hk. pose proof (Hb k Hk) as Hin.
    destruct (position k (columns (_data self))) as [p|] eqn:P;
      [|apply position_none in P; contradiction].
    exists p. split; [exact P|].
    apply (proj2 (dropna_all_finite_at p (_data self))).
    destruct (getitem_finite _ _ _ P) as (col & G & Iff).
    apply Iff. exact (Fin k col Hk G).
  - intros (k & col & Hk & G & Inf).
    rewrite (clean_columns_infinite_before before after first df) in L;
      [now injection L|exact Hb|].
    pose proof (Hb k Hk) as Hin.
    destruct (position k (columns (_data self))) as [p|] eqn:P;
      [|apply position_none in P; contradiction].
    exists k, p. split; [exact Hk|]. split; [exact P|].
    intros F. apply (proj1 (dropna_all_finite_at p (_data self))) in F.
    destruct (getitem_finite _ _ _ P) as (col' & G' & Iff).
    rewrite G in G'. injection G' as <-. apply Iff in F. congruence.
Qed.

Lemma clean_needs_id_columns_witness :
  fst (clean Fixture.no_station_lock) = Raise (KeyError "station_lock")
  /\ fst (data Fixture.no_station_lock) = Raise (KeyError "station_lock")
  /\ fst (__str__ (Fixture.mock_world 200) Fixture.no_station_lock)
     = Raise (KeyError "station_lock")
  /\ fst (resume (Fixture.mock_world 200) Fixture.no_station_lock)
     = Raise (KeyError "station_lock").
Proof.
  assert (A : ~ In "station_lock" (columns (_data Fixture.no_station_lock))).
  { simpl. intros [H|[H|[H|[]]]]; discriminate. }
  assert (I : In "station_lock"
                ["fleet"; "idBike"; "station_lock"; "station_unlock"]).
  { simpl. tauto. }
  destruct (clean_needs_id_columns (Fixture.mock_world 200)
              Fixture.no_station_lock "station_lock" I A)
    as (e & first & before & after & E & Hb & Hf & C & D & S & R & Hkey & _).
  assert (K : e = KeyError "station_lock").
  { destruct before as [|b1 [|b2 [|b3 [|b4 before]]]].
    - injection E as <- _. exfalso. apply Hf. simpl. tauto.
    - injection E as _ <- _. exfalso. apply Hf. simpl. tauto.
    - injection E as <- <- <- _. apply Hkey.
      intros k col [<-|[<-|[]]] G; vm_compute in G; injection G as <-;
        reflexivity.
    - injection E as _ _ <- _. exfalso.
      pose proof (Hb "station_lock"
                    (or_intror (or_intror (or_introl eq_refl)))) as Hin.
      simpl in Hin. destruct Hin as [Hin|[Hin|[Hin|[]]]]; discriminate.
    - injection E as _ _ _ _ E. destruct before; discriminate. }
  rewrite K in C, D, S, R. auto.
Defined.

(** The claim as the specification words it fails on a table whose [fleet]
    column holds an infinite float and that has no [idBike] column:
    [int] raises [OverflowError] before [idBike] is looked up. *)
Lemma clean_inf_before_missing_column :
  In "idBike" id_columns
  /\ ~ In "idBike" (columns (_data Fixture.inf_fleet))
  /\ fst (clean Fixture.inf_fleet) = Raise OverflowError.
Proof.
  split; [simpl; tauto|]. split; [|reflexivity].
  simpl. intros [H|[H|[]]]; discriminate.
Qed.

(** ** Responses other than 200 *)

Lemma status_not_200 (r : Response) :
  status_code r <> 200%Z -> negb (status_code r =? 200)%Z = true.
Proof.
  intros H. apply negb_true_iff. now apply Z.eqb_neq.
Qed.

(** C7. A response whose status is not 200 makes the method that fetched
    it raise [ConnectionError]: [select_valid_urls], and through it the
    constructor of the catalogue, for the index page; [get_csv] for the
    archive.  Nothing on the way up catches it: [get_data] and the
    constructor of [BiciMad] raise it too. *)
Theorem non_200_raises_ConnectionError (w : World) :
  (status_code (requests_get w (EMT ++ GENERAL)) <> 200%Z ->
   select_valid_urls w = Raise (ConnectionError connection_msg)
   /\ UrlEMT_init w = Raise (ConnectionError connection_msg)
   /\ forall month year,
        get_data w month year = Raise (ConnectionError connection_msg)
        /\ BiciMad_init w month year = Raise (ConnectionError connection_msg))
  /\ (forall self month year url,
        get_url self month year = Ok url ->
        status_code (requests_get w (EMT ++ url)) <> 200%Z ->
        get_csv w self month year = Raise (ConnectionError connection_msg))
  /\ (forall self month year url,
        UrlEMT_init w = Ok self ->
        get_url self month year = Ok url ->
        status_code (requests_get w (EMT ++ url)) <> 200%Z ->
        get_data w month year = Raise (ConnectionError connection_msg)
        /\ BiciMad_init w month year = Raise (ConnectionError connection_msg)).
Proof.
  assert (C : forall self month year url,
             get_url self month year = Ok url ->
             status_code (requests_get w (EMT ++ url)) <> 200%Z ->
             get_csv w self month year = Raise (ConnectionError connection_msg)).
  { intros self month year url U S. unfold get_csv. rewrite U. cbn [bind].
    now rewrite (status_not_200 _ S). }
  split; [|split].
  - intros S.
    assert (V : select_valid_urls w = Raise (ConnectionError connection_msg)).
    { unfold select_valid_urls. now rewrite (status_not_200 _ S). }
    assert (I : UrlEMT_init w = Raise (ConnectionError connection_msg)).
    { unfold UrlEMT_init. now rewrite V. }
    split; [exact V|]. split; [exact I|]. intros month year.
    unfold BiciMad_init, get_data. now rewrite I.
  - exact C.
  - intros self month year url I U S.
    unfold BiciMad_init, get_data. rewrite I. cbn [bind].
    now rewrite (C self month year url U S).
Qed.

Lemma non_200_raises_ConnectionError_witness :
  UrlEMT_init Fixture.world_404 = Raise (ConnectionError connection_msg)
  /\ get_csv (Fixture.mock_world 404) Fixture.catalogue (AInt 1) (AInt 23)
     = Raise (ConnectionError connection_msg).
Proof.
  split.
  - apply (proj1 (non_200_raises_ConnectionError Fixture.world_404)).
    vm_compute. discriminate.
  - apply (proj1 (proj2 (non_200_raises_ConnectionError (Fixture.mock_world 404)))
             Fixture.catalogue (AInt 1) (AInt 23) Fixture.january).
    + reflexivity.
    + vm_compute. discriminate.
Defined.

(** ** The archive *)

(** The name of the entry, for a link in which [trips] first occurs after
    [pre] and whose last hyphen follows [mid]: the link from [trips] on,
    its suffix from the last hyphen stripped, and [.csv]. *)

Lemma no_dash_cons (c : ascii) (s : string) :
  ~ Re.contains "-" (String c s) ->
  Ascii.eqb "-" c = false /\ ~ Re.contains "-" s.
Proof.
  intros H. split.
  - destruct (Ascii.eqb "-" c) eqn:E; [|reflexivity].
    apply Ascii.eqb_eq in E. subst c. exfalso. apply H. now exists "", s.
  - intros Hs. apply H. now apply contains_cons.
Qed.

Lemma match_here_dash_none (suf : string) :
  ~ Re.contains "-" suf ->
  Re.match_here [Re.Star Re.Dot; Re.One (Re.Chr "-")] suf = None.
Proof.
  induction suf as [|c suf IH]; intros H; [reflexivity|].
  apply no_dash_cons in H as [Hc Hs].
  rewrite match_here_star_cons, (IH Hs).
  assert (F : Re.match_here [Re.One (Re.Chr "-")] (String c suf) = None).
  { cbn [Re.match_here Re.atom_match]. now rewrite Hc. }
  rewrite F. now destruct (Re.atom_match Re.Dot c).
Qed.

Lemma match_here_to_last_dash (mid suf : string) :
  Re.no_newline mid = true -> ~ Re.contains "-" suf ->
  Re.match_here [Re.Star Re.Dot; Re.One (Re.Chr "-")] (mid ++ "-" ++ suf)
  = Some (String.length mid + 1)%nat.
Proof.
  intros Hm Hs. induction mid as [|c mid IH].
  - change ("" ++ "-" ++ suf) with (String "-" suf).
    rewrite match_here_star_cons, (match_here_dash_none _ Hs). reflexivity.
  - simpl in Hm. apply andb_prop in Hm as [Hc Hm].
    change (String c mid ++ "-" ++ suf) with (String c (mid ++ "-" ++ suf)).
    rewrite match_here_star_cons. simpl Re.atom_match. rewrite Hc.
    now rewrite (IH Hm).
Qed.

Lemma trips_prefix (x : string) (c : ascii) (y t : string) :
  String c x ++ "trips" ++ y = "trips" ++ t ->
  Re.contains "trips" (String c x ++ "trip").
Proof.
  intros E.
  destruct x as [|x1 [|x2 [|x3 [|x4 x]]]]; simpl in E;
    try discriminate.
  injection E as -> -> -> -> -> _.
  now exists "", (x ++ "trip").
Qed.

Lemma search_stem (pre rest : string) (n : nat) :
  ~ Re.contains "trips" (pre ++ "trip") ->
  Re.match_here stem_re ("trips" ++ rest) = Some n ->
  Re.search stem_re (pre ++ "trips" ++ rest) = Some (String.length pre, n).
Proof.
  intros Hp M. induction pre as [|c pre IH].
  - change ("" ++ "trips" ++ rest) with (String "t" ("rips" ++ rest)).
    rewrite search_cons.
    change (String "t" ("rips" ++ rest)) with ("trips" ++ rest).
    now rewrite M.
  - change (String c pre ++ "trips" ++ rest)
      with (String c (pre ++ "trips" ++ rest)).
    rewrite search_cons.
    destruct (Re.match_here stem_re (String c (pre ++ "trips" ++ rest)))
      as [k|] eqn:K.
    + exfalso. apply Hp.
      apply (match_here_lits "trips") in K as (t & _ & E & _).
      exact (trips_prefix pre c rest t E).
    + rewrite IH; [reflexivity|].
      intros H. apply Hp. now apply contains_cons.
Qed.

Lemma substring_middle (a b c : string) :
  substring (String.length a) (String.length b) (a ++ b ++ c) = b.
Proof.
  induction a as [|x a IH]; simpl; [|exact IH].
  induction b as [|y b IHb]; simpl; [now destruct c|].
  now rewrite IHb.
Qed.

Lemma csv_name_stem (pre mid suf : string) :
  ~ Re.contains "trips" (pre ++ "trip") ->
  Re.no_newline mid = true -> ~ Re.contains "-" suf ->
  csv_name (pre ++ "trips" ++ mid ++ "-" ++ suf) = Ok ("trips" ++ mid ++ ".csv").
Proof.
  intros Hp Hm Hs. unfold csv_name.
  assert (M : Re.match_here stem_re ("trips" ++ mid ++ "-" ++ suf)
              = Some (5 + (String.length mid + 1))%nat).
  { unfold stem_re. rewrite match_here_lits_append.
    now rewrite (match_here_to_last_dash _ _ Hm Hs). }
  rewrite (search_stem pre _ _ Hp M).
  replace (5 + (String.length mid + 1) - 1)%nat
    with (String.length ("trips" ++ mid)) by (simpl; lia).
  rewrite <- (append_assoc "trips" mid ("-" ++ suf)).
  rewrite substring_middle. now rewrite append_assoc.
Qed.

(** An entry of the archive is read by its name; of several entries with
    one name the last is read. *)
Lemma zopen_entry (z1 z2 : archive) (name : string) (bytes : list byte) :
  Forall (fun e => fst e <> name) z2 ->
  zopen (z1 ++ (name, bytes) :: z2)%list name = Ok bytes.
Proof.
  intros H. unfold zopen. rewrite rev_app_distr. simpl List.rev.
  rewrite <- app_assoc.
  assert (F : forall l tl,
             Forall (fun e : string * list byte => fst e <> name) l ->
             List.find (fun e => String.eqb (fst e) name) (l ++ tl)%list
             = List.find (fun e => String.eqb (fst e) name) tl).
  { clear. induction 1 as [|e l He _ IH]; [reflexivity|].
    simpl. apply String.eqb_neq in He. now rewrite He. }
  rewrite F; [|now apply Forall_rev].
  simpl. now rewrite String.eqb_refl.
Qed.

(** C8. When [get_url] resolves the month and year to a link, [trips]
    first occurs in the link after [pre] and its last hyphen follows
    [mid], the download of that link from the site of the EMT answers 200
    with an archive, the archive holds an entry named [trips], [mid] and
    [.csv] (the link from [trips] on with its suffix from the last hyphen
    stripped, and [.csv]), and the bytes of that entry decode as UTF-8 to
    the text [c], then [get_csv] returns the stream whose text is [c]. *)
Theorem get_csv_round_trip (w : World) (self : UrlEMT) (month year : pyarg)
    (pre mid suf c : string) (z1 z2 : archive) (bytes : list byte) :
  get_url self month year = Ok (pre ++ "trips" ++ mid ++ "-" ++ suf) ->
  ~ Re.contains "trips" (pre ++ "trip") ->
  Re.no_newline mid = true -> ~ Re.contains "-" suf ->
  status_code
    (requests_get w
       ("https://opendata.emtmadrid.es/" ++ pre ++ "trips" ++ mid ++ "-"
        ++ suf)) = 200%Z ->
  ZipFile w
    (content
       (requests_get w
          ("https://opendata.emtmadrid.es/" ++ pre ++ "trips" ++ mid ++ "-"
           ++ suf)))
  = Ok (z1 ++ (("trips" ++ mid ++ ".csv")%string, bytes) :: z2)%list ->
  Forall (fun e => fst e <> "trips" ++ mid ++ ".csv") z2 ->
  decode_utf8 w bytes = Ok c ->
  get_csv w self month year = Ok c.
Proof.
  intros U Hp Hm Hs S Z L D. unfold get_csv. rewrite U. cbn [bind].
  change EMT with "https://opendata.emtmadrid.es/". rewrite S. cbn [Z.eqb Pos.eqb negb]. rewrite Z. cbn [bind].
  rewrite (csv_name_stem pre mid suf Hp Hm Hs). cbn [bind].
  rewrite (zopen_entry z1 z2 _ bytes L). cbn [bind].
  rewrite D. reflexivity.
Qed.

Lemma get_csv_round_trip_witness :
  get_csv (Fixture.mock_world 200) Fixture.catalogue (AInt 1) (AInt 23)
  = Ok "fecha;idBike;fleet".
Proof.
  apply (get_csv_round_trip (Fixture.mock_world 200) Fixture.catalogue
           (AInt 1) (AInt 23)
           "/getattachment/20b8509b-97a8-4831-b9d2-4900322e1714/"
           "_23_01_January" "csv.aspx" "fecha;idBike;fleet"
           [("README.txt", [])] [] Fixture.csv_bytes);
    try reflexivity.
  - intros H. apply contains_occurs in H. vm_compute in H. discriminate.
  - intros H. apply contains_occurs in H. vm_compute in H. discriminate.
  - constructor.
Defined.

(** ** [get_data] *)

Lemma mem_In (c : string) (l : list string) : mem c l = true <-> In c l.
Proof.
  unfold mem. rewrite existsb_exists. split.
  - intros (x & Hx & E). apply String.eqb_eq in E. now subst.
  - intros H. exists c. split; [exact H | apply String.eqb_refl].
Qed.

(** A kept column keeps its cells, wherever it moves to. *)
Lemma select_position (keep : string -> bool) (c : string)
    (cols : list string) (cells : list value) :
  keep c = true ->
  match position c cols with
  | Some p =>
      exists p', position c (filter keep cols) = Some p'
                 /\ nth p' (select keep cols cells) NaN = nth p cells NaN
  | None => position c (filter keep cols) = None
  end.
Proof.
  intros K. revert cells. induction cols as [|h cols IH]; intros cells;
    [reflexivity|].
  simpl. destruct (String.eqb c h) eqn:E.
  - apply String.eqb_eq in E. subst h. rewrite K. simpl.
    rewrite String.eqb_refl. exists 0%nat. split; [reflexivity|].
    now destruct cells.
  - specialize (IH (tl cells)).
    destruct (position c cols) as [p|]; simpl.
    + destruct IH as (p' & P & N).
      destruct (keep h) eqn:Kh; simpl.
      * rewrite E, P. simpl. exists (S p'). split; [reflexivity|].
        destruct cells as [|x cells]; simpl in *; [now destruct p', p|exact N].
      * exists p'. split; [exact P|].
        destruct cells as [|x cells]; simpl in *; [now destruct p', p|exact N].
    + destruct (keep h); simpl; [rewrite E|]; now rewrite IH.
Qed.

Lemma set_index_cells (rs : list (index_value * list value))
    (labels : list index_value) :
  map snd (set_index rs labels) = map snd rs.
Proof.
  revert labels. induction rs as [|r rs IH]; intros [|l labels]; simpl;
    try reflexivity.
  now rewrite IH.
Qed.

Lemma set_index_labels (f : index_value -> index_value)
    (rs : list (index_value * list value)) :
  map fst (set_index rs (map f (map fst rs))) = map f (map fst rs).
Proof.
  induction rs as [|r rs IH]; simpl; [reflexivity | now rewrite IH].
Qed.

Lemma getitem_cells (df df' : DataFrame) (c : string) :
  columns df' = columns df -> map snd (rows df') = map snd (rows df) ->
  getitem df' c = getitem df c.
Proof.
  intros Hc Hr. unfold getitem. rewrite Hc.
  destruct (position c (columns df)) as [p|]; [|reflexivity]. f_equal.
  rewrite <- (map_map snd (fun cells => nth p cells NaN)).
  rewrite <- (map_map snd (fun cells => nth p cells NaN) (rows df)).
  now rewrite Hr.
Qed.

Lemma getitem_drop (df : DataFrame) (delete : list string) (c : string) :
  mem c delete = false -> getitem (drop df delete) c = getitem df c.
Proof.
  intros Hd. unfold getitem, drop. cbn [columns rows].
  set (keep := fun c => negb (mem c delete)).
  assert (K : keep c = true) by (unfold keep; now rewrite Hd).
  pose proof (fun cells => select_position keep c (columns df) cells K) as S.
  destruct (position c (columns df)) as [p|] eqn:P.
  - destruct (S []) as (p' & P' & _). rewrite P'. f_equal.
    rewrite map_map. apply map_ext. intros r. cbn [snd].
    destruct (S (snd r)) as (p'' & P'' & N). congruence.
  - now rewrite (S []).
Qed.

Lemma keep_allowed_columns (w : World) (df : DataFrame) :
  columns (keep_allowed w df)
  = filter (fun c => mem c allowed_columns) (columns df).
Proof.
  unfold keep_allowed, drop. cbn [columns].
  set (delete :=
         filter (fun column => negb (mem column allowed_columns)) (columns df)).
  apply filter_ext_in. intros c Hc.
  cbv beta. destruct (mem c delete) eqn:M; cbn [negb].
  - apply mem_In, filter_In in M as [_ M].
    apply negb_true_iff in M. now rewrite M.
  - destruct (mem c allowed_columns) eqn:A; [reflexivity|].
    assert (D : mem c delete = true); [|congruence].
    apply mem_In, filter_In. split; [exact Hc | now rewrite A].
Qed.

Lemma keep_allowed_getitem (w : World) (df : DataFrame) (c : string) :
  In c allowed_columns -> getitem (keep_allowed w df) c = getitem df c.
Proof.
  intros A. unfold keep_allowed.
  set (delete :=
         filter (fun column => negb (mem column allowed_columns)) (columns df)).
  rewrite (getitem_cells (drop df delete)).
  - apply getitem_drop. destruct (mem c delete) eqn:M; [|reflexivity].
    apply mem_In, filter_In in M as [_ M]. apply mem_In in A.
    now rewrite A in M.
  - reflexivity.
  - cbn [rows]. apply set_index_cells.
Qed.

Lemma keep_allowed_index (w : World) (df : DataFrame) :
  index (keep_allowed w df) = map (coerce (to_datetime w)) (index df).
Proof.
  unfold keep_allowed, index, drop. cbn [rows columns].
  set (rs := map _ (rows df)).
  assert (E : map fst rs = map fst (rows df)).
  { unfold rs. rewrite map_map. now apply map_ext. }
  rewrite <- E. apply set_index_labels.
Qed.

(** C5. [get_data] hands the text that [get_csv] returns to [read_csv]
    with the delimiter [;] and the index column [fecha].  Of the table so
    parsed it keeps exactly the columns of the list of fifteen, in their
    order and with their cells, and every label of the index is converted,
    row by row: a label that parses becomes its timestamp, a label that
    does not parse becomes [NaT], and the call returns. *)
Theorem get_data_keeps_allowed_columns (w : World) (month year : pyarg)
    (url_emt : UrlEMT) (csv : string) (df : DataFrame) :
  UrlEMT_init w = Ok url_emt ->
  get_csv w url_emt month year = Ok csv ->
  read_csv w csv ";" "fecha" = Ok df ->
  exists df',
    get_data w month year = Ok df'
    /\ columns df' = filter (fun c => mem c allowed_columns) (columns df)
    /\ (forall c, In c (columns df') <->
                  In c (columns df)
                  /\ In c ["idBike"; "fleet"; "trip_minutes";
                           "geolocation_unlock"; "address_unlock";
                           "unlock_date"; "locktype"; "unlocktype";
                           "geolocation_lock"; "address_lock"; "lock_date";
                           "station_unlock"; "unlock_station_name";
                           "station_lock"; "lock_station_name"])
    /\ (forall c, In c allowed_columns -> getitem df' c = getitem df c)
    /\ Forall2
         (fun l l' =>
            l' = match l with
                 | Label v =>
                     match to_datetime w v with
                     | Some ns => Timestamp ns
                     | None => NaT
                     end
                 | Timestamp ns => Timestamp ns
                 | NaT => NaT
                 end)
         (map fst (rows df)) (map fst (rows df'))
    /\ List.length allowed_columns = 15%nat.
Proof.
  intros I C R. exists (keep_allowed w df).
  split; [unfold get_data; rewrite I; cbn [bind]; rewrite C; cbn [bind];
          now rewrite R|].
  split; [apply keep_allowed_columns|].
  split; [|split; [|split]].
  - intros c. rewrite keep_allowed_columns, filter_In, mem_In. reflexivity.
  - intros c. apply keep_allowed_getitem.
  - pose proof (keep_allowed_index w df) as K. unfold index in K.
    rewrite K. clear.
    induction (map fst (rows df)) as [|l ls IH]; constructor;
      [reflexivity | exact IH].
  - reflexivity.
Qed.

Lemma get_data_keeps_allowed_columns_witness :
  exists df',
    get_data (Fixture.mock_world 200) (AInt 1) (AInt 23) = Ok df'
    /\ columns df'
       = filter (fun c => mem c allowed_columns) (columns Fixture.raw_table)
    /\ (forall c, In c (columns df') <->
                  In c (columns Fixture.raw_table)
                  /\ In c ["idBike"; "fleet"; "trip_minutes";
                           "geolocation_unlock"; "address_unlock";
                           "unlock_date"; "locktype"; "unlocktype";
                           "geolocation_lock"; "address_lock"; "lock_date";
                           "station_unlock"; "unlock_station_name";
                           "station_lock"; "lock_station_name"])
    /\ (forall c, In c allowed_columns ->
                  getitem df' c = getitem Fixture.raw_table c)
    /\ Forall2
         (fun l l' =>
            l' = match l with
                 | Label v =>
                     match to_datetime (Fixture.mock_world 200) v with
                     | Some ns => Timestamp ns
                     | None => NaT
                     end
                 | Timestamp ns => Timestamp ns
                 | NaT => NaT
                 end)
         (map fst (rows Fixture.raw_table)) (map fst (rows df'))
    /\ List.length allowed_columns = 15%nat.
Proof.
  apply (get_data_keeps_allowed_columns (Fixture.mock_world 200)
           (AInt 1) (AInt 23)
           (mkUrlEMT (List.rev (get_links Fixture.emt_datos)))
           "fecha;idBike;fleet" Fixture.raw_table);
    vm_compute; reflexivity.
Defined.

(** ** [resume] *)

Lemma value_eqb_eq (x y : value) : value_eqb x y = true <-> x = y.
Proof.
  unfold value_eqb. destruct (value_eq_dec x y); split; congruence.
Qed.

Lemma value_eqb_refl (x : value) : value_eqb x x = true.
Proof. now apply value_eqb_eq. Qed.

Lemma insert_desc_In (e x : value * nat) (l : list (value * nat)) :
  In x (insert_desc e l) <-> x = e \/ In x l.
Proof.
  induction l as [|h l IH]; simpl.
  - intuition congruence.
  - destruct (Nat.leb (snd h) (snd e)); simpl; [intuition congruence|].
    rewrite IH. intuition congruence.
Qed.

Lemma sort_desc_In (x : value * nat) (l : list (value * nat)) :
  In x (sort_desc l) <-> In x l.
Proof.
  induction l as [|h l IH]; simpl; [tauto|].
  rewrite insert_desc_In, IH. intuition congruence.
Qed.

(** The head of the sorted list has the greatest count. *)
Lemma insert_desc_head (e : value * nat) (l : list (value * nat)) :
  (forall h t, l = h :: t -> forall x, In x l -> (snd x <= snd h)%nat) ->
  forall h t, insert_desc e l = h :: t ->
              forall x, In x (insert_desc e l) -> (snd x <= snd h)%nat.
Proof.
  intros Hl h t E x Hx. apply insert_desc_In in Hx.
  destruct l as [|h0 l]; simpl in E.
  - injection E as <- <-. destruct Hx as [->|[]]. lia.
  - specialize (Hl h0 l eq_refl).
    destruct (Nat.leb (snd h0) (snd e)) eqn:L.
    + injection E as <- <-. apply Nat.leb_le in L.
      destruct Hx as [->|Hx]; [lia|]. specialize (Hl x Hx). lia.
    + injection E as <- <-. apply Nat.leb_gt in L.
      destruct Hx as [->|Hx]; [lia|]. exact (Hl x Hx).
Qed.

Lemma sort_desc_head (l : list (value * nat)) (h : value * nat)
    (t : list (value * nat)) :
  sort_desc l = h :: t -> forall x, In x l -> (snd x <= snd h)%nat.
Proof.
  assert (G : forall l h t, sort_desc l = h :: t ->
                forall x, In x (sort_desc l) -> (snd x <= snd h)%nat).
  { clear. induction l as [|e l IH]; intros h t E x Hx; [discriminate|].
    simpl in *. exact (insert_desc_head e (sort_desc l) IH h t E x Hx). }
  intros E x Hx. apply (G l h t E). now apply sort_desc_In.
Qed.

Lemma distinct_In (v : value) (col : list value) :
  In v (distinct col) <-> In v col.
Proof.
  induction col as [|x col IH]; simpl; [tauto|].
  rewrite filter_In, IH. split.
  - intros [H|[H _]]; auto.
  - intros [H|H]; [now left|].
    destruct (value_eq_dec x v) as [E|N]; [now left|right].
    split; [exact H|]. apply negb_true_iff.
    destruct (value_eqb x v) eqn:B; [|reflexivity].
    apply value_eqb_eq in B. contradiction.
Qed.

(** Dropping the nulls does not change the count of a value. *)
Lemma occurrences_present (v : value) (col : list value) :
  isna v = false ->
  occurrences v (filter (fun x => negb (isna x)) col) = occurrences v col.
Proof.
  intros N. unfold occurrences. f_equal.
  induction col as [|x col IH]; simpl; [reflexivity|].
  destruct (isna x) eqn:X; simpl.
  - destruct (value_eqb v x) eqn:B; [|exact IH].
    apply value_eqb_eq in B. congruence.
  - destruct (value_eqb v x); now rewrite IH.
Qed.

(** The first entry of [value_counts]: a value of the column that is not
    null, with its number of occurrences, which no other value exceeds. *)
Lemma value_counts_head (col : list value) :
  existsb (fun v => negb (isna v)) col = true ->
  exists station uses rest,
    value_counts col = (station, uses) :: rest
    /\ In station col /\ isna station = false
    /\ uses = occurrences station col
    /\ forall v, In v col -> isna v = false ->
                 (occurrences v col <= uses)%nat.
Proof.
  intros H. unfold value_counts.
  set (present := filter (fun v => negb (isna v)) col).
  set (entries := map (fun v => (v, occurrences v present)) (distinct present)).
  assert (P : forall v, In v present <-> In v col /\ isna v = false).
  { intros v. unfold present. rewrite filter_In, negb_true_iff. tauto. }
  apply existsb_exists in H as (v0 & Hv0 & N0). apply negb_true_iff in N0.
  assert (E0 : In (v0, occurrences v0 present) entries).
  { unfold entries. apply in_map_iff. exists v0. split; [reflexivity|].
    apply distinct_In, P. auto. }
  destruct (sort_desc entries) as [|[station uses] rest] eqn:S.
  - apply sort_desc_In in E0. rewrite S in E0. destruct E0.
  - exists station, uses, rest. split; [reflexivity|].
    assert (Hs : In (station, uses) entries).
    { apply sort_desc_In. rewrite S. now left. }
    unfold entries in Hs. apply in_map_iff in Hs as (s & [= -> <-] & Hin).
    apply distinct_In, P in Hin as [Hin Hna].
    split; [exact Hin|]. split; [exact Hna|].
    split; [exact (occurrences_present _ _ Hna)|].
    intros v Hv Nv.
    assert (Ev : In (v, occurrences v present) entries).
    { unfold entries. apply in_map_iff. exists v. split; [reflexivity|].
      apply distinct_In, P. auto. }
    pose proof (sort_desc_head _ _ _ S _ Ev) as L. cbn [snd] in L.
    unfold present in L |- *.
    rewrite (occurrences_present _ _ Nv) in L. exact L.
Qed.

(** The occurrences of a value are the cells equal to it. *)
Lemma occurrences_count_occ (v : value) (col : list value) :
  occurrences v col = count_occ value_eq_dec col v.
Proof.
  unfold occurrences. induction col as [|x col IH]; [reflexivity|].
  cbn [filter count_occ]. unfold value_eqb at 1.
  destruct (value_eq_dec v x) as [E|N], (value_eq_dec x v) as [E'|N'];
    try congruence; cbn [List.length]; now rewrite IH.
Qed.

Lemma no_text (col : list value) :
  forallb (fun v => negb (is_text v)) col = true ->
  existsb is_text col = false.
Proof.
  induction col as [|v col IH]; simpl; [reflexivity|].
  intros H. apply andb_prop in H as [Hv H].
  apply negb_true_iff in Hv. now rewrite Hv, IH.
Qed.

Lemma data_Ok (w : World) (self : BiciMad) (df : DataFrame) :
  fst (data self) = Ok df ->
  df = _data (snd (clean self))
  /\ resume w self
     = (summary_of w (_month self) (_year self) df, snd (clean self)).
Proof.
  unfold resume, data, clean.
  destruct (clean_columns id_columns (dropna_all (_data self))) as [[u|e] d];
    cbn [fst snd _data _month _year]; [|discriminate].
  intros [= <-]. auto.
Qed.

Lemma data_Ok_clean (self : BiciMad) (df : DataFrame) :
  fst (data self) = Ok df -> clean self = (Ok tt, snd (clean self)).
Proof.
  unfold data. destruct (clean self) as [[[]|e] s]; cbn [fst snd];
    [reflexivity | discriminate].
Qed.

(** C1, as amended. On a table that cleans without error, whose
    [trip_minutes] column holds no text and whose [address_unlock] column
    holds a value that is not null, [resume] returns six entries in this
    order: [year], the text [20] followed by the year; [month], the month;
    [total_uses], the number of rows of the cleaned table times its number
    of columns; [total_time], the sum of [trip_minutes], as the library
    computes it, divided by 60 as a float; [most_popular_station], a value
    of [address_unlock] that is not null and that no other such value
    exceeds in occurrences; [uses_from_most_popular], the number of cells
    of [address_unlock] that hold it.  The object is left holding the
    cleaned table, which cleaning again does not change. *)
Theorem resume_summary (w : World) (self : BiciMad) (df : DataFrame)
    (trip_minutes address_unlock : list value) :
  fst (data self) = Ok df ->
  getitem df "trip_minutes" = Ok trip_minutes ->
  forallb (fun v => negb (is_text v)) trip_minutes = true ->
  getitem df "address_unlock" = Ok address_unlock ->
  existsb (fun v => negb (isna v)) address_unlock = true ->
  exists station uses,
    fst (resume w self)
    = Ok [("year", VStr ("20" ++ str (_year self)));
          ("month", value_of_arg (_month self));
          ("total_uses",
           VInt (Z.of_nat (List.length (rows df) * List.length (columns df))));
          ("total_time",
           VFloat (float_div
                     match nansum w trip_minutes with
                     | NInt z => float_of_Z z
                     | NFloat x => x
                     end
                     (float_of_Z 60)));
          ("most_popular_station", station);
          ("uses_from_most_popular", VInt (Z.of_nat uses))]
    /\ df = _data (snd (resume w self))
    /\ clean (snd (resume w self)) = (Ok tt, snd (resume w self))
    /\ In station address_unlock /\ isna station = false
    /\ uses = count_occ value_eq_dec address_unlock station
    /\ forall v, In v address_unlock -> isna v = false ->
                 (count_occ value_eq_dec address_unlock v <= uses)%nat.
Proof.
  intros D T Tn A An.
  destruct (data_Ok w _ _ D) as [Edf R]. rewrite R. cbn [fst snd].
  destruct (value_counts_head address_unlock An)
    as (station & uses & rest & V & Hin & Hna & Hu & Hmax).
  exists station, uses.
  split; [|split; [exact Edf|split;
            [rewrite clean_again; exact (data_Ok_clean self df D)|]]].
  - unfold summary_of, sum_div_60. rewrite T. cbn [bind].
    rewrite (no_text _ Tn). cbn [bind]. rewrite A. cbn [bind].
    rewrite V. reflexivity.
  - split; [exact Hin|]. split; [exact Hna|].
    split; [now rewrite <- occurrences_count_occ|].
    intros v Hv Nv. rewrite <- occurrences_count_occ. exact (Hmax v Hv Nv).
Qed.

Lemma resume_summary_witness :
  fst (resume (Fixture.mock_world 200) Fixture.loaded)
  = Ok [("year", VStr "2023"); ("month", VInt 1); ("total_uses", VInt 45);
        ("total_time", VFloat (float_div (float_of_Z 25) (float_of_Z 16)));
        ("most_popular_station", VStr "Plaza de la Cebada 16");
        ("uses_from_most_popular", VInt 2)]
  /\ exists station uses,
    fst (resume (Fixture.mock_world 200) Fixture.loaded)
    = Ok [("year", VStr ("20" ++ str (_year Fixture.loaded)));
          ("month", value_of_arg (_month Fixture.loaded));
          ("total_uses",
           VInt (Z.of_nat
                   (List.length (rows (_data (snd (clean Fixture.loaded))))
                    * List.length (columns (_data (snd (clean Fixture.loaded)))))));
          ("total_time",
           VFloat (float_div
                     match
                       nansum (Fixture.mock_world 200)
                         (Fixture.column (_data (snd (clean Fixture.loaded)))
                            "trip_minutes")
                     with
                     | NInt z => float_of_Z z
                     | NFloat x => x
                     end
                     (float_of_Z 60)));
          ("most_popular_station", station);
          ("uses_from_most_popular", VInt (Z.of_nat uses))]
    /\ _data (snd (clean Fixture.loaded))
       = _data (snd (resume (Fixture.mock_world 200) Fixture.loaded))
    /\ clean (snd (resume (Fixture.mock_world 200) Fixture.loaded))
       = (Ok tt, snd (resume (Fixture.mock_world 200) Fixture.loaded))
    /\ In station
         (Fixture.column (_data (snd (clean Fixture.loaded))) "address_unlock")
    /\ isna station = false
    /\ uses = count_occ value_eq_dec
                (Fixture.column (_data (snd (clean Fixture.loaded)))
                   "address_unlock")
                station
    /\ forall v,
         In v (Fixture.column (_data (snd (clean Fixture.loaded))) "address_unlock") ->
         isna v = false ->
         (count_occ value_eq_dec
            (Fixture.column (_data (snd (clean Fixture.loaded)))
               "address_unlock") v
          <= uses)%nat.
Proof.
  split; [vm_compute; reflexivity|].
  apply (resume_summary (Fixture.mock_world 200) Fixture.loaded
           (_data (snd (clean Fixture.loaded))));
    vm_compute; reflexivity.
Defined.

(** The claim as the specification words it, for every loaded table, fails
    on a month without trips: the table has the fifteen columns and no row,
    it cleans, and [value_counts] is empty, so that its first entry does
    not exist. *)
Lemma resume_without_trips :
  fst (data Fixture.no_trips) = Ok (mkDataFrame allowed_columns [])
  /\ fst (resume (Fixture.mock_world 200) Fixture.no_trips)
     = Raise IndexError.
Proof.
  split; reflexivity.
Qed.

(** ** Malformed months and years *)

(** C3, as amended. No step of [get_url] validates the month or the year.
    For a month and a year, numbers or text, whose formatted text holds no
    special character of the pattern syntax (so [patata]), the call formats
    them, compiles the pattern and scans the links; when no link contains
    the key it reaches the end of the loop and raises the [ValueError]
    whose message ends with the sentence naming June 2021 to February
    2023. *)
Theorem get_url_literal_text_without_link (self : UrlEMT)
    (month year : pyarg) (mm : string) :
  format_02 month = Ok mm ->
  Re.literal mm = true -> Re.literal (str year) = true ->
  Forall (fun u => Re.no_newline u = true) (_valid_urls self) ->
  (forall u, In u (_valid_urls self) ->
             ~ Re.contains ("trips_" ++ str year ++ "_" ++ mm) u) ->
  get_url self month year = Raise (ValueError (no_link_msg month year))
  /\ exists pre, no_link_msg month year = pre ++ periodo.
Proof.
  intros Hf Hm Hy Hn Hnone. split; [|apply no_link_msg_periodo].
  apply (get_url_spec self month year mm Hf Hy Hm Hn).
  intros (u & Hi & Hc). exact (Hnone u Hi Hc).
Qed.

Lemma get_url_literal_text_without_link_witness :
  get_url Fixture.catalogue (AStr "patata") (AInt 22)
  = Raise (ValueError (no_link_msg (AStr "patata") (AInt 22)))
  /\ exists pre, no_link_msg (AStr "patata") (AInt 22) = pre ++ periodo.
Proof.
  apply (get_url_literal_text_without_link Fixture.catalogue
           (AStr "patata") (AInt 22) "patata");
    try reflexivity.
  - repeat constructor.
  - intros u Hu Hc.
    assert (S : Re.search (key_re "trips_22_patata") u = None).
    { destruct Hu as [<-|[<-|[<-|[]]]]; vm_compute; reflexivity. }
    assert (N : Re.no_newline u = true).
    { destruct Hu as [<-|[<-|[<-|[]]]]; reflexivity. }
    pose proof (search_key_complete "trips_22_patata" u N Hc) as C.
    rewrite S in C. discriminate.
Defined.

(** The claim as the specification words it, for every malformed month or
    year, fails: [None] as the month fails at the formatting step with
    [TypeError]; the year [..] is a pattern that matches [22], and the call
    returns the link of March 2022; the year [**] does not compile. *)
Lemma get_url_malformed_otherwise :
  get_url Fixture.catalogue ANone (AInt 22) = Raise TypeError
  /\ get_url Fixture.catalogue (AInt 3) (AStr "..") = Ok Fixture.march
  /\ get_url Fixture.catalogue (AInt 1) (AStr "**") = Raise re_error.
Proof.
  repeat split; vm_compute; reflexivity.
Qed.

(** ** The links of a page *)

(** On the page of the fixture, with one anchor on each line and nothing
    after its link that completes another [aspx], [get_links] returns the
    set that the specification describes, a repeated link once. *)
Lemma get_links_one_anchor_per_line :
  get_links Fixture.emt_datos
  = [Fixture.january; Fixture.march; Fixture.june]
  /\ Spec.valid_links Fixture.emt_datos = get_links Fixture.emt_datos.
Proof.
  split; vm_compute; reflexivity.
Qed.

(** C6 fails on the code. With two anchors on one line the first [.*] of
    the pattern runs over the closing quote to the last [aspx] of the line:
    [get_links] returns one text, from the first link to the end of the
    second, and neither link; the set of the specification holds the two
    links. *)
Theorem get_links_two_anchors_on_a_line :
  get_links Fixture.one_line
  = [Fixture.january ++ Fixture.q ++ ">Enero 2023</a> <a href=" ++ Fixture.q
     ++ Fixture.march]
  /\ Spec.valid_links Fixture.one_line = [Fixture.january; Fixture.march]
  /\ ~ In Fixture.january (get_links Fixture.one_line)
  /\ ~ In Fixture.march (get_links Fixture.one_line).
Proof.
  assert (E : get_links Fixture.one_line
              = [Fixture.january ++ Fixture.q ++ ">Enero 2023</a> <a href="
                 ++ Fixture.q ++ Fixture.march])
    by (vm_compute; reflexivity).
  split; [exact E|]. split; [vm_compute; reflexivity|].
  rewrite E. split; intros [H|[]]; vm_compute in H; discriminate.
Qed.

(** * Further properties of the code *)

(** ** What [get_links] collects *)

(** What the pattern of [get_links] matches: [href_open], any text,
    [trips], any text, [aspx]. *)
Lemma urls_re_match (s : string) (n : nat) :
  Re.match_here urls_re s = Some n ->
  exists x y t,
    s = href_open ++ (x ++ "trips" ++ y ++ "aspx") ++ t
    /\ n = (6 + String.length (x ++ "trips" ++ y ++ "aspx"))%nat.
Proof.
  intros M. unfold urls_re in M.
  apply match_here_lits in M as (t1 & n1 & -> & M & ->).
  apply (match_here_star_split Re.Dot) in M as (x & t2 & n2 & -> & M & ->).
  apply match_here_lits in M as (t3 & n3 & -> & M & ->).
  apply (match_here_star_split Re.Dot) in M as (y & t4 & n4 & -> & M & ->).
  apply (match_here_lits "aspx" []) in M as (t & n5 & -> & M & ->).
  injection M as <-.
  exists x, y, t. split.
  - unfold href_open. now rewrite !append_assoc.
  - rewrite !length_append. simpl. lia.
Qed.

Lemma group_link_match (s : string) (n : nat) :
  Re.match_here urls_re s = Some n ->
  exists x y, group_link (substring 0 n s) = x ++ "trips" ++ y ++ "aspx".
Proof.
  intros M. apply urls_re_match in M as (x & y & t & -> & ->).
  exists x, y. set (link := x ++ "trips" ++ y ++ "aspx").
  rewrite <- append_assoc.
  replace (6 + String.length link)%nat
    with (String.length (href_open ++ link))
    by (rewrite length_append; reflexivity).
  rewrite substring_prefix. unfold group_link.
  rewrite length_append.
  replace (String.length href_open + String.length link - 6)%nat
    with (String.length link) by (simpl; lia).
  apply (substring_suffix href_open link).
Qed.

Lemma finditer_from_Forall (P : string -> Prop) (r : Re.regex) :
  (forall t n, Re.match_here r t = Some n -> P (substring 0 n t)) ->
  forall s skip, Forall P (Re.finditer_from r skip s).
Proof.
  intros H. induction s as [|c s IH]; intros [|k]; simpl; auto.
  - destruct (Re.match_here r "") as [n|] eqn:M; auto.
    constructor; auto. exact (H _ _ M).
  - destruct (Re.match_here r (String c s)) as [n|] eqn:M; auto.
    constructor; auto. exact (H _ _ M).
Qed.

Lemma mem_false (x : string) (s : list string) : mem x s = false -> ~ In x s.
Proof.
  intros H Hin. apply mem_In in Hin. congruence.
Qed.

Lemma fold_set_add (P : string -> Prop) (f : string -> string)
    (l acc : list string) :
  Forall (fun m => P (f m)) l -> Forall P acc -> NoDup acc ->
  let s := fold_left (fun urls m => set_add (f m) urls) l acc in
  Forall P s /\ NoDup s.
Proof.
  revert acc. induction l as [|m l IH]; intros acc Hl Hacc Hnd; simpl; auto.
  inversion Hl; subst. apply IH; auto.
  - now apply set_add_Forall.
  - unfold set_add. destruct (mem (f m) acc) eqn:M; [exact Hnd|].
    apply NoDup_app; [exact Hnd | repeat constructor; intros [] |].
    intros x Hx [<-|[]]. exact (mem_false _ _ M Hx).
Qed.

(** X1. Whatever the page, [get_links] returns a set: no link twice.  Each
    of its members contains [trips], ends in [aspx] and holds no newline. *)
Theorem get_links_sound (html_txt : string) :
  NoDup (get_links html_txt)
  /\ Forall (fun u => Re.contains "trips" u
                      /\ (exists x, u = x ++ "aspx")
                      /\ Re.no_newline u = true)
       (get_links html_txt).
Proof.
  unfold get_links, Re.finditer.
  set (P := fun u => Re.contains "trips" u /\ (exists x, u = x ++ "aspx")
                     /\ Re.no_newline u = true).
  assert (M : Forall (fun m => P (group_link m))
                (Re.finditer_from urls_re 0 html_txt)).
  { apply finditer_from_Forall. intros t n M.
    destruct (group_link_match t n M) as (x & y & E). unfold P. rewrite E.
    split; [now exists x, (y ++ "aspx")|]. split.
    - exists (x ++ "trips" ++ y). now rewrite !append_assoc.
    - rewrite <- E. apply no_newline_substring.
      exact (match_here_no_newline urls_re eq_refl t n M). }
  destruct (fold_set_add P group_link _ [] M (Forall_nil P) (NoDup_nil _))
    as [F N].
  split; [exact N | exact F].
Qed.

(** ** Which link [get_url] returns *)

Lemma get_url_int (self : UrlEMT) (month year : Z) (key : string) :
  trips_key (AInt month) (AInt year) = Ok key ->
  get_url self (AInt month) (AInt year) =
  match first_match (key_re key) (_valid_urls self) with
  | Some link => Ok link
  | None => Raise (ValueError (no_link_msg (AInt month) (AInt year)))
  end.
Proof.
  unfold trips_key. destruct (format_02_int month) as (mm & Hf & Hm).
  rewrite Hf. cbn [bind]. intros [= <-].
  exact (get_url_literal self (AInt month) (AInt year) mm Hf
           (literal_str_of_Z year) Hm).
Qed.

Lemma search_key_none (key u : string) :
  ~ Re.contains key u -> Re.search (key_re key) u = None.
Proof.
  intros H. destruct (Re.search (key_re key) u) as [x|] eqn:S; [|reflexivity].
  exfalso. exact (H (search_key_sound _ _ _ S)).
Qed.

Lemma first_match_skips (key : string) (before rest : list string) :
  (forall v, In v before -> ~ Re.contains key v) ->
  first_match (key_re key) (before ++ rest) = first_match (key_re key) rest.
Proof.
  induction before as [|v before IH]; intros H; [reflexivity|].
  simpl. rewrite (search_key_none key v (H v (or_introl eq_refl))).
  apply IH. intros x Hx. apply H. now right.
Qed.

(** X2. [get_url] returns the first link, in the order in which the set is
    iterated, that contains the key: the links before it that do not
    contain the key are passed over, the links after it are not looked
    at. *)
Theorem get_url_first_in_order (self : UrlEMT) (month year : Z)
    (key u : string) (before after : list string) :
  trips_key (AInt month) (AInt year) = Ok key ->
  _valid_urls self = (before ++ u :: after)%list ->
  (forall v, In v before -> ~ Re.contains key v) ->
  Re.no_newline u = true -> Re.contains key u ->
  get_url self (AInt month) (AInt year) = Ok u.
Proof.
  intros K E Hb Hn Hc. rewrite (get_url_int self month year key K), E.
  rewrite (first_match_skips key before (u :: after) Hb). simpl.
  rewrite (search_key_complete key u Hn Hc). now rewrite substring_all.
Qed.

Lemma get_url_first_in_order_witness :
  get_url Fixture.catalogue (AInt 3) (AInt 22) = Ok Fixture.march.
Proof.
  apply (get_url_first_in_order Fixture.catalogue 3 22 "trips_22_03"
           Fixture.march [Fixture.january] [Fixture.june]);
    try reflexivity.
  - intros v [<-|[]] Hc.
    pose proof (search_key_complete "trips_22_03" Fixture.january eq_refl Hc)
      as S.
    vm_compute in S. discriminate.
  - now exists "/getattachment/e1ea5e02-4ba9-471a-bb95-8cb327220b05/",
      "_March-csv.aspx".
Defined.

Lemma first_match_only (key u : string) (urls : list string) :
  In u urls -> Re.no_newline u = true -> Re.contains key u ->
  (forall v, In v urls -> Re.contains key v -> v = u) ->
  first_match (key_re key) urls = Some u.
Proof.
  intros Hi Hn Hc Hu. induction urls as [|h urls IH]; [destruct Hi|].
  simpl. destruct (Re.search (key_re key) h) as [[i n]|] eqn:S.
  - pose proof (Hu h (or_introl eq_refl) (search_key_sound _ _ _ S)) as ->.
    rewrite (search_key_complete key u Hn Hc) in S. injection S as <- <-.
    now rewrite substring_all.
  - destruct Hi as [->|Hi].
    + rewrite (search_key_complete key u Hn Hc) in S. discriminate.
    + apply IH; [exact Hi|]. intros v Hv. apply Hu. now right.
Qed.

(** X3. When exactly one link of the set contains the key, [get_url]
    returns it in whatever order the set is iterated: two catalogues with
    the same members give the same answer. *)
Theorem get_url_order_independent (self self' : UrlEMT) (month year : Z)
    (key u : string) :
  trips_key (AInt month) (AInt year) = Ok key ->
  (forall v, In v (_valid_urls self) <-> In v (_valid_urls self')) ->
  In u (_valid_urls self) -> Re.no_newline u = true -> Re.contains key u ->
  (forall v, In v (_valid_urls self) -> Re.contains key v -> v = u) ->
  get_url self (AInt month) (AInt year) = Ok u
  /\ get_url self' (AInt month) (AInt year) = Ok u.
Proof.
  intros K Same Hi Hn Hc Hu.
  rewrite !(get_url_int _ month year key K).
  rewrite (first_match_only key u (_valid_urls self) Hi Hn Hc Hu).
  rewrite (first_match_only key u (_valid_urls self')); auto.
  - now apply Same.
  - intros v Hv. apply Hu. now apply Same.
Qed.

Lemma get_url_order_independent_witness :
  get_url Fixture.catalogue (AInt 6) (AInt 21) = Ok Fixture.june
  /\ get_url (mkUrlEMT [Fixture.june; Fixture.march; Fixture.january])
       (AInt 6) (AInt 21) = Ok Fixture.june.
Proof.
  apply (get_url_order_independent Fixture.catalogue
           (mkUrlEMT [Fixture.june; Fixture.march; Fixture.january])
           6 21 "trips_21_06" Fixture.june);
    try reflexivity.
  - intros v. simpl. tauto.
  - simpl. tauto.
  - now exists "/getattachment/ab3776ab-ba7f-4da3-bea6-e70c21c7d8be/",
      "_June-csv.aspx".
  - intros v Hv Hc.
    pose proof (fun N => search_key_complete "trips_21_06" v N Hc) as S.
    destruct Hv as [<-|[<-|[<-|[]]]]; try reflexivity;
      specialize (S eq_refl); vm_compute in S; discriminate.
Defined.

(** ** A month without a link, seen from [BiciMad] *)

(** X4. When the index page answers 200 and none of the links collected
    from it contains the key of the month and year, no archive is asked
    for: [get_csv] raises the [ValueError] of [get_url], and so do
    [get_data] and the constructor of [BiciMad]. *)
Theorem BiciMad_init_without_link (w : World) (month year : Z) (key : string) :
  status_code (requests_get w (EMT ++ GENERAL)) = 200%Z ->
  trips_key (AInt month) (AInt year) = Ok key ->
  (forall u, In u (get_links (text (requests_get w (EMT ++ GENERAL)))) ->
             ~ Re.contains key u) ->
  let e := ValueError (no_link_msg (AInt month) (AInt year)) in
  (exists self, UrlEMT_init w = Ok self
                /\ get_csv w self (AInt month) (AInt year) = Raise e)
  /\ get_data w (AInt month) (AInt year) = Raise e
  /\ BiciMad_init w (AInt month) (AInt year) = Raise e.
Proof.
  intros S K Hnone e.
  set (links := get_links (text (requests_get w (EMT ++ GENERAL)))) in *.
  set (self := mkUrlEMT (set_iter w links)).
  assert (I : UrlEMT_init w = Ok self).
  { unfold UrlEMT_init, select_valid_urls. now rewrite S. }
  assert (Hiter : forall u, In u (_valid_urls self) -> ~ Re.contains key u).
  { intros u Hu. apply Hnone.
    exact (Permutation_in u (Permutation_sym (set_iter_members w links)) Hu). }
  assert (U : get_url self (AInt month) (AInt year) = Raise e).
  { rewrite (get_url_int self month year key K).
    rewrite <- (app_nil_r (_valid_urls self)).
    now rewrite (first_match_skips key (_valid_urls self) [] Hiter). }
  assert (C : get_csv w self (AInt month) (AInt year) = Raise e).
  { unfold get_csv. now rewrite U. }
  split; [now exists self|].
  unfold BiciMad_init, get_data. rewrite I. cbn [bind]. now rewrite C.
Qed.

Lemma BiciMad_init_without_link_witness :
  let e := ValueError (no_link_msg (AInt 16) (AInt 22)) in
  (exists self, UrlEMT_init (Fixture.mock_world 200) = Ok self
                /\ get_csv (Fixture.mock_world 200) self (AInt 16) (AInt 22)
                   = Raise e)
  /\ get_data (Fixture.mock_world 200) (AInt 16) (AInt 22) = Raise e
  /\ BiciMad_init (Fixture.mock_world 200) (AInt 16) (AInt 22) = Raise e.
Proof.
  apply (BiciMad_init_without_link (Fixture.mock_world 200) 16 22
           "trips_22_16"); try reflexivity.
  intros u Hu Hc.
  assert (E : get_links (text (requests_get (Fixture.mock_world 200)
                                 (EMT ++ GENERAL)))
              = [Fixture.january; Fixture.march; Fixture.june])
    by (vm_compute; reflexivity).
  rewrite E in Hu.
  pose proof (fun N => search_key_complete "trips_22_16" u N Hc) as S.
  destruct Hu as [<-|[<-|[<-|[]]]]; specialize (S eq_refl);
    vm_compute in S; discriminate.
Defined.

(** ** The name of the entry in the archive *)

Lemma contains_dash_cons (c : ascii) (s : string) :
  Re.contains "-" (String c s) -> c = "-"%char \/ Re.contains "-" s.
Proof.
  intros ([|x a] & b & E); simpl in E; injection E as -> E.
  - now left.
  - right. now exists a, b.
Qed.

Lemma stem_re_match (s : string) (n : nat) :
  Re.match_here stem_re s = Some n ->
  exists t, s = "trips" ++ t /\ Re.contains "-" t.
Proof.
  intros M. unfold stem_re in M.
  apply match_here_lits in M as (t & n1 & -> & M & _).
  exists t. split; [reflexivity|].
  apply (match_here_star_split Re.Dot) in M as (x & t2 & n2 & -> & M & _).
  apply (match_here_lits "-" []) in M as (t3 & _ & -> & _).
  now exists x, t3.
Qed.

Lemma search_stem_none (s : string) :
  (forall a t, s = a ++ "trips" ++ t -> ~ Re.contains "-" t) ->
  Re.search stem_re s = None.
Proof.
  induction s as [|c s IH]; intros H.
  - rewrite search_empty.
    destruct (Re.match_here stem_re "") as [n|] eqn:M; [|reflexivity].
    apply stem_re_match in M as (t & E & _). discriminate.
  - rewrite search_cons.
    destruct (Re.match_here stem_re (String c s)) as [n|] eqn:M.
    + apply stem_re_match in M as (t & E & D).
      exfalso. exact (H "" t E D).
    + rewrite IH; [reflexivity|].
      intros a t E. apply (H (String c a) t). simpl. now rewrite E.
Qed.

(** Where [trips] first occurs after [pre], every later occurrence is
    followed by a part of [rest]. *)
Lemma trips_after (pre rest a t : string) :
  ~ Re.contains "trips" (pre ++ "trip") ->
  pre ++ "trips" ++ rest = a ++ "trips" ++ t ->
  exists x, rest = x ++ t.
Proof.
  revert a. induction pre as [|c pre IH]; intros a Hp E.
  - clear Hp. simpl in E.
    destruct a as [|a1 [|a2 [|a3 [|a4 [|a5 a]]]]]; simpl in E;
      try discriminate.
    + injection E as ->. now exists "".
    + injection E as <- <- <- <- <- E.
      exists (a ++ "trips"). now rewrite append_assoc.
  - destruct a as [|x a].
    + exfalso. apply Hp. simpl in E. exact (trips_prefix pre c rest t E).
    + simpl in E. injection E as <- E.
      apply (IH a); [|exact E].
      intros H. apply Hp. now apply contains_cons.
Qed.

Lemma contains_dash_append (x t : string) :
  Re.contains "-" t -> Re.contains "-" (x ++ t).
Proof.
  intros (a & b & ->). exists (x ++ a), b. now rewrite append_assoc.
Qed.

Lemma csv_name_without_hyphen (pre rest : string) :
  ~ Re.contains "trips" (pre ++ "trip") -> ~ Re.contains "-" rest ->
  csv_name (pre ++ "trips" ++ rest) = Raise AttributeError.
Proof.
  intros Hp Hr. unfold csv_name. rewrite search_stem_none; [reflexivity|].
  intros a t E D. destruct (trips_after pre rest a t Hp E) as [x ->].
  apply Hr. now apply contains_dash_append.
Qed.

(** X5. For a link in which [trips] first occurs after [pre]: when a hyphen
    follows, the entry read from the archive is named by the text from
    [trips] to the last hyphen, with [.csv]; when no hyphen follows, the
    search finds nothing and taking its group raises [AttributeError]. *)
Theorem csv_name_outcomes (pre rest : string) :
  ~ Re.contains "trips" (pre ++ "trip") ->
  (forall mid suf,
     rest = mid ++ "-" ++ suf ->
     Re.no_newline mid = true -> ~ Re.contains "-" suf ->
     csv_name (pre ++ "trips" ++ rest) = Ok ("trips" ++ mid ++ ".csv"))
  /\ (~ Re.contains "-" rest ->
      csv_name (pre ++ "trips" ++ rest) = Raise AttributeError).
Proof.
  intros Hp. split.
  - intros mid suf -> Hm Hs. exact (csv_name_stem pre mid suf Hp Hm Hs).
  - intros Hr. exact (csv_name_without_hyphen pre rest Hp Hr).
Qed.

(** ** What [clean] does to the table *)

Lemma position_inj (c c' : string) (cols : list string) (p : nat) :
  position c cols = Some p -> position c' cols = Some p -> c = c'.
Proof.
  revert p. induction cols as [|h cols IH]; intros p; simpl; [discriminate|].
  destruct (String.eqb c h) eqn:E, (String.eqb c' h) eqn:E'.
  - apply String.eqb_eq in E, E'. congruence.
  - intros [= <-]. destruct (position c' cols); discriminate.
  - destruct (position c cols); simpl; [|discriminate].
    intros [= <-]. discriminate.
  - destruct (position c cols) as [q|] eqn:Q; [|discriminate].
    destruct (position c' cols) as [q'|] eqn:Q'; [|discriminate].
    simpl. intros [= <-] [= ->]. exact (IH q eq_refl eq_refl).
Qed.

Lemma set_column_index (p : nat) (rs : list (index_value * list value))
    (vals : list value) :
  map fst (set_column p rs vals) = map fst rs.
Proof.
  revert vals. induction rs as [|r rs IH]; intros [|v vals]; simpl;
    try reflexivity.
  now rewrite IH.
Qed.

Lemma set_column_other (p p' : nat) (rs : list (index_value * list value))
    (vals : list value) :
  p' <> p ->
  map (fun r => nth p' (snd r) NaN) (set_column p rs vals)
  = map (fun r => nth p' (snd r) NaN) rs.
Proof.
  intros Hne. revert vals. induction rs as [|r rs IH]; intros [|v vals];
    simpl; try reflexivity.
  now rewrite (nth_set_nth_other _ _ _ _ Hne), IH.
Qed.

Lemma set_column_same (p : nat) (rs : list (index_value * list value))
    (vals : list value) :
  series_map to_id (map (fun r => nth p (snd r) NaN) rs) = Ok vals ->
  map (fun r => nth p (snd r) NaN) (set_column p rs vals) = vals.
Proof.
  revert vals. induction rs as [|r rs IH]; intros vals H; simpl in H.
  - now injection H as <-.
  - destruct (to_id (nth p (snd r) NaN)) as [v|] eqn:V; [|discriminate].
    cbn [bind] in H.
    destruct (series_map to_id (map (fun r => nth p (snd r) NaN) rs))
      as [vs|] eqn:VS; [|discriminate].
    cbn [bind] in H. injection H as <-. simpl. rewrite (IH vs eq_refl).
    f_equal. destruct (nth_set_nth_same p v (snd r)) as [E|[E1 E2]];
      [exact E|].
    rewrite E1, E2. rewrite E2 in V. simpl in V. now injection V.
Qed.

Lemma series_map_again (col col' : list value) :
  series_map to_id col = Ok col' -> series_map to_id col' = Ok col'.
Proof.
  revert col'. induction col as [|v col IH]; intros col' H; simpl in H.
  - now injection H as <-.
  - destruct (to_id v) as [v'|] eqn:V; [|discriminate]. cbn [bind] in H.
    destruct (series_map to_id col) as [vs|]; [|discriminate].
    cbn [bind] in H. injection H as <-. simpl.
    now rewrite (to_id_idempotent _ _ V), (IH vs eq_refl).
Qed.

(** One turn of the loop: the column is mapped, nothing else moves. *)
Lemma clean_column_effect (c : string) (df df' : DataFrame) :
  clean_column c df = Ok df' ->
  columns df' = columns df /\ index df' = index df
  /\ (forall c', c' <> c -> getitem df' c' = getitem df c')
  /\ exists col col', getitem df c = Ok col
                      /\ series_map to_id col = Ok col'
                      /\ getitem df' c = Ok col'.
Proof.
  unfold clean_column, getitem, setitem, index.
  destruct (position c (columns df)) as [p|] eqn:P; [|discriminate].
  cbn [bind].
  destruct (series_map to_id (map (fun r => nth p (snd r) NaN) (rows df)))
    as [vals|] eqn:V; [|discriminate].
  cbn [bind]. intros [= <-]. cbn [columns rows].
  split; [reflexivity|]. split; [apply set_column_index|]. split.
  - intros c' Hne. destruct (position c' (columns df)) as [p'|] eqn:P';
      [|reflexivity].
    rewrite set_column_other; [reflexivity|].
    intros ->. apply Hne. exact (position_inj _ _ _ _ P' P).
  - eexists. exists vals. split; [reflexivity|]. split; [exact V|].
    rewrite P. now rewrite (set_column_same _ _ _ V).
Qed.

Lemma clean_columns_effect (names : list string) (df df1 : DataFrame) :
  clean_columns names df = (Ok tt, df1) ->
  columns df1 = columns df /\ index df1 = index df
  /\ (forall c, ~ In c names -> getitem df1 c = getitem df c)
  /\ (forall c, In c names ->
        exists col col', getitem df c = Ok col
                         /\ series_map to_id col = Ok col'
                         /\ getitem df1 c = Ok col').
Proof.
  revert df. induction names as [|h names IH]; intros df H; simpl in H.
  - injection H as <-. repeat split; auto. intros c [].
  - destruct (clean_column h df) as [df'|e] eqn:C; [|discriminate].
    destruct (clean_column_effect _ _ _ C)
      as (K1 & K2 & K3 & col & col' & G & S & G').
    destruct (IH _ H) as (J1 & J2 & J3 & J4).
    split; [congruence|]. split; [congruence|]. split.
    + intros c Hc. rewrite J3; [|intros Hin; apply Hc; now right].
      apply K3. intros ->. apply Hc. now left.
    + intros c Hc.
      destruct (string_dec c h) as [->|Hne].
      * exists col, col'. split; [exact G|]. split; [exact S|].
        destruct (in_dec string_dec h names) as [Hin|Hnin].
        -- destruct (J4 h Hin) as (a & a' & Ga & Sa & Ga').
           rewrite G' in Ga. injection Ga as <-.
           rewrite (series_map_again _ _ S) in Sa. now injection Sa as <-.
        -- now rewrite (J3 h Hnin).
      * destruct Hc as [->|Hc]; [congruence|].
        destruct (J4 c Hc) as (a & a' & Ga & Sa & Ga').
        exists a, a'. rewrite <- (K3 c Hne). auto.
Qed.

Lemma clean_unfold (self : BiciMad) :
  clean self
  = (fst (clean_columns id_columns (dropna_all (_data self))),
     mkBiciMad (_month self) (_year self)
       (snd (clean_columns id_columns (dropna_all (_data self))))).
Proof.
  unfold clean. now destruct (clean_columns _ _).
Qed.

(** The rows that [dropna] keeps are those with a cell that is not
    null. *)
Lemma dropna_all_kept (df : DataFrame) :
  dropna_all df
  = mkDataFrame (columns df)
      (filter (fun r => existsb (fun v => negb (isna v)) (snd r)) (rows df)).
Proof.
  unfold dropna_all. f_equal. apply filter_ext. intros r.
  induction (snd r) as [|v cells IH]; [reflexivity|].
  simpl. rewrite negb_andb. now rewrite IH.
Qed.

(** What the mapped function makes of each cell. *)
Lemma series_map_converted (col col' : list value) :
  series_map to_id col = Ok col' ->
  Forall2
    (fun old new =>
       match old with
       | VFloat f =>
           if is_nan f then new = old
           else exists z, int_of_float f = Ok z /\ new = VStr (str_of_Z z)
       | _ => new = old
       end) col col'.
Proof.
  revert col'. induction col as [|v col IH]; intros col' H; simpl in H.
  - injection H as <-. constructor.
  - destruct (to_id v) as [v'|] eqn:V; [|discriminate]. cbn [bind] in H.
    destruct (series_map to_id col) as [vs|]; [|discriminate].
    cbn [bind] in H. injection H as <-.
    constructor; [|exact (IH vs eq_refl)].
    destruct v as [|z|f|t]; simpl in V; try (now injection V as <-).
    destruct (is_nan f); simpl in V; [now injection V as <-|].
    destruct (int_of_float f) as [z|]; simpl in V; [|discriminate].
    injection V as <-. now exists z.
Qed.

(** X6. When [clean] returns, the object keeps its month and year, and
    its table is the old one without the rows that were null throughout:
    same columns; the rows kept are those with a cell that is not null,
    in their order and with their index labels; the cells of every column
    other than [fleet], [idBike], [station_lock] and [station_unlock] are
    untouched; and in each of these four a float that is a number has
    become the text of its integer part, every other cell being
    untouched. *)
Theorem clean_effect (self : BiciMad) :
  fst (clean self) = Ok tt ->
  let kept :=
    filter (fun r => existsb (fun v => negb (isna v)) (snd r))
      (rows (_data self)) in
  let before := mkDataFrame (columns (_data self)) kept in
  let after := _data (snd (clean self)) in
  _month (snd (clean self)) = _month self
  /\ _year (snd (clean self)) = _year self
  /\ columns after = columns (_data self)
  /\ map fst (rows after) = map fst kept
  /\ (forall c,
        ~ In c ["fleet"; "idBike"; "station_lock"; "station_unlock"] ->
        getitem after c = getitem before c)
  /\ (forall c,
        In c ["fleet"; "idBike"; "station_lock"; "station_unlock"] ->
        exists col col',
          getitem before c = Ok col /\ getitem after c = Ok col'
          /\ Forall2
               (fun old new =>
                  match old with
                  | VFloat f =>
                      if is_nan f then new = old
                      else exists z, int_of_float f = Ok z
                                     /\ new = VStr (str_of_Z z)
                  | _ => new = old
                  end) col col').
Proof.
  rewrite clean_unfold. cbn [fst snd _month _year _data]. intros H.
  destruct (clean_columns id_columns (dropna_all (_data self)))
    as [r df1] eqn:C.
  cbn [fst snd] in *. subst r.
  destruct (clean_columns_effect _ _ _ C) as (K1 & K2 & K3 & K4).
  unfold index in K2. rewrite dropna_all_kept in K1, K2, K3, K4.
  cbn [columns rows] in K1, K2.
  split; [reflexivity|]. split; [reflexivity|].
  split; [exact K1|]. split; [exact K2|]. split; [exact K3|].
  intros c Hc. destruct (K4 c Hc) as (col & col' & G & S & G').
  exists col, col'. split; [exact G|]. split; [exact G'|].
  exact (series_map_converted col col' S).
Qed.

Lemma clean_effect_witness :
  let kept :=
    filter (fun r => existsb (fun v => negb (isna v)) (snd r))
      (rows (_data Fixture.loaded)) in
  let before := mkDataFrame (columns (_data Fixture.loaded)) kept in
  let after := _data (snd (clean Fixture.loaded)) in
  _month (snd (clean Fixture.loaded)) = _month Fixture.loaded
  /\ _year (snd (clean Fixture.loaded)) = _year Fixture.loaded
  /\ columns after = columns (_data Fixture.loaded)
  /\ map fst (rows after) = map fst kept
  /\ (forall c,
        ~ In c ["fleet"; "idBike"; "station_lock"; "station_unlock"] ->
        getitem after c = getitem before c)
  /\ (forall c,
        In c ["fleet"; "idBike"; "station_lock"; "station_unlock"] ->
        exists col col',
          getitem before c = Ok col /\ getitem after c = Ok col'
          /\ Forall2
               (fun old new =>
                  match old with
                  | VFloat f =>
                      if is_nan f then new = old
                      else exists z, int_of_float f = Ok z
                                     /\ new = VStr (str_of_Z z)
                  | _ => new = old
                  end) col col').
Proof.
  apply (clean_effect Fixture.loaded). vm_compute. reflexivity.
Defined.

(** ** The tables that [clean] leaves alone *)

Lemma to_id_fixed (v : value) : to_id v = Ok v <-> float_number v = false.
Proof.
  destruct v as [|z|x|s]; simpl; try tauto.
  destruct (is_nan x); simpl; [tauto|].
  split; [|discriminate].
  destruct (int_of_float x); simpl; discriminate.
Qed.

Lemma settled_column (df : DataFrame) (c : string) (p : nat) :
  position c (columns df) = Some p ->
  (settled p df <->
   exists col, getitem df c = Ok col
               /\ forallb (fun v => negb (float_number v)) col = true).
Proof.
  intros P. unfold settled, getitem. rewrite P. split.
  - intros S. eexists. split; [reflexivity|].
    apply forallb_forall. intros v Hv. apply in_map_iff in Hv as (r & <- & Hr).
    rewrite Forall_forall in S. apply negb_true_iff, to_id_fixed. now apply S.
  - intros (col & [= <-] & F). apply Forall_forall. intros r Hr.
    apply to_id_fixed. rewrite forallb_forall in F.
    apply negb_true_iff. apply F. apply in_map_iff. now exists r.
Qed.

Lemma clean_columns_settles (names : list string) (df df1 : DataFrame) :
  clean_columns names df = (Ok tt, df1) ->
  forall c, In c names ->
    exists p, position c (columns df1) = Some p /\ settled p df1.
Proof.
  revert df. induction names as [|h names IH]; intros df H c Hc;
    [destruct Hc|].
  simpl in H. destruct (clean_column h df) as [df'|e] eqn:C; [|discriminate].
  destruct (clean_column_ok _ _ _ C) as (K1 & (p & P & S) & _).
  destruct (clean_columns_keeps _ _ _ _ H) as (J1 & J2 & _).
  destruct Hc as [<-|Hc]; [|exact (IH _ H c Hc)].
  exists p. split; [now rewrite J1, K1 | now apply J2].
Qed.

Lemma clean_columns_settled (names : list string) (df : DataFrame) :
  (forall c, In c names ->
     exists p, position c (columns df) = Some p /\ settled p df) ->
  clean_columns names df = (Ok tt, df).
Proof.
  induction names as [|h names IH]; intros H; [reflexivity|].
  simpl. destruct (H h (or_introl eq_refl)) as (p & P & S).
  rewrite (clean_column_settled h df p P S). apply IH.
  intros c Hc. apply H. now right.
Qed.

Lemma position_getitem (df : DataFrame) (c : string) (col : list value) :
  getitem df c = Ok col -> exists p, position c (columns df) = Some p.
Proof.
  unfold getitem. destruct (position c (columns df)) as [p|]; [|discriminate].
  now exists p.
Qed.

Lemma clean_cleaned (self : BiciMad) :
  fst (clean self) = Ok tt -> cleaned (_data (snd (clean self))).
Proof.
  rewrite clean_unfold. cbn [fst snd _data].
  destruct (clean_columns id_columns (dropna_all (_data self)))
    as [r df1] eqn:C.
  cbn [fst snd]. intros ->. split.
  - destruct (clean_columns_keeps _ _ _ _ C) as (_ & _ & N).
    apply N, dropna_all_no_null_row.
  - intros c Hc. destruct (clean_columns_settles _ _ _ C c Hc) as (p & P & S).
    now apply (settled_column df1 c p P).
Qed.

(** X7. [clean] leaves a table without a null row and with its four
    identifier columns free of float numbers; and the objects on which
    [clean] returns without changing anything are exactly those whose
    table is of that kind. *)
Theorem clean_fixed_points (self : BiciMad) :
  (fst (clean self) = Ok tt -> cleaned (_data (snd (clean self))))
  /\ (clean self = (Ok tt, self) <-> cleaned (_data self)).
Proof.
  split; [apply clean_cleaned|]. split.
  - intros E. pose proof (clean_cleaned self) as H. rewrite E in H.
    now apply H.
  - intros [N S]. rewrite clean_unfold.
    rewrite (dropna_all_same _ N).
    rewrite clean_columns_settled.
    + now destruct self.
    + intros c Hc. destruct (S c Hc) as (col & G & F).
      destruct (position_getitem _ _ _ G) as [p P].
      exists p. split; [exact P|].
      apply (settled_column _ c p P). now exists col.
Qed.

Lemma clean_fixed_points_witness :
  cleaned (_data (snd (clean Fixture.loaded))).
Proof.
  apply (proj1 (clean_fixed_points Fixture.loaded)). reflexivity.
Defined.

(** ** How [resume] fails, and that it can be repeated *)

Lemma existsb_false_filter (A : Type) (f : A -> bool) (l : list A) :
  existsb f l = false -> filter f l = [].
Proof.
  induction l as [|x l IH]; simpl; [reflexivity|].
  intros H. apply orb_false_elim in H as [Hx Hl]. now rewrite Hx, IH.
Qed.

Lemma value_counts_all_null (col : list value) :
  existsb (fun v => negb (isna v)) col = false -> value_counts col = [].
Proof.
  intros H. unfold value_counts. now rewrite (existsb_false_filter _ _ _ H).
Qed.

(** X8. On a table that cleans, [resume] fails in this order: with the
    [KeyError] of [trip_minutes] when that column is missing; with
    [TypeError] when it holds text; with the [KeyError] of
    [address_unlock] when that column is missing; with [IndexError] when
    every address is null.  In each case the object is left cleaned. *)
Theorem resume_failures (w : World) (self : BiciMad) (df : DataFrame) :
  fst (data self) = Ok df ->
  (~ In "trip_minutes" (columns df) ->
   fst (resume w self) = Raise (KeyError "trip_minutes"))
  /\ (forall tm, getitem df "trip_minutes" = Ok tm ->
        existsb is_text tm = true ->
        fst (resume w self) = Raise TypeError)
  /\ (forall tm, getitem df "trip_minutes" = Ok tm ->
        existsb is_text tm = false ->
        ~ In "address_unlock" (columns df) ->
        fst (resume w self) = Raise (KeyError "address_unlock"))
  /\ (forall tm au, getitem df "trip_minutes" = Ok tm ->
        existsb is_text tm = false ->
        getitem df "address_unlock" = Ok au ->
        existsb (fun v => negb (isna v)) au = false ->
        fst (resume w self) = Raise IndexError)
  /\ snd (resume w self) = snd (clean self).
Proof.
  intros D. destruct (data_Ok w _ _ D) as [_ R]. rewrite R. cbn [fst snd].
  split; [|split; [|split; [|split]]]; try reflexivity.
  - intros H. apply position_none in H. unfold summary_of, getitem.
    now rewrite H.
  - intros tm G T. unfold summary_of, sum_div_60. rewrite G. cbn [bind].
    now rewrite T.
  - intros tm G T H.
    unfold summary_of, sum_div_60. rewrite G. cbn [bind]. rewrite T.
    cbn [bind]. apply position_none in H. unfold getitem.
    now rewrite H.
  - intros tm au G T Ga N.
    unfold summary_of, sum_div_60. rewrite G. cbn [bind]. rewrite T.
    cbn [bind]. rewrite Ga. cbn [bind].
    now rewrite (value_counts_all_null au N).
Qed.

Lemma resume_failures_witness :
  fst (resume (Fixture.mock_world 200) Fixture.no_trips) = Raise IndexError
  /\ snd (resume (Fixture.mock_world 200) Fixture.no_trips)
     = snd (clean Fixture.no_trips).
Proof.
  destruct (resume_failures (Fixture.mock_world 200) Fixture.no_trips
              (mkDataFrame allowed_columns []) eq_refl)
    as (_ & _ & _ & H & S).
  split; [|exact S].
  apply (H [] []); reflexivity.
Defined.

Lemma data_again (self : BiciMad) : data (snd (clean self)) = data self.
Proof.
  unfold data. rewrite clean_again. now destruct (clean self) as [[u|e] s].
Qed.

Lemma snd_data (self : BiciMad) : snd (data self) = snd (clean self).
Proof.
  unfold data. now destruct (clean self) as [[u|e] s].
Qed.

Lemma snd_resume (w : World) (self : BiciMad) :
  snd (resume w self) = snd (clean self).
Proof.
  unfold resume. rewrite <- snd_data. now destruct (data self) as [[d|e] s].
Qed.

(** X9. [resume] and [data] can be repeated and mixed: after a first call
    of either, [resume] gives the same summary, or raises the same
    exception, and leaves the object as that first call left it. *)
Theorem resume_repeatable (w : World) (self : BiciMad) :
  resume w (snd (resume w self)) = resume w self
  /\ resume w (snd (data self)) = resume w self
  /\ data (snd (resume w self)) = data self.
Proof.
  assert (R : resume w (snd (clean self)) = resume w self).
  { unfold resume. now rewrite data_again. }
  rewrite snd_resume, snd_data, data_again. auto.
Qed.

(** ** The shape of the table that [get_data] returns *)

Lemma set_index_length (rs : list (index_value * list value))
    (labels : list index_value) :
  List.length (set_index rs labels) = List.length rs.
Proof.
  revert labels. induction rs as [|r rs IH]; intros [|l labels]; simpl;
    try reflexivity.
  now rewrite IH.
Qed.

Lemma select_length (keep : string -> bool) (cols : list string)
    (cells : list value) :
  List.length cells = List.length cols ->
  List.length (select keep cols cells) = List.length (filter keep cols).
Proof.
  revert cells. induction cols as [|c cols IH]; intros [|x cells] H;
    simpl in *; try discriminate; [reflexivity|].
  injection H as H. destruct (keep c); simpl; now rewrite IH.
Qed.

Lemma keep_allowed_rows (w : World) (df : DataFrame) :
  map snd (rows (keep_allowed w df))
  = map (select (fun c => negb (mem c
           (filter (fun column => negb (mem column allowed_columns))
              (columns df))))
           (columns df))
      (map snd (rows df)).
Proof.
  unfold keep_allowed. cbn [rows]. rewrite set_index_cells.
  unfold drop. cbn [rows]. now rewrite !map_map.
Qed.

(** X10. The table that [get_data] makes of a parsed table with distinct
    column labels has distinct labels, at most fifteen of them, and as
    many rows as were parsed: no row is dropped at this stage.  When every
    parsed row has one cell for each column, so has every row returned. *)
Theorem get_data_shape (w : World) (month year : pyarg)
    (url_emt : UrlEMT) (csv : string) (df : DataFrame) :
  UrlEMT_init w = Ok url_emt ->
  get_csv w url_emt month year = Ok csv ->
  read_csv w csv ";" "fecha" = Ok df ->
  NoDup (columns df) ->
  exists df',
    get_data w month year = Ok df'
    /\ NoDup (columns df')
    /\ (List.length (columns df') <= 15)%nat
    /\ List.length (rows df') = List.length (rows df)
    /\ (Forall (fun r => List.length (snd r) = List.length (columns df))
          (rows df) ->
        Forall (fun r => List.length (snd r) = List.length (columns df'))
          (rows df')).
Proof.
  intros I C R N. exists (keep_allowed w df).
  split; [unfold get_data; rewrite I; cbn [bind]; rewrite C; cbn [bind];
          now rewrite R|].
  assert (ND : NoDup (columns (keep_allowed w df))).
  { rewrite keep_allowed_columns. now apply NoDup_filter. }
  split; [exact ND|]. split; [|split].
  - change 15%nat with (List.length allowed_columns).
    apply NoDup_incl_length; [exact ND|].
    intros c Hc. rewrite keep_allowed_columns in Hc.
    apply filter_In in Hc as [_ Hc]. now apply mem_In.
  - unfold keep_allowed. cbn [rows]. rewrite set_index_length.
    unfold drop. cbn [rows]. apply length_map.
  - intros F.
    assert (G : Forall (fun cells => List.length cells
                                     = List.length (columns (keep_allowed w df)))
                  (map snd (rows (keep_allowed w df)))).
    { rewrite keep_allowed_rows. apply Forall_map. apply Forall_map.
      revert F. apply Forall_impl. intros r Hr.
      rewrite (select_length _ _ _ Hr). reflexivity. }
    now apply Forall_map in G.
Qed.

Lemma get_data_shape_witness :
  exists df',
    get_data (Fixture.mock_world 200) (AInt 1) (AInt 23) = Ok df'
    /\ NoDup (columns df')
    /\ (List.length (columns df') <= 15)%nat
    /\ List.length (rows df') = List.length (rows Fixture.raw_table)
    /\ (Forall (fun r => List.length (snd r)
                         = List.length (columns Fixture.raw_table))
          (rows Fixture.raw_table) ->
        Forall (fun r => List.length (snd r) = List.length (columns df'))
          (rows df')).
Proof.
  apply (get_data_shape (Fixture.mock_world 200) (AInt 1) (AInt 23)
           (mkUrlEMT (List.rev (get_links Fixture.emt_datos)))
           "fecha;idBike;fleet" Fixture.raw_table);
    try (vm_compute; reflexivity).
  assert (E : nodup string_dec (columns Fixture.raw_table)
              = columns Fixture.raw_table) by (vm_compute; reflexivity).
  rewrite <- E. apply NoDup_nodup.
Defined.

(** ** The key that [get_url] looks for *)

(** X11. The key is [trips_], the year as [str] writes it, an underscore,
    and the month padded with a zero to two digits: a month from 0 to 9
    gets the zero, any other month is written as [str] writes it.  The
    year is never padded. *)
Theorem trips_key_padding (month year : Z) :
  trips_key (AInt month) (AInt year)
  = Ok ("trips_" ++ str_of_Z year ++ "_"
        ++ (if (0 <=? month)%Z && (month <=? 9)%Z
            then "0" ++ str_of_Z month else str_of_Z month)).
Proof.
  unfold trips_key, format_02.
  destruct (month <? 0)%Z eqn:Neg.
  - apply Z.ltb_lt in Neg. destruct month as [|p|p]; try lia.
    cbn [bind Z.abs]. now rewrite str_of_Z_neg.
  - apply Z.ltb_ge in Neg. replace (0 <=? month)%Z with true
      by (symmetry; now apply Z.leb_le).
    rewrite Z.abs_eq by exact Neg. cbn [andb].
    destruct (month <=? 9)%Z eqn:Small.
    + apply Z.leb_le in Small.
      assert (C : (month = 0 \/ month = 1 \/ month = 2 \/ month = 3
                   \/ month = 4 \/ month = 5 \/ month = 6 \/ month = 7
                   \/ month = 8 \/ month = 9)%Z) by lia.
      repeat destruct C as [->|C]; try subst month; reflexivity.
    + apply Z.leb_gt in Small.
      pose proof (length_str_of_Z month ltac:(lia)) as L.
      replace (Nat.ltb (String.length (str_of_Z month)) 2) with false
        by (symmetry; apply Nat.ltb_ge; exact L).
      reflexivity.
Qed.

Lemma csv_name_outcomes_witness :
  csv_name Fixture.january = Ok "trips_23_01_January.csv"
  /\ csv_name "/getattachment/20b8509b-97a8-4831-b9d2-4900322e1714/trips_23_01.aspx"
     = Raise AttributeError.
Proof.
  assert (P : ~ Re.contains "trips"
                ("/getattachment/20b8509b-97a8-4831-b9d2-4900322e1714/"
                 ++ "trip")).
  { intros H. apply contains_occurs in H. vm_compute in H. discriminate. }
  split.
  - apply (proj1 (csv_name_outcomes
                    "/getattachment/20b8509b-97a8-4831-b9d2-4900322e1714/"
                    "_23_01_January-csv.aspx" P) "_23_01_January" "csv.aspx");
      try reflexivity.
    intros H. apply contains_occurs in H. vm_compute in H. discriminate.
  - apply (proj2 (csv_name_outcomes
                    "/getattachment/20b8509b-97a8-4831-b9d2-4900322e1714/"
                    "_23_01.aspx" P)).
    intros H. apply contains_occurs in H. vm_compute in H. discriminate.
Defined.

(** ** The links of a page with one anchor on a line *)

Lemma match_here_length (r : Re.regex) :
  forall s n, Re.match_here r s = Some n -> (n <= String.length s)%nat.
Proof.
  induction r as [|[a|a] r IH].
  - intros s n [= <-]. lia.
  - intros [|c s] n H; simpl in H; [discriminate|].
    destruct (Re.atom_match a c); [|discriminate].
    destruct (Re.match_here r s) as [k|] eqn:K; [|discriminate].
    injection H as <-. specialize (IH _ _ K). simpl. lia.
  - induction s as [|c s IHs]; intros n H.
    + rewrite match_here_star_empty in H. exact (IH _ _ H).
    + rewrite match_here_star_cons in H.
      destruct (Re.atom_match a c); [|exact (IH _ _ H)].
      destruct (Re.match_here (Re.Star a :: r) s) as [k|] eqn:K;
        [|exact (IH _ _ H)].
      injection H as <-. specialize (IHs _ eq_refl). simpl. lia.
Qed.

Lemma atom_match_newline (a : Re.atom) :
  Re.crosses_newline (Re.One a) = false ->
  Re.atom_match a Re.newline = false.
Proof.
  destruct a as [d|]; simpl; [tauto|reflexivity].
Qed.

(** The matcher does not see past the end of the line. *)
Lemma match_here_line (r : Re.regex) (rest : string) :
  forallb (fun it => negb (Re.crosses_newline it)) r = true ->
  forall s, Re.no_newline s = true ->
    Re.match_here r (s ++ String Re.newline rest) = Re.match_here r s.
Proof.
  induction r as [|[a|a] r IH]; intros Hr; [reflexivity| |];
    simpl in Hr; apply andb_prop in Hr as [Ha Hr];
    apply negb_true_iff in Ha; specialize (IH Hr).
  - intros [|c s] Hs.
    + simpl. now rewrite (atom_match_newline a Ha).
    + simpl in Hs. apply andb_prop in Hs as [_ Hs].
      simpl. now rewrite (IH s Hs).
  - induction s as [|c s IHs]; intros Hs.
    + change ("" ++ String Re.newline rest) with (String Re.newline rest).
      rewrite match_here_star_cons, match_here_star_empty.
      rewrite (atom_match_newline a Ha). exact (IH "" eq_refl).
    + pose proof Hs as Hs'. simpl in Hs'. apply andb_prop in Hs' as [_ Hs'].
      change (String c s ++ String Re.newline rest)
        with (String c (s ++ String Re.newline rest)).
      rewrite !match_here_star_cons, (IHs Hs').
      change (String c (s ++ String Re.newline rest))
        with (String c s ++ String Re.newline rest).
      now rewrite (IH (String c s) Hs).
Qed.

Lemma substring_append_prefix (n : nat) (a b : string) :
  (n <= String.length a)%nat -> substring 0 n (a ++ b) = substring 0 n a.
Proof.
  revert n. induction a as [|c a IH]; intros [|n] H; simpl in *;
    try lia; try reflexivity.
  - now destruct b.
  - rewrite IH; [reflexivity | lia].
Qed.

(** The matches of a page: those of its first line, then those of the
    rest. *)
Lemma finditer_from_line (r : Re.regex) (rest : string) :
  forallb (fun it => negb (Re.crosses_newline it)) r = true ->
  Re.match_here r "" = None ->
  forall s skip, Re.no_newline s = true -> (skip <= String.length s)%nat ->
    Re.finditer_from r skip (s ++ String Re.newline rest)
    = (Re.finditer_from r skip s ++ Re.finditer_from r 0 rest)%list.
Proof.
  intros Hr He. induction s as [|c s IH]; intros skip Hs Hk.
  - simpl in Hk. assert (skip = 0%nat) as -> by lia.
    change ("" ++ String Re.newline rest) with (String Re.newline rest).
    cbn [Re.finditer_from].
    pose proof (match_here_line r rest Hr "" eq_refl) as M.
    change ("" ++ String Re.newline rest) with (String Re.newline rest) in M.
    now rewrite M, He.
  - pose proof Hs as Hs'. simpl in Hs'. apply andb_prop in Hs' as [_ Hs'].
    change (String c s ++ String Re.newline rest)
      with (String c (s ++ String Re.newline rest)).
    destruct skip as [|k]; cbn [Re.finditer_from].
    + change (String c (s ++ String Re.newline rest))
        with (String c s ++ String Re.newline rest).
      rewrite (match_here_line r rest Hr (String c s) Hs).
      destruct (Re.match_here r (String c s)) as [n|] eqn:M.
      * pose proof (match_here_length r _ _ M) as L.
        rewrite (substring_append_prefix n (String c s) _ L).
        rewrite IH; [reflexivity | exact Hs' | simpl in L; lia].
      * apply IH; [exact Hs' | lia].
    + apply IH; [exact Hs' | simpl in Hk; lia].
Qed.

Lemma aspx_matcher_none (u : string) :
  ~ Re.contains "aspx" u ->
  Re.match_here (Re.Star Re.Dot :: Re.lits "aspx") u = None.
Proof.
  intros H.
  destruct (Re.match_here (Re.Star Re.Dot :: Re.lits "aspx") u) as [n|] eqn:M;
    [|reflexivity].
  exfalso. apply H.
  apply match_here_star_split in M as (pre & t & m & -> & M & _).
  apply (match_here_lits "aspx" []) in M as (t' & _ & -> & _).
  now exists pre, t'.
Qed.

(** The second [.*] runs to the last [aspx] of the line. *)
Lemma match_here_to_last_aspx (z post : string) :
  Re.no_newline z = true -> ~ Re.contains "aspx" ("spx" ++ post) ->
  Re.match_here (Re.Star Re.Dot :: Re.lits "aspx") (z ++ "aspx" ++ post)
  = Some (String.length z + 4)%nat.
Proof.
  intros Hz Hp. induction z as [|c z IH].
  - change ("" ++ "aspx" ++ post) with (String "a" ("spx" ++ post)).
    rewrite match_here_star_cons, (aspx_matcher_none _ Hp). reflexivity.
  - simpl in Hz. apply andb_prop in Hz as [Hc Hz].
    change (String c z ++ "aspx" ++ post)
      with (String c (z ++ "aspx" ++ post)).
    rewrite match_here_star_cons. simpl Re.atom_match. rewrite Hc.
    now rewrite (IH Hz).
Qed.

Lemma append_split (a b c d : string) :
  a ++ b = c ++ d ->
  (exists e, a = c ++ e /\ d = e ++ b) \/ (exists e, c = a ++ e /\ b = e ++ d).
Proof.
  revert c. induction a as [|x a IH]; intros c E.
  - right. now exists c.
  - destruct c as [|y c].
    + left. now exists (String x a).
    + simpl in E. injection E as <- E.
      destruct (IH c E) as [(e & -> & ->)|(e & -> & ->)];
        [left | right]; now exists e.
Qed.

(** A tail of the line that contains [aspx] reaches back to the last one. *)
Lemma tail_with_aspx (pfx t b post : string) :
  pfx ++ t = b ++ "aspx" ++ post ->
  Re.contains "aspx" t -> ~ Re.contains "aspx" ("spx" ++ post) ->
  exists e, t = e ++ "aspx" ++ post.
Proof.
  intros E Ht Hp.
  destruct (append_split _ _ _ _ E) as [(e & -> & E')|(e & -> & ->)].
  - destruct e as [|c e].
    + now exists "".
    + exfalso. apply Hp. simpl in E'. injection E' as <- E'.
      destruct Ht as (u & v & ->).
      exists (e ++ u), v. simpl. rewrite E'. now rewrite append_assoc.
  - now exists e.
Qed.

(** From the start of a link to the last [aspx] of the line. *)
Lemma match_here_link (x y post : string) :
  Re.no_newline (x ++ "trips" ++ y ++ "aspx" ++ post) = true ->
  ~ Re.contains "aspx" ("spx" ++ post) ->
  Re.match_here
    (Re.Star Re.Dot :: Re.lits "trips" ++ Re.Star Re.Dot :: Re.lits "aspx")%list
    (x ++ "trips" ++ y ++ "aspx" ++ post)
  = Some (String.length (x ++ "trips" ++ y ++ "aspx")).
Proof.
  intros Hn Hp.
  pose proof Hn as Hn'. rewrite !no_newline_append in Hn'.
  apply andb_prop in Hn' as [Hx Hn']. apply andb_prop in Hn' as [_ Hn'].
  apply andb_prop in Hn' as [Hy _].
  destruct (Re.match_here _ (x ++ "trips" ++ y ++ "aspx" ++ post))
    as [n|] eqn:M.
  - f_equal.
    apply match_here_star_split in M as (pre & t & m & E & M & ->).
    apply match_here_lits in M as (t1 & m1 & -> & M & ->).
    assert (C : Re.contains "aspx" t1).
    { pose proof M as M'.
      apply match_here_star_split in M' as (u & t2 & m2 & -> & M' & _).
      apply (match_here_lits "aspx" []) in M' as (t3 & _ & -> & _).
      now exists u, t3. }
    assert (E2 : (pre ++ "trips") ++ t1 = (x ++ "trips" ++ y) ++ "aspx" ++ post).
    { rewrite !append_assoc. now rewrite <- E. }
    destruct (tail_with_aspx _ _ _ _ E2 C Hp) as [e ->].
    assert (He : Re.no_newline e = true).
    { rewrite E in Hn. rewrite !no_newline_append in Hn.
      apply andb_prop in Hn as [_ Hn]. apply andb_prop in Hn as [_ Hn].
      now apply andb_prop in Hn as [He _]. }
    rewrite (match_here_to_last_aspx e post He Hp) in M. injection M as <-.
    apply (f_equal String.length) in E.
    rewrite !length_append in *. simpl in *. lia.
  - exfalso. apply (match_here_star_none _ _ _ Hx) in M.
    rewrite match_here_lits_append in M.
    now rewrite (match_here_to_last_aspx y post Hy Hp) in M.
Qed.

Lemma match_here_anchor (x y post : string) :
  Re.no_newline (x ++ "trips" ++ y ++ "aspx" ++ post) = true ->
  ~ Re.contains "aspx" ("spx" ++ post) ->
  Re.match_here urls_re (href_open ++ (x ++ "trips" ++ y ++ "aspx") ++ post)
  = Some (String.length (href_open ++ x ++ "trips" ++ y ++ "aspx")).
Proof.
  intros Hn Hp. unfold urls_re.
  rewrite match_here_lits_append.
  replace ((x ++ "trips" ++ y ++ "aspx") ++ post)
    with (x ++ "trips" ++ y ++ "aspx" ++ post)
    by (now rewrite !append_assoc).
  change ([Re.Star Re.Dot] ++ Re.lits "trips" ++ [Re.Star Re.Dot]
          ++ Re.lits "aspx")%list
    with (Re.Star Re.Dot :: Re.lits "trips"
          ++ Re.Star Re.Dot :: Re.lits "aspx")%list.
  rewrite (match_here_link x y post Hn Hp). simpl.
  now rewrite length_append.
Qed.

Lemma contains_append_l (w x t : string) :
  Re.contains w t -> Re.contains w (x ++ t).
Proof.
  intros (a & b & ->). exists (x ++ a), b. now rewrite append_assoc.
Qed.

Lemma finditer_from_skip (r : Re.regex) (a b : string) :
  Re.finditer_from r (String.length a) (a ++ b) = Re.finditer_from r 0 b.
Proof.
  induction a as [|c a IH]; [reflexivity | exact IH].
Qed.

Lemma not_contains_cons (w s : string) (c : ascii) :
  ~ Re.contains w (String c s) -> ~ Re.contains w s.
Proof.
  intros H Hs. apply H. now apply contains_cons.
Qed.

(** Where the word that every match contains does not occur, nothing is
    found. *)
Lemma finditer_from_nothing (r : Re.regex) (w s : string) :
  (forall u n, Re.match_here r u = Some n -> Re.contains w u) ->
  ~ Re.contains w s -> Re.finditer_from r 0 s = [].
Proof.
  intros Hr. induction s as [|c s IH]; intros H; cbn [Re.finditer_from].
  - destruct (Re.match_here r "") as [n|] eqn:M; [|reflexivity].
    exfalso. exact (H (Hr _ _ M)).
  - destruct (Re.match_here r (String c s)) as [n|] eqn:M.
    + exfalso. exact (H (Hr _ _ M)).
    + apply IH. exact (not_contains_cons _ _ _ H).
Qed.

Lemma urls_re_needs (u : string) (n : nat) :
  Re.match_here urls_re u = Some n ->
  Re.contains "trips" u /\ Re.contains "aspx" u.
Proof.
  intros M. apply urls_re_match in M as (x & y & t & -> & _). split.
  - exists (href_open ++ x), (y ++ "aspx" ++ t). now rewrite !append_assoc.
  - exists (href_open ++ x ++ "trips" ++ y), t. now rewrite !append_assoc.
Qed.

Lemma href_prefix (x : string) (c : ascii) (y t : string) :
  String c x ++ href_open ++ y = href_open ++ t ->
  Re.contains href_open (String c x ++ "href=").
Proof.
  intros E. unfold href_open in *.
  destruct x as [|x1 [|x2 [|x3 [|x4 [|x5 x]]]]]; simpl in E;
    try discriminate.
  injection E as -> -> -> -> -> -> _.
  now exists "", (x ++ "href=").
Qed.

(** The one match of an anchor line. *)
Lemma finditer_anchor (pre x y post : string) :
  Re.no_newline (x ++ "trips" ++ y ++ "aspx" ++ post) = true ->
  ~ Re.contains href_open (pre ++ "href=") ->
  ~ Re.contains "aspx" ("spx" ++ post) ->
  Re.finditer_from urls_re 0
    (pre ++ href_open ++ (x ++ "trips" ++ y ++ "aspx") ++ post)
  = [href_open ++ x ++ "trips" ++ y ++ "aspx"].
Proof.
  intros Hn Hpre Hpost. set (link := x ++ "trips" ++ y ++ "aspx").
  induction pre as [|c pre IH].
  - change ("" ++ href_open ++ link ++ post) with (href_open ++ link ++ post).
    pose proof (match_here_anchor x y post Hn Hpost) as M. fold link in M.
    change (href_open ++ link ++ post)
      with (String "h" ("ref=" ++ String Re.dquote (link ++ post))) in *.
    cbn [Re.finditer_from]. rewrite M. f_equal.
    + change (String "h" ("ref=" ++ String Re.dquote (link ++ post)))
        with (href_open ++ link ++ post).
      rewrite <- append_assoc. apply substring_prefix.
    + change (Nat.pred (String.length (href_open ++ link)))
        with (String.length (("ref=" ++ String Re.dquote EmptyString) ++ link)).
      change ("ref=" ++ String Re.dquote (link ++ post))
        with ((("ref=" ++ String Re.dquote EmptyString) ++ link) ++ post).
      rewrite finditer_from_skip.
      apply (finditer_from_nothing urls_re "aspx").
      * intros u n Hu. exact (proj2 (urls_re_needs u n Hu)).
      * intros H. apply Hpost. exact (contains_append_l "aspx" "spx" post H).
  - change (String c pre ++ href_open ++ link ++ post)
      with (String c (pre ++ href_open ++ link ++ post)).
    cbn [Re.finditer_from].
    destruct (Re.match_here urls_re (String c (pre ++ href_open ++ link ++ post)))
      as [n|] eqn:M.
    + exfalso. apply Hpre. unfold urls_re in M.
      apply match_here_lits in M as (t & _ & E & _).
      exact (href_prefix pre c (link ++ post) t E).
    + apply IH. exact (not_contains_cons _ _ _ Hpre).
Qed.

Lemma finditer_line_ok (l : line) :
  line_ok l ->
  Re.finditer_from urls_re 0 (line_text l)
  = map (append href_open) (line_links l).
Proof.
  destruct l as [txt|pre link post]; intros [Hn H]; cbn [line_text line_links].
  - apply (finditer_from_nothing urls_re "trips"); [|exact (proj1 H)].
    intros u n Hu. exact (proj1 (urls_re_needs u n Hu)).
  - destruct H as (Hpre & _ & (x & y & ->) & Hpost & _). cbn [line_text] in Hn.
    rewrite (no_newline_append pre) in Hn.
    apply andb_prop in Hn as [_ Hn].
    rewrite (no_newline_append href_open) in Hn.
    apply andb_prop in Hn as [_ Hn].
    rewrite (append_assoc x), (append_assoc "trips"), (append_assoc y) in Hn.
    rewrite (finditer_anchor pre x y (String Re.dquote post) Hn Hpre Hpost).
    reflexivity.
Qed.

Lemma finditer_page (ls : list line) :
  Forall line_ok ls ->
  Re.finditer urls_re (page ls)
  = flat_map (fun l => map (append href_open) (line_links l)) ls.
Proof.
  unfold Re.finditer. induction 1 as [|l ls Hl Hls IH]; [reflexivity|].
  cbn [page flat_map]. destruct ls as [|l2 ls].
  - rewrite (finditer_line_ok l Hl). now rewrite app_nil_r.
  - rewrite (finditer_from_line urls_re _ eq_refl eq_refl (line_text l) 0
               (proj1 Hl) (Nat.le_0_l _)).
    now rewrite (finditer_line_ok l Hl), IH.
Qed.

Lemma group_link_href (link : string) :
  group_link (href_open ++ link) = link.
Proof.
  unfold group_link. rewrite length_append.
  replace (String.length href_open + String.length link - 6)%nat
    with (String.length link) by (simpl; lia).
  apply (substring_suffix href_open link).
Qed.

Lemma set_add_In (u x : string) (s : list string) :
  In u (set_add x s) <-> u = x \/ In u s.
Proof.
  unfold set_add. destruct (mem x s) eqn:M.
  - apply mem_In in M. split; [auto|]. intros [->|H]; auto.
  - rewrite in_app_iff. simpl. intuition congruence.
Qed.

Lemma fold_set_add_In (u : string) (l acc : list string) :
  In u (fold_left (fun urls h => set_add h urls) l acc)
  <-> In u acc \/ In u l.
Proof.
  revert acc. induction l as [|h l IH]; intros acc; simpl; [tauto|].
  rewrite IH, set_add_In. intuition congruence.
Qed.

(** The links that the code collects on such a page. *)
Lemma get_links_page (ls : list line) :
  Forall line_ok ls ->
  get_links (page ls)
  = fold_left (fun urls link => set_add link urls)
      (flat_map line_links ls) [].
Proof.
  intros H. unfold get_links. rewrite (finditer_page ls H).
  generalize (@nil string). clear H.
  induction ls as [|l ls IH]; intros acc; [reflexivity|].
  cbn [flat_map]. rewrite !fold_left_app, <- IH. f_equal.
  destruct l as [txt|pre link post]; [reflexivity|].
  cbn [line_links map fold_left]. now rewrite group_link_href.
Qed.

(** *** The values of the attributes [href] of such a page *)

Lemma until_quote_closed (b t : string) :
  Re.contains (String Re.dquote EmptyString) b ->
  Spec.until_quote (b ++ t) = Spec.until_quote b.
Proof.
  intros (a & c & ->). induction a as [|x a IH]; [reflexivity|].
  change ((String x a ++ String Re.dquote EmptyString ++ c) ++ t)
    with (String x ((a ++ String Re.dquote EmptyString ++ c) ++ t)).
  change (String x a ++ String Re.dquote EmptyString ++ c)
    with (String x (a ++ String Re.dquote EmptyString ++ c)).
  cbn [Spec.until_quote]. destruct (Ascii.eqb x Re.dquote); [reflexivity|].
  now rewrite IH.
Qed.

Lemma until_quote_value (link rest : string) :
  ~ Re.contains (String Re.dquote EmptyString) link ->
  Spec.until_quote (link ++ String Re.dquote rest) = link.
Proof.
  induction link as [|x link IH]; intros H; [reflexivity|].
  change (String x link ++ String Re.dquote rest)
    with (String x (link ++ String Re.dquote rest)).
  cbn [Spec.until_quote]. destruct (Ascii.eqb x Re.dquote) eqn:E.
  - exfalso. apply H. apply Ascii.eqb_eq in E. subst x. now exists "", link.
  - rewrite IH; [reflexivity|]. exact (not_contains_cons _ _ _ H).
Qed.

Lemma until_quote_prefix (s : string) :
  exists c, s = Spec.until_quote s ++ c.
Proof.
  induction s as [|x s [c IH]]; [now exists ""|].
  cbn [Spec.until_quote]. destruct (Ascii.eqb x Re.dquote).
  - now exists (String x s).
  - exists c. simpl. now rewrite <- IH.
Qed.

Lemma href_values_cons (c : ascii) (s : string) :
  Spec.href_values (String c s)
  = if prefix href_open (String c s)
    then Spec.until_quote (group_link (String c s)) :: Spec.href_values s
    else Spec.href_values s.
Proof. reflexivity. Qed.

Lemma prefix_href_open (b : string) : prefix href_open (href_open ++ b) = true.
Proof. apply prefix_correct, substring_prefix. Qed.

(** Every value is a part of the page. *)
Lemma href_values_contains (v t : string) :
  In v (Spec.href_values t) -> Re.contains v t.
Proof.
  induction t as [|c t IH]; [intros []|].
  rewrite href_values_cons.
  destruct (prefix href_open (String c t)) eqn:P.
  - intros [<-|H]; [|now apply contains_cons, IH].
    destruct (prefix_append _ _ P) as [b ->]. rewrite group_link_href.
    destruct (until_quote_prefix b) as [r E].
    exists href_open, r. now rewrite <- E.
  - intros H. now apply contains_cons, IH.
Qed.

Lemma href_values_none (t : string) :
  ~ Re.contains href_open t -> Spec.href_values t = [].
Proof.
  induction t as [|c t IH]; intros H; [reflexivity|].
  rewrite href_values_cons.
  destruct (prefix href_open (String c t)) eqn:P.
  - exfalso. apply H. destruct (prefix_append _ _ P) as [b ->].
    now exists "", b.
  - apply IH. exact (not_contains_cons _ _ _ H).
Qed.

(** An attribute does not open across the end of a line. *)
Lemma prefix_line (p a r : string) :
  Re.no_newline p = true ->
  p <> EmptyString ->
  prefix p (a ++ String Re.newline r) = prefix p a.
Proof.
  revert a. induction p as [|c p IH]; intros a Hn Hp; [congruence|].
  simpl in Hn. apply andb_prop in Hn as [Hc Hn].
  destruct a as [|d a].
  - simpl. destruct (ascii_dec c Re.newline) as [->|]; [|reflexivity].
    rewrite Ascii.eqb_refl in Hc. discriminate.
  - change (String d a ++ String Re.newline r)
      with (String d (a ++ String Re.newline r)).
    cbn [prefix]. destruct (ascii_dec c d); [|reflexivity].
    destruct p as [|c' p]; [now destruct a|].
    apply IH; [exact Hn | discriminate].
Qed.

Lemma closed_tail (c : ascii) (t : string) : closed (String c t) -> closed t.
Proof.
  intros H a b E. apply (H (String c a) b). simpl. now rewrite E.
Qed.

Lemma closed_none (t : string) : ~ Re.contains href_open t -> closed t.
Proof.
  intros H a b E. exfalso. apply H. now exists a, b.
Qed.

(** The values that open on a line whose attributes are closed on it are
    those of the line alone; the rest of the page adds its own. *)
Lemma href_values_line (t rest : string) :
  Re.no_newline t = true -> closed t ->
  Spec.href_values (t ++ String Re.newline rest)
  = (Spec.href_values t ++ Spec.href_values rest)%list.
Proof.
  induction t as [|c t IH]; intros Hn Hc.
  - change ("" ++ String Re.newline rest) with (String Re.newline rest).
    rewrite href_values_cons.
    change (String Re.newline rest) with ("" ++ String Re.newline rest) at 1.
    rewrite (prefix_line href_open "" rest eq_refl); [reflexivity|discriminate].
  - change (String c t ++ String Re.newline rest)
      with (String c (t ++ String Re.newline rest)).
    rewrite !href_values_cons.
    change (String c (t ++ String Re.newline rest))
      with (String c t ++ String Re.newline rest).
    rewrite (prefix_line href_open (String c t) rest eq_refl);
      [|discriminate].
    simpl in Hn. apply andb_prop in Hn as [_ Hn].
    rewrite (IH Hn (closed_tail _ _ Hc)).
    destruct (prefix href_open (String c t)) eqn:P; [|reflexivity].
    destruct (prefix_append _ _ P) as [b E]. rewrite E.
    rewrite append_assoc, !group_link_href.
    rewrite (until_quote_closed b _ (Hc "" b E)). reflexivity.
Qed.

(** Before the attribute of an anchor line no value opens. *)
Lemma href_values_skip (pre rest : string) :
  ~ Re.contains href_open (pre ++ "href=") ->
  Spec.href_values (pre ++ href_open ++ rest)
  = Spec.href_values (href_open ++ rest).
Proof.
  induction pre as [|c pre IH]; intros H; [reflexivity|].
  change (String c pre ++ href_open ++ rest)
    with (String c (pre ++ href_open ++ rest)).
  rewrite href_values_cons.
  destruct (prefix href_open (String c (pre ++ href_open ++ rest))) eqn:P.
  - exfalso. apply H. destruct (prefix_append _ _ P) as [t E].
    exact (href_prefix pre c rest t E).
  - apply IH. exact (not_contains_cons _ _ _ H).
Qed.

(** At the attribute, its value; what follows is scanned from the
    value on. *)
Lemma href_values_open (rest : string) :
  Spec.href_values (href_open ++ rest)
  = Spec.until_quote rest :: Spec.href_values rest.
Proof.
  change (href_open ++ rest)
    with (String "h" ("ref=" ++ String Re.dquote rest)) at 1.
  rewrite href_values_cons.
  change (String "h" ("ref=" ++ String Re.dquote rest))
    with (href_open ++ rest).
  rewrite prefix_href_open, group_link_href. reflexivity.
Qed.

Lemma href_values_anchor (pre link post : string) :
  ~ Re.contains href_open (pre ++ "href=") ->
  ~ Re.contains (String Re.dquote EmptyString) link ->
  ~ Re.contains href_open (link ++ String Re.dquote post) ->
  Re.no_newline (link ++ String Re.dquote post) = true ->
  Spec.href_values (line_text (Anchor pre link post)) = [link]
  /\ forall rest,
       Spec.href_values
         (line_text (Anchor pre link post) ++ String Re.newline rest)
       = link :: Spec.href_values rest.
Proof.
  intros Hpre Hq Hpost Hn. cbn [line_text]. split.
  - rewrite (href_values_skip pre _ Hpre), href_values_open.
    rewrite (until_quote_value link post Hq).
    now rewrite (href_values_none _ Hpost).
  - intros rest. rewrite !append_assoc.
    rewrite (href_values_skip pre _ Hpre), href_values_open.
    change (link ++ String Re.dquote post ++ String Re.newline rest)
      with (link ++ String Re.dquote (post ++ String Re.newline rest)).
    rewrite (until_quote_value link _ Hq).
    change (link ++ String Re.dquote (post ++ String Re.newline rest))
      with (link ++ String Re.dquote post ++ String Re.newline rest).
    change (String Re.dquote post ++ String Re.newline rest)
      with ((String Re.dquote post) ++ String Re.newline rest).
    rewrite <- append_assoc.
    rewrite (href_values_line _ rest Hn (closed_none _ Hpost)).
    now rewrite (href_values_none _ Hpost).
Qed.

Lemma ends_with_aspx (a : string) : Spec.ends_with "aspx" (a ++ "aspx") = true.
Proof.
  unfold Spec.ends_with. rewrite length_append.
  replace (String.length a + String.length "aspx" - String.length "aspx")%nat
    with (String.length a) by lia.
  rewrite (substring_suffix a "aspx"). reflexivity.
Qed.

Lemma contains_trans (w v t : string) :
  Re.contains w v -> Re.contains v t -> Re.contains w t.
Proof.
  intros (a & b & ->) (a' & b' & ->). exists (a' ++ a), (b ++ b').
  now rewrite !append_assoc.
Qed.

Lemma filter_none (A : Type) (f : A -> bool) (l : list A) :
  (forall x, In x l -> f x = false) -> filter f l = [].
Proof.
  induction l as [|x l IH]; intros H; [reflexivity|].
  simpl. rewrite (H x (or_introl eq_refl)). apply IH.
  intros y Hy. apply H. now right.
Qed.

Lemma anchor_line_no_newline (pre link post : string) :
  Re.no_newline (line_text (Anchor pre link post)) = true ->
  Re.no_newline (link ++ String Re.dquote post) = true.
Proof.
  cbn [line_text]. intros Hn.
  rewrite (no_newline_append pre) in Hn. apply andb_prop in Hn as [_ Hn].
  rewrite (no_newline_append href_open) in Hn.
  now apply andb_prop in Hn as [_ Hn].
Qed.

(** The values of a line that the specification keeps: that of an anchor
    line, and none of a plain line. *)
Lemma valid_values_line (l : line) :
  line_ok l ->
  filter (fun h => Spec.occurs "trips" h && Spec.ends_with "aspx" h)
    (Spec.href_values (line_text l))
  = line_links l.
Proof.
  destruct l as [txt|pre link post]; intros [Hn H]; cbn [line_links].
  - destruct H as [Ht _]. cbn [line_text]. apply filter_none.
    intros v Hv. destruct (Spec.occurs "trips" v) eqn:O; [|reflexivity].
    exfalso. apply Ht.
    exact (contains_trans _ _ _ (occurs_contains _ _ O)
             (href_values_contains _ _ Hv)).
  - destruct H as (Hpre & Hq & (x & y & E) & _ & Hpost).
    rewrite (proj1 (href_values_anchor pre link post Hpre Hq Hpost
                      (anchor_line_no_newline _ _ _ Hn))).
    cbn [filter].
    assert (O : Spec.occurs "trips" link = true).
    { apply contains_occurs. exists x, (y ++ "aspx"). exact E. }
    assert (A : Spec.ends_with "aspx" link = true).
    { rewrite E, <- (append_assoc "trips"), <- append_assoc.
      apply ends_with_aspx. }
    now rewrite O, A.
Qed.

Lemma href_values_line_ok (l : line) (rest : string) :
  line_ok l ->
  Spec.href_values (line_text l ++ String Re.newline rest)
  = (Spec.href_values (line_text l) ++ Spec.href_values rest)%list.
Proof.
  destruct l as [txt|pre link post]; intros [Hn H].
  - exact (href_values_line txt rest Hn (proj2 H)).
  - destruct H as (Hpre & Hq & _ & _ & Hpost).
    destruct (href_values_anchor pre link post Hpre Hq Hpost
                (anchor_line_no_newline _ _ _ Hn)) as [E1 E2].
    now rewrite E1, E2.
Qed.

(** The links that the specification describes on such a page. *)
Lemma valid_links_page (ls : list line) :
  Forall line_ok ls ->
  Spec.valid_links (page ls)
  = fold_left (fun urls link => set_add link urls)
      (flat_map line_links ls) [].
Proof.
  intros H. unfold Spec.valid_links. f_equal.
  induction H as [|l ls Hl Hls IH]; [reflexivity|].
  cbn [page flat_map]. destruct ls as [|l2 ls].
  - rewrite (valid_values_line l Hl). now rewrite app_nil_r.
  - rewrite (href_values_line_ok l _ Hl), filter_app.
    now rewrite (valid_values_line l Hl), IH.
Qed.

Lemma closedb_closed (txt : string) : closedb txt = true -> closed txt.
Proof.
  induction txt as [|c txt IH]; intros H a b E.
  - destruct a; discriminate.
  - cbn [closedb] in H. apply andb_prop in H as [H1 H2].
    destruct a as [|d a].
    + change ("" ++ href_open ++ b) with (href_open ++ b) in E.
      rewrite E in H1. rewrite prefix_href_open in H1.
      change (substring 6 (String.length (href_open ++ b) - 6)
                (href_open ++ b))
        with (group_link (href_open ++ b)) in H1.
      rewrite group_link_href in H1. now apply occurs_contains.
    + injection E as _ E. exact (IH H2 a b E).
Qed.

Lemma plain_line_ok (txt : string) :
  Re.no_newline txt = true -> Spec.occurs "trips" txt = false ->
  closedb txt = true ->
  line_ok (Plain txt).
Proof.
  intros Hn O C. split; [exact Hn|]. split; [|now apply closedb_closed].
  intros H. apply contains_occurs in H. congruence.
Qed.

Lemma anchor_line_ok (pre x y post : string) :
  Re.no_newline
    (line_text (Anchor pre (x ++ "trips" ++ y ++ "aspx") post)) = true ->
  Spec.occurs href_open (pre ++ "href=") = false ->
  Spec.occurs (String Re.dquote EmptyString) (x ++ "trips" ++ y ++ "aspx")
  = false ->
  Spec.occurs "aspx" ("spx" ++ String Re.dquote post) = false ->
  Spec.occurs href_open
    ((x ++ "trips" ++ y ++ "aspx") ++ String Re.dquote post) = false ->
  line_ok (Anchor pre (x ++ "trips" ++ y ++ "aspx") post).
Proof.
  intros Hn O1 O2 O3 O4. split; [exact Hn|].
  split; [|split; [|split; [|split]]];
    try (intros C; apply contains_occurs in C; congruence).
  now exists x, y.
Qed.

(** X12. On a page whose lines are plain lines, without [trips] and with
    their attributes [href] closed on the line, and anchor lines, each
    with one attribute [href] whose value holds no double quote, contains
    [trips] and ends in [aspx], and after which nothing on the line
    completes another [aspx]: [get_links] returns the set that the
    specification describes, the values of the attributes [href] that
    contain [trips] and end in [aspx].  Its members are the values of the
    anchor lines, each once. *)
Theorem get_links_of_page (ls : list line) :
  Forall line_ok ls ->
  NoDup (get_links (page ls))
  /\ (forall u, In u (get_links (page ls))
                <-> In u (Spec.valid_links (page ls)))
  /\ (forall u, In u (get_links (page ls))
                <-> exists pre post, In (Anchor pre u post) ls).
Proof.
  intros H. rewrite (get_links_page ls H), (valid_links_page ls H).
  split; [|split].
  - apply (fold_set_add (fun _ => True) (fun m => m)); auto using NoDup_nil.
    apply Forall_forall. auto.
  - intros u. reflexivity.
  - intros u. rewrite fold_set_add_In, in_flat_map. split.
    + intros [[]|(l & Hl & Hu)].
      destruct l as [txt|pre link post]; [destruct Hu|].
      destruct Hu as [<-|[]]. now exists pre, post.
    + intros (pre & post & Hin). right. exists (Anchor pre u post).
      split; [exact Hin | now left].
Qed.

Lemma get_links_of_page_witness :
  page emt_lines = Fixture.emt_datos
  /\ NoDup (get_links (page emt_lines))
  /\ (forall u, In u (get_links (page emt_lines))
                <-> In u (Spec.valid_links (page emt_lines)))
  /\ (forall u, In u (get_links (page emt_lines))
                <-> exists pre post, In (Anchor pre u post) emt_lines).
Proof.
  split; [reflexivity|].
  apply (get_links_of_page emt_lines).
  unfold emt_lines.
  apply Forall_cons; [now apply plain_line_ok|].
  apply Forall_cons;
    [refine (anchor_line_ok "<li><a "
               "/getattachment/20b8509b-97a8-4831-b9d2-4900322e1714/"
               "_23_01_January-csv." ">Enero 2023</a></li>"
               _ _ _ _ _); reflexivity|].
  apply Forall_cons; [now apply plain_line_ok|].
  apply Forall_cons;
    [refine (anchor_line_ok "<li><a "
               "/getattachment/e1ea5e02-4ba9-471a-bb95-8cb327220b05/"
               "_22_03_March-csv." ">Marzo 2022</a></li>"
               _ _ _ _ _); reflexivity|].
  apply Forall_cons;
    [refine (anchor_line_ok "<li><a "
               "/getattachment/ab3776ab-ba7f-4da3-bea6-e70c21c7d8be/"
               "_21_06_June-csv." ">Junio 2021</a></li>"
               _ _ _ _ _); reflexivity|].
  apply Forall_cons;
    [refine (anchor_line_ok "<li><a "
               "/getattachment/20b8509b-97a8-4831-b9d2-4900322e1714/"
               "_23_01_January-csv." ">Enero 2023 (copia)</a></li>"
               _ _ _ _ _); reflexivity|].
  apply Forall_cons; [now apply plain_line_ok|].
  apply Forall_nil.
Defined.

(** ** When [clean] returns and what it can raise *)

(** X13. [clean] returns exactly when the table has the four identifier
    columns and none of them holds an infinite float.  Otherwise it
    raises [OverflowError] or the [KeyError] of an identifier column that
    the table lacks, and nothing else: a NaN never reaches [int].  Whether
    it returns or raises, it leaves a table with the columns it found and
    without a null row. *)
Theorem clean_outcomes (self : BiciMad) :
  (fst (clean self) = Ok tt
   <-> (forall c, In c id_columns -> In c (columns (_data self)))
       /\ finite_ids (_data self))
  /\ (forall e, fst (clean self) = Raise e ->
        e = OverflowError
        \/ exists k, In k id_columns /\ ~ In k (columns (_data self))
                     /\ e = KeyError k)
  /\ columns (_data (snd (clean self))) = columns (_data self)
  /\ no_null_row (_data (snd (clean self))).
Proof.
  rewrite clean_unfold. cbn [fst snd _data].
  destruct (clean_columns id_columns (dropna_all (_data self)))
    as [r df1] eqn:C.
  cbn [fst snd].
  destruct (clean_columns_keeps _ _ _ _ C) as (K & _ & N).
  split; [split|split; [|split]].
  - intros ->. split.
    + intros c Hc. destruct (clean_columns_Ok _ _ _ C c Hc) as (p & P & _).
      destruct (in_dec string_dec c (columns (_data self))) as [i|n];
        [exact i|].
      apply position_none in n. cbn [dropna_all columns] in P. congruence.
    + apply finite_ids_dropna_all. intros k p Hk Hp.
      destruct (clean_columns_Ok _ _ _ C k Hk) as (p' & P & F).
      rewrite Hp in P. injection P as <-. exact F.
  - intros [Hc F].
    pose proof (clean_columns_total id_columns (dropna_all (_data self))
                  (incl_refl _) (dropna_all_finite _ F) Hc) as T.
    now rewrite C in T.
  - intros e ->. exact (clean_columns_Raise _ _ _ _ C).
  - exact K.
  - exact (N (dropna_all_no_null_row _)).
Qed.

(** ** Printing *)

(** X14. [str] of the object returns exactly when [clean] does, and raises
    what [clean] raises.  What it prints is the table it leaves in the
    object, which is a cleaned one; printing again gives the same text and
    changes nothing more. *)
Theorem str_prints_cleaned_table (w : World) (self : BiciMad) :
  (forall e, fst (__str__ w self) = Raise e <-> fst (clean self) = Raise e)
  /\ (forall s, fst (__str__ w self) = Ok s ->
        fst (clean self) = Ok tt
        /\ s = to_string w (_data (snd (__str__ w self)))
        /\ cleaned (_data (snd (__str__ w self))))
  /\ snd (__str__ w self) = snd (clean self)
  /\ __str__ w (snd (__str__ w self)) = __str__ w self.
Proof.
  assert (S : snd (__str__ w self) = snd (clean self)).
  { unfold __str__. rewrite <- snd_data. now destruct (data self) as [[d|e] s]. }
  assert (A : __str__ w (snd (clean self)) = __str__ w self).
  { unfold __str__. now rewrite data_again. }
  rewrite S, A. pose proof (clean_cleaned self) as Cl. revert Cl.
  unfold __str__, data.
  destruct (clean self) as [[[]|e] s]; cbn iota beta; cbn [fst snd].
  - intros Cl. split; [|split; [|split]]; try reflexivity.
    + intros e. split; discriminate.
    + intros t [= <-]. auto.
  - intros _. split; [|split; [|split]]; try reflexivity.
    + intros e'. split; intros [= <-]; reflexivity.
    + intros t. discriminate.
Qed.
